(** * Exec approval manager: the pending-approval store and its handlers

    A shallow embedding of [src/gateway/exec-approval-manager.ts]
    (class [ExecApprovalManager]) together with the part of the
    JavaScript runtime it relies on (timers, promises, [Date.now],
    [randomUUID]), followed by the message handlers built on top of it,
    and of the functions of [src/commands/doctor-config-flow.ts] that
    walk and repair a configuration. *)

From Stdlib Require Import ZArith QArith Qround String Ascii Lia.
From stdpp Require Import base list sorting.

Local Open Scope Z_scope.

(* ===================================================================== *)
(** ** JavaScript values *)
(* ===================================================================== *)

(** A JavaScript string is a sequence of UTF-16 code units. *)
Definition code_unit := N.
Definition jsstring := list code_unit.

(** ASCII literals, for examples and fixed messages. *)
Fixpoint str (s : string) : jsstring :=
  match s with
  | EmptyString => []
  | String c s' => N_of_ascii c :: str s'
  end.

(** [string | null | undefined]. *)
Inductive Nullable (A : Type) : Type :=
| Undefined
| Null
| Val (a : A).
Arguments Undefined {A}.
Arguments Null {A}.
Arguments Val {A} a.

(** A JavaScript number passed as [nowMs]: finite doubles are rationals. *)
Inductive JsNumber : Type :=
| NaN
| Infinity (negative : bool)
| Num (q : Q).

(** ECMAScript WhiteSpace and LineTerminator code points, the characters
    removed by [String.prototype.trim]; all of them are single code units. *)
Definition is_white_space (c : code_unit) : bool :=
  ((9 <=? c) && (c <=? 13) || (c =? 32) || (c =? 160) || (c =? 5760)
   || (8192 <=? c) && (c <=? 8202) || (c =? 8232) || (c =? 8233)
   || (c =? 8239) || (c =? 8287) || (c =? 12288) || (c =? 65279))%N.

Fixpoint trimStart (s : jsstring) : jsstring :=
  match s with
  | [] => []
  | c :: s' => if is_white_space c then trimStart s' else s
  end.

Definition trimEnd (s : jsstring) : jsstring := rev (trimStart (rev s)).

(** [value.trim()] *)
Definition trim (s : jsstring) : jsstring := trimEnd (trimStart s).

(* ===================================================================== *)
(** ** Data model *)
(* ===================================================================== *)

(** [ExecApprovalDecision] is imported from [../infra/exec-approvals.js]. *)
(** Modelled from the spec: the declaration of [ExecApprovalDecision] is
    not part of the sources at hand; the specification describes it as a
    closed enum (allow-once / allow-always / deny), and the tests use
    "allow-once" and "deny". *)
Inductive ExecApprovalDecision : Type :=
| AllowOnce
| AllowAlways
| Deny.

Record ExecApprovalRequestPayload : Type := {
  command : jsstring;
  cwd : Nullable jsstring;
  host : Nullable jsstring;
  security : Nullable jsstring;
  ask : Nullable jsstring;
  agentId : Nullable jsstring;
  resolvedPath : Nullable jsstring;
  sessionKey : Nullable jsstring;
}.

(** Timestamps and durations are whole numbers of milliseconds, far
    inside the range where the arithmetic of JavaScript numbers is exact. *)
Record ExecApprovalRecord : Type := {
  r_id : jsstring;
  r_request : ExecApprovalRequestPayload;
  r_createdAtMs : Z;
  r_expiresAtMs : Z;
  r_resolvedAtMs : option Z;
  r_decision : option ExecApprovalDecision;
  r_resolvedBy : Nullable jsstring;
}.

Record ExecApprovalPendingItem : Type := {
  i_id : jsstring;
  i_command : jsstring;
  i_createdAtMs : Z;
  i_expiresAtMs : Z;
  i_waitingMs : Z;
  i_expiresInMs : Z;
  i_agentId : option jsstring;
  i_cwd : option jsstring;
  i_host : option jsstring;
  i_security : option jsstring;
  i_ask : option jsstring;
  i_resolvedPath : option jsstring;
  i_sessionKey : option jsstring;
}.

(** [PendingEntry]: the record, the promise whose [resolve] function the
    entry holds, and the handle of its expiry timer.  ([reject] is stored
    by the source but never called.) *)
Record PendingEntry : Type := {
  e_record : ExecApprovalRecord;
  e_resolve : nat;
  e_timer : nat;
}.

(** [normalizeOptionalString] *)
Definition normalizeOptionalString (value : Nullable jsstring) : option jsstring :=
  match value with
  | Val s =>
      let trimmed := trim s in
      match trimmed with
      | [] => None
      | _ :: _ => Some trimmed
      end
  | _ => None
  end.

(* ===================================================================== *)
(** ** [Map<string, V>]

    A JavaScript [Map] iterates in insertion order; [set] on a present key
    replaces the value in place, on an absent key it appends. *)
(* ===================================================================== *)

Definition JsMap (V : Type) : Type := list (jsstring * V).

Section JsMap.
Context {V : Type}.

Fixpoint Map_get (k : jsstring) (m : JsMap V) : option V :=
  match m with
  | [] => None
  | (k', v) :: m' => if decide (k' = k) then Some v else Map_get k m'
  end.

Fixpoint Map_set (k : jsstring) (v : V) (m : JsMap V) : JsMap V :=
  match m with
  | [] => [(k, v)]
  | (k', v') :: m' =>
      if decide (k' = k) then (k', v) :: m' else (k', v') :: Map_set k v m'
  end.

Fixpoint Map_delete (k : jsstring) (m : JsMap V) : JsMap V :=
  match m with
  | [] => []
  | (k', v') :: m' =>
      if decide (k' = k) then Map_delete k m'
      else (k', v') :: Map_delete k m'
  end.

Definition Map_values (m : JsMap V) : list V := snd <$> m.
Definition Map_keys (m : JsMap V) : list jsstring := fst <$> m.
Definition Map_size (m : JsMap V) : nat := length m.
End JsMap.

(* ===================================================================== *)
(** ** The runtime: clock, timers, promises *)
(* ===================================================================== *)

(** A timer armed by [setTimeout]: the closure of [waitForDecision] holds
    the record (of which it reads [id]) and the promise's [resolve]. *)
Record Timer : Type := {
  t_due : Z;
  t_record_id : jsstring;
  t_resolve : nat;
}.

Inductive PromiseState : Type :=
| Pending
| Fulfilled (v : option ExecApprovalDecision).

(** The heap the manager lives in.
    - [pending]: the private field of [ExecApprovalManager];
    - [clock]: what [Date.now()] returns;
    - [timers]: one slot per handle ever returned by [setTimeout]; a slot
      is [None] once the timer has fired or has been cleared;
    - [promises]: one slot per promise created by [waitForDecision];
    - [resumed]: every call of a promise's [resolve] function, in order;
    - [microtasks]: continuations scheduled by settling a promise and not
      run yet;
    - [finalized]: records stamped by [resolve]; they have left the
      pending map and are still referenced by whoever created them;
    - [uuid_source], [uuid_count]: the results of successive calls of
      [randomUUID()]. *)
Record World : Type := {
  pending : JsMap PendingEntry;
  clock : Z;
  timers : list (option Timer);
  promises : list PromiseState;
  resumed : list (nat * option ExecApprovalDecision);
  microtasks : list (nat * option ExecApprovalDecision);
  finalized : list ExecApprovalRecord;
  uuid_source : nat -> jsstring;
  uuid_count : nat;
}.

Definition initial_world (now : Z) (uuids : nat -> jsstring) : World :=
  {| pending := []; clock := now; timers := []; promises := [];
     resumed := []; microtasks := []; finalized := [];
     uuid_source := uuids; uuid_count := 0 |}.

Definition with_pending (m : JsMap PendingEntry) (w : World) : World :=
  {| pending := m; clock := clock w; timers := timers w;
     promises := promises w; resumed := resumed w;
     microtasks := microtasks w; finalized := finalized w;
     uuid_source := uuid_source w; uuid_count := uuid_count w |}.

Definition with_timers (ts : list (option Timer)) (w : World) : World :=
  {| pending := pending w; clock := clock w; timers := ts;
     promises := promises w; resumed := resumed w;
     microtasks := microtasks w; finalized := finalized w;
     uuid_source := uuid_source w; uuid_count := uuid_count w |}.

Definition with_clock (c : Z) (w : World) : World :=
  {| pending := pending w; clock := c; timers := timers w;
     promises := promises w; resumed := resumed w;
     microtasks := microtasks w; finalized := finalized w;
     uuid_source := uuid_source w; uuid_count := uuid_count w |}.

Definition with_finalized (fs : list ExecApprovalRecord) (w : World) : World :=
  {| pending := pending w; clock := clock w; timers := timers w;
     promises := promises w; resumed := resumed w;
     microtasks := microtasks w; finalized := fs;
     uuid_source := uuid_source w; uuid_count := uuid_count w |}.

Definition with_microtasks (ms : list (nat * option ExecApprovalDecision))
    (w : World) : World :=
  {| pending := pending w; clock := clock w; timers := timers w;
     promises := promises w; resumed := resumed w;
     microtasks := ms; finalized := finalized w;
     uuid_source := uuid_source w; uuid_count := uuid_count w |}.

(** [Date.now()] *)
Definition Date_now (w : World) : Z := clock w.

(** [randomUUID()] *)
Definition randomUUID (w : World) : jsstring * World :=
  (uuid_source w (uuid_count w),
   {| pending := pending w; clock := clock w; timers := timers w;
      promises := promises w; resumed := resumed w;
      microtasks := microtasks w; finalized := finalized w;
      uuid_source := uuid_source w; uuid_count := S (uuid_count w) |}).

(** The delay [setTimeout] really waits: Node's timers replace a delay
    below 1 or above 2^31-1 by 1. *)
Definition timer_delay (ms : Z) : Z :=
  if (ms <? 1) || (2147483647 <? ms) then 1 else ms.

(** [setTimeout(callback, ms)]: a fresh handle. *)
Definition setTimeout (record_id : jsstring) (resolve_fn : nat) (ms : Z)
    (w : World) : nat * World :=
  (length (timers w),
   with_timers
     (timers w ++ [Some {| t_due := clock w + timer_delay ms;
                           t_record_id := record_id;
                           t_resolve := resolve_fn |}]) w).

(** [clearTimeout(handle)] *)
Definition clearTimeout (handle : nat) (w : World) : World :=
  with_timers (<[handle := None]> (timers w)) w.

(** [new Promise(...)]: a fresh pending promise. *)
Definition new_promise (w : World) : nat * World :=
  (length (promises w),
   {| pending := pending w; clock := clock w; timers := timers w;
      promises := promises w ++ [Pending]; resumed := resumed w;
      microtasks := microtasks w; finalized := finalized w;
      uuid_source := uuid_source w; uuid_count := uuid_count w |}).

(** Calling the [resolve] function of promise [p] with [v].  The call is
    recorded; it settles the promise and schedules its continuation only
    if the promise is still pending. *)
Definition call_resolve (p : nat) (v : option ExecApprovalDecision)
    (w : World) : World :=
  let settles :=
    match promises w !! p with Some Pending => true | _ => false end in
  {| pending := pending w; clock := clock w; timers := timers w;
     promises := if settles then <[p := Fulfilled v]> (promises w)
                 else promises w;
     resumed := resumed w ++ [(p, v)];
     microtasks := if settles then microtasks w ++ [(p, v)]
                   else microtasks w;
     finalized := finalized w;
     uuid_source := uuid_source w; uuid_count := uuid_count w |}.

(* ===================================================================== *)
(** ** [class ExecApprovalManager] *)
(* ===================================================================== *)

(** [create(request, timeoutMs, id)] *)
Definition create (request : ExecApprovalRequestPayload) (timeoutMs : Z)
    (id : Nullable jsstring) (w : World) : ExecApprovalRecord * World :=
  let now := Date_now w in
  let '(resolvedId, w1) :=
    match id with
    | Val s =>
        if decide (s <> [] /\ (0 < length (trim s))%nat)
        then (trim s, w) else randomUUID w
    | _ => randomUUID w
    end in
  ({| r_id := resolvedId; r_request := request;
      r_createdAtMs := now; r_expiresAtMs := now + timeoutMs;
      r_resolvedAtMs := None; r_decision := None;
      r_resolvedBy := Undefined |}, w1).

(** [waitForDecision(record, timeoutMs)]: the promise executor arms the
    timer, then stores the entry; the promise is returned.  The method is
    [async] and returns [await new Promise(...)]: the promise the caller
    gets settles when and as the inner one does, and the two are one
    promise here. *)
Definition waitForDecision (record : ExecApprovalRecord) (timeoutMs : Z)
    (w : World) : nat * World :=
  let '(p, w1) := new_promise w in
  let '(timer, w2) := setTimeout (r_id record) p timeoutMs w1 in
  (p, with_pending
        (Map_set (r_id record)
           {| e_record := record; e_resolve := p; e_timer := timer |}
           (pending w2)) w2).

(** The callback given to [setTimeout] by [waitForDecision]: first
    [this.pending.delete(record.id)], then [resolve(null)]. *)
Definition expire (tm : Timer) (w : World) : World :=
  with_pending (Map_delete (t_record_id tm) (pending w)) w.

Definition timer_callback (tm : Timer) (w : World) : World :=
  call_resolve (t_resolve tm) None (expire tm w).

(** The event loop runs the callback of timer [handle] if it is armed and
    due; the handle is spent. *)
Definition fire (handle : nat) (w : World) : option World :=
  match timers w !! handle with
  | Some (Some tm) =>
      if t_due tm <=? clock w
      then Some (timer_callback tm (clearTimeout handle w))
      else None
  | _ => None
  end.

(** The statements of [resolve] between the lookup and the call of the
    waiter's [resolve] function: the timer is cleared, the record is
    stamped, the entry is deleted. *)
Definition finalize (recordId : jsstring) (entry : PendingEntry)
    (decision : ExecApprovalDecision) (resolvedBy : Nullable jsstring)
    (w : World) : World :=
  let w1 := clearTimeout (e_timer entry) w in
  let stamped :=
    {| r_id := r_id (e_record entry);
       r_request := r_request (e_record entry);
       r_createdAtMs := r_createdAtMs (e_record entry);
       r_expiresAtMs := r_expiresAtMs (e_record entry);
       r_resolvedAtMs := Some (Date_now w1);
       r_decision := Some decision;
       r_resolvedBy :=
         match resolvedBy with Val s => Val s | _ => Null end |} in
  let w2 := with_finalized (finalized w1 ++ [stamped]) w1 in
  with_pending (Map_delete recordId (pending w2)) w2.

(** [resolve(recordId, decision, resolvedBy)] *)
Definition resolve (recordId : jsstring) (decision : ExecApprovalDecision)
    (resolvedBy : Nullable jsstring) (w : World) : bool * World :=
  match Map_get recordId (pending w) with
  | None => (false, w)
  | Some entry =>
      (true,
       call_resolve (e_resolve entry) (Some decision)
         (finalize recordId entry decision resolvedBy w))
  end.

(** [getSnapshot(recordId)] *)
Definition getSnapshot (recordId : jsstring) (w : World)
    : option ExecApprovalRecord :=
  e_record <$> Map_get recordId (pending w).

(** [Array.prototype.toSorted(compare)]: the sort is stable; an element
    moves behind another one only when [compare] says it is greater. *)
Section ToSorted.
Context {A : Type} (compare : A -> A -> Z).

Fixpoint insert_by (x : A) (l : list A) : list A :=
  match l with
  | [] => [x]
  | y :: l' => if 0 <? compare x y then y :: insert_by x l' else x :: l
  end.

Fixpoint toSorted (l : list A) : list A :=
  match l with
  | [] => []
  | x :: l' => insert_by x (toSorted l')
  end.
End ToSorted.

(** The instant [listPending] measures against:
    [Number.isFinite(nowMs) ? Math.max(0, Math.floor(nowMs)) : Date.now()],
    where an omitted argument defaults to [Date.now()]. *)
Definition listing_now (nowMs : option JsNumber) (w : World) : Z :=
  let nowMs :=
    match nowMs with
    | Some n => n
    | None => Num (inject_Z (Date_now w))
    end in
  match nowMs with
  | Num q => Z.max 0 (Qfloor q)
  | _ => Date_now w
  end.

(** The object built by the [map] callback of [listPending]. *)
Definition pending_item (now : Z) (entry : PendingEntry)
    : ExecApprovalPendingItem :=
  let record := e_record entry in
  {| i_id := r_id record;
     i_command := command (r_request record);
     i_createdAtMs := r_createdAtMs record;
     i_expiresAtMs := r_expiresAtMs record;
     i_waitingMs := Z.max 0 (now - r_createdAtMs record);
     i_expiresInMs := Z.max 0 (r_expiresAtMs record - now);
     i_agentId := normalizeOptionalString (agentId (r_request record));
     i_cwd := normalizeOptionalString (cwd (r_request record));
     i_host := normalizeOptionalString (host (r_request record));
     i_security := normalizeOptionalString (security (r_request record));
     i_ask := normalizeOptionalString (ask (r_request record));
     i_resolvedPath :=
       normalizeOptionalString (resolvedPath (r_request record));
     i_sessionKey :=
       normalizeOptionalString (sessionKey (r_request record)) |}.

Section Listing.
(** [String.prototype.localeCompare] belongs to the platform. *)
Variable localeCompare : jsstring -> jsstring -> Z.

(** [(a, b) => a.createdAtMs - b.createdAtMs || a.id.localeCompare(b.id)] *)
Definition compare_items (a b : ExecApprovalPendingItem) : Z :=
  let d := i_createdAtMs a - i_createdAtMs b in
  if d =? 0 then localeCompare (i_id a) (i_id b) else d.

(** [listPending(nowMs)] *)
Definition listPending (nowMs : option JsNumber) (w : World)
    : list ExecApprovalPendingItem :=
  let now := listing_now nowMs w in
  toSorted compare_items (pending_item now <$> Map_values (pending w)).
End Listing.

(** Code-unit lexicographic comparison, the reading of [localeCompare]
    used for the examples: negative, zero or positive. *)
Fixpoint lex_compare (a b : jsstring) : Z :=
  match a, b with
  | [], [] => 0
  | [], _ :: _ => -1
  | _ :: _, [] => 1
  | x :: a', y :: b' =>
      if (x <? y)%N then -1 else if (y <? x)%N then 1 else lex_compare a' b'
  end.

(* ===================================================================== *)
(** ** Executions of the store *)
(* ===================================================================== *)

(** What can happen to a store: calls of its methods, the event loop
    running a due timer, the microtask queue being run, time passing. *)
Inductive Op : Type :=
| OpCreate (request : ExecApprovalRequestPayload) (timeoutMs : Z)
    (id : Nullable jsstring)
| OpWaitForDecision (record : ExecApprovalRecord) (timeoutMs : Z)
| OpResolve (recordId : jsstring) (decision : ExecApprovalDecision)
    (resolvedBy : Nullable jsstring)
| OpFire (handle : nat)
| OpRunMicrotasks
| OpTick (dt : N).

Definition exec_op (op : Op) (w : World) : World :=
  match op with
  | OpCreate request timeoutMs id => snd (create request timeoutMs id w)
  | OpWaitForDecision record timeoutMs =>
      snd (waitForDecision record timeoutMs w)
  | OpResolve recordId decision resolvedBy =>
      snd (resolve recordId decision resolvedBy w)
  | OpFire handle => default w (fire handle w)
  | OpRunMicrotasks => with_microtasks [] w
  | OpTick dt => with_clock (clock w + Z.of_N dt) w
  end.

Definition exec_ops (ops : list Op) (w : World) : World :=
  foldl (fun w op => exec_op op w) w ops.

(** How often the [resolve] function of promise [p] has been called. *)
Definition times_resumed (p : nat) (w : World) : nat :=
  length (filter (fun c => c.1 = p) (resumed w)).

(** The invariant of the runtime state behind a store: the keys of the map
    are distinct, promise and timer of a registration are allocated
    together, an armed timer waits for a pending promise, a pending entry
    owns an armed timer, a promise was resumed once if it is settled and
    never otherwise, and the continuations in the microtask queue are
    those of settled promises. *)
Record world_ok (w : World) : Prop := {
  ok_keys : NoDup (Map_keys (pending w));
  ok_lengths : length (timers w) = length (promises w);
  ok_timers : forall t tm,
    timers w !! t = Some (Some tm) ->
    t_resolve tm = t /\ promises w !! t = Some Pending;
  ok_pending : forall k e,
    Map_get k (pending w) = Some e ->
    e_resolve e = e_timer e /\ r_id (e_record e) = k /\
    exists tm, timers w !! e_timer e = Some (Some tm) /\ t_record_id tm = k;
  ok_resumed : forall p,
    times_resumed p w =
    match promises w !! p with Some (Fulfilled _) => 1%nat | _ => 0%nat end;
  ok_microtasks : forall p v,
    (p, v) ∈ microtasks w -> promises w !! p = Some (Fulfilled v);
}.

(** Every armed timer belongs to the entry stored under its id. *)
Definition timers_tracked (w : World) : Prop :=
  forall t tm, timers w !! t = Some (Some tm) ->
  exists e, Map_get (t_record_id tm) (pending w) = Some e /\ e_timer e = t.

(** No armed timer would expire [id]. *)
Definition no_timer_for_list (id : jsstring) (ts : list (option Timer)) : Prop :=
  forall t tm, ts !! t = Some (Some tm) -> t_record_id tm <> id.

Definition no_timer_for (id : jsstring) (w : World) : Prop :=
  no_timer_for_list id (timers w).

(** [waitForDecision] is called for an id that is not pending, as the
    request handler makes sure. *)
Definition guarded (op : Op) (w : World) : Prop :=
  match op with
  | OpWaitForDecision record _ => Map_get (r_id record) (pending w) = None
  | _ => True
  end.

Fixpoint guarded_run (ops : list Op) (w : World) : Prop :=
  match ops with
  | [] => True
  | op :: ops' => guarded op w /\ guarded_run ops' (exec_op op w)
  end.

(** The waiter of promise [p] has no entry in the pending map any more. *)
Definition orphan (p : nat) (w : World) : Prop :=
  (p < length (promises w))%nat /\
  forall k e, Map_get k (pending w) = Some e -> e_resolve e <> p.

(** [op] is a call of [resolve] for [id]. *)
Definition resolves (id : jsstring) (op : Op) : Prop :=
  match op with
  | OpResolve recordId _ _ => recordId = id
  | _ => False
  end.

(** [op] registers a waiter under [id]. *)
Definition registers (id : jsstring) (op : Op) : Prop :=
  match op with
  | OpWaitForDecision record _ => r_id record = id
  | _ => False
  end.

(** The handles of the timers that are armed. *)
Definition is_armed (w : World) (t : nat) : bool :=
  match timers w !! t with
  | Some (Some _) => true
  | _ => false
  end.

Definition armed_timers (w : World) : list nat :=
  filter (fun t => is_armed w t = true) (seq 0 (length (timers w))).

(** A string that does not begin with white space. *)
Definition starts_clean (s : jsstring) : Prop :=
  match s with
  | [] => True
  | c :: _ => is_white_space c = false
  end.

(** A string with no white space at either end. *)
Definition is_trimmed (s : jsstring) : Prop :=
  starts_clean s /\ starts_clean (rev s).

(* ===================================================================== *)
(** ** The request handlers *)
(* ===================================================================== *)

(** The payload of a broadcast: [exec.approval.requested] carries the
    pending snapshot of the new record, [exec.approval.resolved] carries
    [{id, decision, resolvedBy}]. *)
Inductive BroadcastEvent : Type :=
| Requested (payload : ExecApprovalPendingItem)
| Resolved (id : jsstring) (decision : ExecApprovalDecision)
    (resolvedBy : Nullable jsstring).

(** What a handler passes to [respond]: a failure with its message, or
    the success payload of the method.  A resolved request answers
    [{id, decision}], where the decision is [null] after a timeout; a
    resolve answers [{ok: true}], as the tests expect. *)
Inductive Response : Type :=
| Failure (message : string)
| RequestOk (id : jsstring) (decision : option ExecApprovalDecision)
| ResolveOk
| PendingOk (nowMs : Z) (items : list ExecApprovalPendingItem).

(** What an observer of the gateway sees, in order. *)
Inductive Event : Type :=
| Broadcast (ev : BroadcastEvent)
| Respond (call : nat) (response : Response).

(** Parameters of [exec.approval.request] and [exec.approval.resolve]
    that passed validation. *)
Record RequestParams : Type := {
  p_id : Nullable jsstring;
  p_request : ExecApprovalRequestPayload;
  p_timeoutMs : option Z;
}.

Record ResolveParams : Type := {
  rp_id : jsstring;
  rp_decision : ExecApprovalDecision;
  rp_resolvedBy : Nullable jsstring;
}.

(** Parameters of [exec.approval.pending] as received: the own keys of
    the object with their values. *)
Inductive JsValue : Type :=
| JsUndefined
| JsNull
| JsBoolean (b : bool)
| JsNumeric (n : JsNumber)
| JsString (s : jsstring).

Definition PendingParams : Type := list (jsstring * JsValue).

(** A handler invoked synchronously by a subscriber of a broadcast. *)
Inductive SyncCall : Type :=
| SyncResolve (params : ResolveParams)
| SyncPending (params : PendingParams).

(** How the subscribers of [context.broadcast] react, synchronously, to
    an event. *)
Definition Reaction : Type := BroadcastEvent -> list SyncCall.

(** The gateway: the store and its runtime, the request handlers
    suspended on [await] (promise, call, record id), what has been
    observed so far, and the number of handler calls so far, which names
    the [respond] callback of the next one. *)
Record Gateway : Type := {
  world : World;
  awaiting : list (nat * (nat * jsstring));
  trace : list Event;
  calls : nat;
}.

Definition initial_gateway (now : Z) (uuids : nat -> jsstring) : Gateway :=
  {| world := initial_world now uuids; awaiting := []; trace := [];
     calls := 0 |}.

Definition with_world (w : World) (g : Gateway) : Gateway :=
  {| world := w; awaiting := awaiting g; trace := trace g;
     calls := calls g |}.

Definition with_awaiting (a : list (nat * (nat * jsstring))) (g : Gateway)
    : Gateway :=
  {| world := world g; awaiting := a; trace := trace g; calls := calls g |}.

(** [respond(ok, payload, error)] *)
Definition respond (call : nat) (response : Response) (g : Gateway)
    : Gateway :=
  {| world := world g; awaiting := awaiting g;
     trace := trace g ++ [Respond call response]; calls := calls g |}.

(** The event is handed to the broadcast channel. *)
Definition emit (ev : BroadcastEvent) (g : Gateway) : Gateway :=
  {| world := world g; awaiting := awaiting g;
     trace := trace g ++ [Broadcast ev]; calls := calls g |}.

(** A handler is entered: its [respond] callback gets the next name. *)
Definition enter (g : Gateway) : nat * Gateway :=
  (calls g,
   {| world := world g; awaiting := awaiting g; trace := trace g;
      calls := S (calls g) |}).

Fixpoint awaiter_of (p : nat) (a : list (nat * (nat * jsstring)))
    : option (nat * jsstring) :=
  match a with
  | [] => None
  | (q, k) :: a' => if decide (q = p) then Some k else awaiter_of p a'
  end.

Fixpoint drop_awaiter (p : nat) (a : list (nat * (nat * jsstring)))
    : list (nat * (nat * jsstring)) :=
  match a with
  | [] => []
  | (q, k) :: a' =>
      if decide (q = p) then drop_awaiter p a' else (q, k) :: drop_awaiter p a'
  end.

(** The continuation of a request handler after [await]: it responds
    [{id, decision}]. *)
Definition run_microtask (g : Gateway)
    (m : nat * option ExecApprovalDecision) : Gateway :=
  match awaiter_of m.1 (awaiting g) with
  | Some (call, id) =>
      respond call (RequestOk id m.2)
        (with_awaiting (drop_awaiter m.1 (awaiting g)) g)
  | None => g
  end.

(** The microtask queue is run when the synchronous code is done. *)
Definition run_microtasks (g : Gateway) : Gateway :=
  let g' := foldl run_microtask g (microtasks (world g)) in
  with_world (with_microtasks [] (world g')) g'.

(** The failure message of the request handler for a duplicate id. *)
Definition ALREADY_PENDING : string := "approval id already pending".

(** What the validation failure of [exec.approval.pending] starts with. *)
Definition INVALID_PENDING_PARAMS : string :=
  "invalid exec.approval.pending params".

Section Handlers.
Variable localeCompare : jsstring -> jsstring -> Z.
(** The timeout of a request that names none, the message of a resolve
    that finds nothing and the rendering of validation errors are not
    fixed by the specification. *)
Variable DEFAULT_TIMEOUT_MS : Z.
Variable UNKNOWN_ID : string.
Variable formatValidationErrors : PendingParams -> string.

(** Modelled from the spec: the handlers built by
    [createExecApprovalHandlers] (server-methods/exec-approval.ts) are
    not among the sources; only their tests are.
    ["exec.approval.resolve"] calls [resolve] of the store; if that
    returns [false] it responds with a failure, otherwise it emits the
    "resolved" broadcast carrying [{id, decision, resolvedBy}] and
    responds with success. *)
Definition handle_resolve (params : ResolveParams) (g : Gateway)
    : Gateway :=
  let '(call, g) := enter g in
  let '(ok, w) :=
    resolve (rp_id params) (rp_decision params) (rp_resolvedBy params)
      (world g) in
  let g := with_world w g in
  if ok
  then respond call ResolveOk
         (emit (Resolved (rp_id params) (rp_decision params)
                  (rp_resolvedBy params)) g)
  else respond call (Failure UNKNOWN_ID) g.

(** Modelled from the spec: the handler of ["exec.approval.pending"],
    missing like the others, rejects any unrecognized parameter key
    with a validation failure whose message names the method, and
    otherwise responds with [{nowMs, pending: listPending(nowMs)}]. *)
Definition handle_pending (params : PendingParams) (g : Gateway)
    : Gateway :=
  let '(call, g) := enter g in
  match params with
  | [] =>
      let nowMs := Date_now (world g) in
      respond call
        (PendingOk nowMs
           (listPending localeCompare (Some (Num (inject_Z nowMs)))
              (world g))) g
  | _ :: _ =>
      respond call
        (Failure (INVALID_PENDING_PARAMS ++ formatValidationErrors params))
        g
  end.

Definition run_sync (g : Gateway) (c : SyncCall) : Gateway :=
  match c with
  | SyncResolve params => handle_resolve params g
  | SyncPending params => handle_pending params g
  end.

(** [context.broadcast(event, payload)]: the event goes out, then the
    subscribers that react synchronously have run. *)
Definition broadcast (reaction : Reaction) (ev : BroadcastEvent)
    (g : Gateway) : Gateway :=
  foldl run_sync (emit ev g) (reaction ev).

(** [params.id] is supplied and already pending. *)
Definition already_pending (params : RequestParams) (w : World) : bool :=
  match p_id params with
  | Val id => bool_decide (is_Some (getSnapshot id w))
  | _ => false
  end.

(** Modelled from the spec: the handler of ["exec.approval.request"],
    missing like the others.  If [params.id] is supplied and already
    pending it responds with the failure "approval id already pending"
    and does nothing else.  Otherwise it creates the record, registers
    it with [waitForDecision], emits the "requested" broadcast with the
    pending snapshot of the new record and suspends on the promise;
    once resumed it responds [{id, decision}].  The registration
    precedes the broadcast and the suspension follows it: the test
    "accepts resolve during broadcast" resolves the id from inside the
    broadcast and expects that to succeed. *)
Definition handle_request (params : RequestParams) (reaction : Reaction)
    (g : Gateway) : Gateway :=
  let '(call, g) := enter g in
  if already_pending params (world g)
  then respond call (Failure ALREADY_PENDING) g
  else
    let timeoutMs :=
      match p_timeoutMs params with
      | Some ms => ms
      | None => DEFAULT_TIMEOUT_MS
      end in
    let '(record, w1) :=
      create (p_request params) timeoutMs (p_id params) (world g) in
    let '(p, w2) := waitForDecision record timeoutMs w1 in
    let payload :=
      pending_item (Date_now w2)
        {| e_record := record; e_resolve := p;
           e_timer := length (timers w1) |} in
    let g := broadcast reaction (Requested payload) (with_world w2 g) in
    with_awaiting (awaiting g ++ [(p, (call, r_id record))]) g.

(** What the event loop runs, one task at a time: an incoming message
    for one of the three methods, a timer that is due, or nothing but
    the passing of time. *)
Inductive Step : Type :=
| CallRequest (params : RequestParams) (reaction : Reaction)
| CallResolve (params : ResolveParams)
| CallPending (params : PendingParams)
| TimerFires (handle : nat)
| TimePasses (dt : N).

Definition task (st : Step) (g : Gateway) : Gateway :=
  match st with
  | CallRequest params reaction => handle_request params reaction g
  | CallResolve params => handle_resolve params g
  | CallPending params => handle_pending params g
  | TimerFires handle => with_world (exec_op (OpFire handle) (world g)) g
  | TimePasses dt => with_world (exec_op (OpTick dt) (world g)) g
  end.

(** A task, then the microtasks it scheduled. *)
Definition step (st : Step) (g : Gateway) : Gateway :=
  run_microtasks (task st g).

Definition run (steps : list Step) (g : Gateway) : Gateway :=
  foldl (fun g st => step st g) g steps.
End Handlers.

(** How often the [respond] callback of [call] has been called. *)
Definition is_response_to (call : nat) (e : Event) : bool :=
  match e with
  | Respond c _ => bool_decide (c = call)
  | Broadcast _ => false
  end.

Definition times_responded (call : nat) (g : Gateway) : nat :=
  length (filter (fun e => is_response_to call e = true) (trace g)).

(** The "requested" broadcast of [id] is among the events [l]. *)
Definition requested_in (id : jsstring) (l : list Event) : Prop :=
  exists payload, Broadcast (Requested payload) ∈ l /\ i_id payload = id.

(** [needle] occurs in [s]. *)
Definition contains (needle s : string) : Prop :=
  exists pre post, s = (pre ++ needle ++ post)%string.

(** Every "resolved" broadcast among [l] has the "requested" broadcast of
    its id before it. *)
Definition order_ok (l : list Event) : Prop :=
  forall pre post id decision resolvedBy,
    l = pre ++ Broadcast (Resolved id decision resolvedBy) :: post ->
    requested_in id pre.

(** The broadcasts observed so far. *)
Definition broadcasts (g : Gateway) : list BroadcastEvent :=
  omap (fun e => match e with Broadcast ev => Some ev | _ => None end)
    (trace g).

(** Every pending id has had its "requested" broadcast, and every
    "resolved" broadcast comes after the "requested" one of its id. *)
Record trace_ok (g : Gateway) : Prop := {
  tok_pending : forall id e,
    Map_get id (pending (world g)) = Some e -> requested_in id (trace g);
  tok_order : order_ok (trace g);
}.

(** The calls that suspended handlers will answer. *)
Definition caller_of (a : nat * (nat * jsstring)) : nat := a.2.1.

Definition callers (g : Gateway) : list nat := caller_of <$> awaiting g.

(** No call is answered twice: a suspended handler has not answered yet,
    a call that has not been made has no answer, and no two suspended
    handlers answer the same call. *)
Record accounts_ok (g : Gateway) : Prop := {
  aok_waiting : forall call,
    call ∈ callers g -> (call < calls g)%nat /\ times_responded call g = 0%nat;
  aok_future : forall call,
    (calls g <= call)%nat -> times_responded call g = 0%nat;
  aok_distinct : NoDup (callers g);
  aok_once : forall call, (times_responded call g <= 1)%nat;
}.

(** While a task runs: the runtime invariant holds, the promises awaited
    exist, and every pending entry has the handler that registered it
    suspended on its promise. *)
Record busy_ok (g : Gateway) : Prop := {
  bok_world : world_ok (world g);
  bok_fresh : forall p k,
    (p, k) ∈ awaiting g -> (p < length (promises (world g)))%nat;
  bok_waiters : forall id e,
    Map_get id (pending (world g)) = Some e ->
    exists call, awaiter_of (e_resolve e) (awaiting g) = Some (call, id);
}.

(** Between two tasks no microtask is left. *)
Definition gateway_ok (g : Gateway) : Prop :=
  busy_ok g /\ microtasks (world g) = [].

(** The pending map only loses entries and no promise is created. *)
Definition shrinks (w w' : World) : Prop :=
  (forall id e, Map_get id (pending w') = Some e ->
                Map_get id (pending w) = Some e) /\
  length (promises w') = length (promises w).

(** What handlers called synchronously, one after the other, can have
    done to the gateway: nobody new is suspended, later calls were
    answered, entries were resolved, and the invariants are kept. *)
Record sync_effect (g g' : Gateway) : Prop := {
  se_awaiting : awaiting g' = awaiting g;
  se_calls : (calls g <= calls g')%nat;
  se_shrinks : shrinks (world g) (world g');
  se_world : world_ok (world g) -> world_ok (world g');
  se_ops : exists ops, world g' = exec_ops ops (world g);
  se_responded : forall call,
    (call < calls g)%nat -> times_responded call g' = times_responded call g;
  se_accounts : accounts_ok g -> accounts_ok g';
  se_trace : trace_ok g -> trace_ok g';
  se_grows : exists evs, trace g' = trace g ++ evs;
}.

(** A subscriber that resolves a request as soon as it is announced. *)
Definition resolve_at_once (decision : ExecApprovalDecision)
    (resolvedBy : Nullable jsstring) : Reaction :=
  fun ev =>
    match ev with
    | Requested payload =>
        [SyncResolve {| rp_id := i_id payload; rp_decision := decision;
                        rp_resolvedBy := resolvedBy |}]
    | Resolved _ _ _ => []
    end.

(** Subscribers that do not call back. *)
Definition quiet : Reaction := fun _ => [].

(* ===================================================================== *)
(** ** Sample values *)
(* ===================================================================== *)

Definition sample_request : ExecApprovalRequestPayload :=
  {| command := str "echo ok"; cwd := Val (str "/tmp");
     host := Val (str " node "); security := Undefined; ask := Null;
     agentId := Val (str "  "); resolvedPath := Null;
     sessionKey := Val [] |}.

Definition sample_uuids (n : nat) : jsstring :=
  str "uuid-" ++ [(48 + N.of_nat n)%N].

Definition sample_world : World := initial_world 1000 sample_uuids.

(** A record created under a caller-supplied id ... *)
Definition sample_record : ExecApprovalRecord :=
  fst (create sample_request 2000 (Val (str " dup-1 ")) sample_world).

(** ... and the store once a caller waits for its decision. *)
Definition sample_waiting : World :=
  snd (waitForDecision sample_record 2000 sample_world).

Definition sample_params : RequestParams :=
  {| p_id := Val (str "dup-1"); p_request := sample_request;
     p_timeoutMs := Some 2000 |}.

Definition sample_gateway : Gateway := initial_gateway 1000 sample_uuids.

Definition no_errors (params : PendingParams) : string := "".

(** The gateway while the request of [sample_params] is suspended. *)
Definition sample_suspended : Gateway :=
  step lex_compare 120000 "unknown approval id" no_errors
    (CallRequest sample_params quiet) sample_gateway.

(** Two records created at the same instant, registered in one order and,
    for comparison, held by the map in the other order. *)
Definition sample_record_a : ExecApprovalRecord :=
  fst (create sample_request 2000 (Val (str "a")) sample_world).

Definition sample_record_b : ExecApprovalRecord :=
  fst (create sample_request 500 (Val (str "b")) sample_world).

Definition sample_two : World :=
  exec_ops [OpWaitForDecision sample_record_b 500;
            OpWaitForDecision sample_record_a 2000] sample_world.

Definition sample_two_reversed : World :=
  with_pending (reverse (pending sample_two)) sample_two.

(* ===================================================================== *)
(** * Configuration repair: paths into a configuration *)
(* ===================================================================== *)

From Stdlib Require Import DecimalString.

(** The functions of [doctor-config-flow.ts] that walk and edit a
    configuration.  A configuration is data read from a JSON5 file: a
    tree of plain objects and arrays in which no object sits at two
    places.  The fields of an object are its own enumerable properties in
    the order of [Object.entries]. *)
#[local] Unset Elimination Schemes.
Inductive Value : Type :=
| VUndefined
| VNull
| VBoolean (b : bool)
| VNumber (n : JsNumber)
| VString (s : jsstring)
| VArray (items : list Value)
| VObject (fields : list (jsstring * Value)).
#[local] Set Elimination Schemes.

(** [JsonPathPart = string | number]; the numbers of a path are array
    indices, integers as [Array.prototype.entries] and the schema's issue
    paths give them. *)
Inductive JsonPathPart : Type :=
| PKey (key : jsstring)
| PIndex (index : Z).

#[global] Instance JsonPathPart_eq_dec : EqDecision JsonPathPart.
Proof. solve_decision. Defined.

(** [PropertyKey = string | number | symbol] *)
Inductive PropertyKey : Type :=
| KeyString (key : jsstring)
| KeyNumber (index : Z)
| KeySymbol (description : jsstring).

(** What [part in record] and [record[part]] find: a property of the
    object itself, or a member it inherits from [Object.prototype], which
    is no part of the configuration. *)
Inductive Member : Type :=
| Own (v : Value)
| Inherited
| Missing.

Record EnvTemplateEntry : Type := {
  entry_path : list JsonPathPart;
  entry_template : jsstring;
  entry_resolved : jsstring
}.

(** A [ZodIssue]; [issue_keys] is read for issues of code
    ["unrecognized_keys"] only. *)
Record ZodIssue : Type := {
  issue_code : jsstring;
  issue_path : list PropertyKey;
  issue_keys : list PropertyKey
}.

(** What a call of [setValueAtPath] leaves: the boolean it returns, the
    configuration as it is afterwards, and the member of
    [Object.prototype] it has assigned to, if it has. *)
Record SetResult : Type := {
  set_returned : bool;
  set_config : Value;
  set_prototype : option jsstring
}.

(** [return false]: nothing was assigned. *)
Definition not_set (root : Value) : SetResult :=
  {| set_returned := false; set_config := root; set_prototype := None |}.

(** [return true] after an assignment that leaves the configuration as
    [root']. *)
Definition set_own (root' : Value) : SetResult :=
  {| set_returned := true; set_config := root'; set_prototype := None |}.

(** The loop of [setValueAtPath] coming back from a step into a child:
    what was assigned there sits in the parent. *)
Definition set_inside (root : Value) (rebuild : Value -> Value)
    (inner : SetResult) : SetResult :=
  if set_returned inner then
    {| set_returned := true; set_config := rebuild (set_config inner);
       set_prototype := set_prototype inner |}
  else not_set root.

Definition isRecord (value : Value) : bool :=
  match value with
  | VObject _ => true
  | _ => false
  end.

Definition normalizeIssuePath (path : list PropertyKey) : list JsonPathPart :=
  omap (fun part =>
          match part with
          | KeyString key => Some (PKey key)
          | KeyNumber index => Some (PIndex index)
          | KeySymbol _ => None
          end) path.

Definition isUnrecognizedKeysIssue (issue : ZodIssue) : bool :=
  bool_decide (issue_code issue = str "unrecognized_keys").

(** [structuredClone] of a tree of data is a tree with the same content. *)
Definition structuredClone (value : Value) : Value := value.

(** [part < 0 || part >= current.length] *)
Definition out_of_range (part : Z) (items : list Value) : bool :=
  (part <? 0) || (Z.of_nat (length items) <=? part).

(** [current[part]] on an array; reading past the end gives [undefined]. *)
Definition item_at (part : Z) (items : list Value) : Value :=
  nth (Z.to_nat part) items VUndefined.

(** No object has two properties of one name. *)
Fixpoint keys_distinct (value : Value) : bool :=
  match value with
  | VArray items => forallb keys_distinct items
  | VObject fields =>
      bool_decide (NoDup (fst <$> fields)) &&
      forallb (fun field => keys_distinct field.2) fields
  | _ => true
  end.

(** [pruned v' v]: [v'] is [v] after properties were deleted from objects
    in it: arrays have the items they had, pruned, and every property an
    object has is one it had, pruned. *)
#[local] Unset Elimination Schemes.
Inductive pruned : Value -> Value -> Prop :=
| pruned_same v : pruned v v
| pruned_array items' items :
    Forall2 pruned items' items -> pruned (VArray items') (VArray items)
| pruned_object fields' fields :
    (forall key child',
       Map_get key fields' = Some child' ->
       exists child, Map_get key fields = Some child /\ pruned child' child) ->
    pruned (VObject fields') (VObject fields).
#[local] Set Elimination Schemes.

Section ConfigPaths.

(** The names [Object.prototype] has, which [in] finds on every plain
    object. *)
Variable inherited : jsstring -> bool.

(** How a template literal renders a number. *)
Variable Number_toString : Z -> jsstring.

(** [resolveConfigEnvVars(value, env)] on a string, for the environment at
    hand; [None] when it throws. *)
Variable resolveConfigEnvVars : jsstring -> option jsstring.

(** [OpenClawSchema.safeParse]: [None] on success, the issues otherwise. *)
Variable safeParse : Value -> option (list ZodIssue).

Definition member (fields : list (jsstring * Value)) (part : jsstring) : Member :=
  match Map_get part fields with
  | Some v => Own v
  | None => if inherited part then Inherited else Missing
  end.

Definition formatPath_part (out : jsstring) (part : JsonPathPart) : jsstring :=
  match part with
  | PIndex index => out ++ str "[" ++ Number_toString index ++ str "]"
  | PKey key =>
      match out with
      | [] => key
      | _ => out ++ str "." ++ key
      end
  end.

Definition formatPath (parts : list JsonPathPart) : jsstring :=
  match parts with
  | [] => str "<root>"
  | _ =>
      match foldl formatPath_part [] parts with
      | [] => str "<root>"
      | out => out
      end
  end.

(** What a part adds behind a path that has been rendered as a non-empty
    string so far. *)
Definition formatPath_suffix (part : JsonPathPart) : jsstring :=
  match part with
  | PKey key => str "." ++ key
  | PIndex index => str "[" ++ Number_toString index ++ str "]"
  end.

(** The two walks stop with [None] where they would step onto a member
    inherited from [Object.prototype]: what they find there is not
    configuration data. *)
Fixpoint resolvePathTarget (root : Value) (path : list JsonPathPart)
    : option Value :=
  match path with
  | [] => Some root
  | PIndex part :: rest =>
      match root with
      | VArray items =>
          if out_of_range part items then Some VNull
          else resolvePathTarget (item_at part items) rest
      | _ => Some VNull
      end
  | PKey part :: rest =>
      match root with
      | VObject fields =>
          match member fields part with
          | Own v => resolvePathTarget v rest
          | Inherited => None
          | Missing => Some VNull
          end
      | _ => Some VNull
      end
  end.

Fixpoint getValueAtPath (root : Value) (path : list JsonPathPart)
    : option Value :=
  match path with
  | [] => Some root
  | PIndex part :: rest =>
      match root with
      | VArray items =>
          if out_of_range part items then Some VUndefined
          else getValueAtPath (item_at part items) rest
      | _ => Some VUndefined
      end
  | PKey part :: rest =>
      if isRecord root then
        match root with
        | VObject fields =>
            match member fields part with
            | Own v => getValueAtPath v rest
            | Inherited => None
            | Missing => Some VUndefined
            end
        | _ => Some VUndefined
        end
      else Some VUndefined
  end.

(** [setValueAtPath] changes the configuration in place; here it returns
    the configuration as it is afterwards with its boolean.  Unlike the
    walks it is followed onto inherited members, with [Object.prototype]
    as ECMAScript has it: [__proto__] is an accessor, which read on a
    plain object gives [Object.prototype], read on [Object.prototype]
    gives [null], and assigned a string changes nothing; every other
    member is a method, a function, which is no record and no array, and
    which, assigned to on a plain object, becomes a property of that
    object, the last of its properties. *)

(** The rest of the loop once [current] is [Object.prototype]: a last
    key that names a method is assigned to there, and the configuration
    itself stays as it is; a longer path ends at the function or the
    [null] it finds next, an index at once. *)
Definition setValueAtPath_prototype (root : Value) (rest : list JsonPathPart)
    : SetResult :=
  match rest with
  | [PKey leaf] =>
      if inherited leaf then
        if decide (leaf = str "__proto__") then set_own root
        else {| set_returned := true; set_config := root;
                set_prototype := Some leaf |}
      else not_set root
  | _ => not_set root
  end.

Fixpoint setValueAtPath (root : Value) (path : list JsonPathPart)
    (value : jsstring) : SetResult :=
  match path with
  | [] => not_set root
  | part :: rest =>
      match rest with
      | [] =>
          match part, root with
          | PIndex leaf, VArray items =>
              if out_of_range leaf items then not_set root
              else set_own (VArray (<[Z.to_nat leaf := VString value]> items))
          | PKey leaf, VObject fields =>
              match member fields leaf with
              | Own _ => set_own (VObject (Map_set leaf (VString value) fields))
              | Inherited =>
                  if decide (leaf = str "__proto__") then set_own root
                  else set_own (VObject (Map_set leaf (VString value) fields))
              | Missing => not_set root
              end
          | _, _ => not_set root
          end
      | _ :: _ =>
          match part, root with
          | PIndex part, VArray items =>
              if out_of_range part items then not_set root
              else
                set_inside root
                  (fun item => VArray (<[Z.to_nat part := item]> items))
                  (setValueAtPath (item_at part items) rest value)
          | PKey part, VObject fields =>
              match member fields part with
              | Own v =>
                  set_inside root
                    (fun v' => VObject (Map_set part v' fields))
                    (setValueAtPath v rest value)
              | Inherited =>
                  if decide (part = str "__proto__")
                  then setValueAtPath_prototype root rest
                  else not_set root
              | Missing => not_set root
              end
          | _, _ => not_set root
          end
      end
  end.

Fixpoint collectEnvTemplateEntries (value : Value) (path : list JsonPathPart)
    (out : list EnvTemplateEntry) : list EnvTemplateEntry :=
  match value with
  | VString template =>
      match resolveConfigEnvVars template with
      | Some resolved =>
          if decide (resolved = template) then out
          else out ++ [{| entry_path := path; entry_template := template;
                          entry_resolved := resolved |}]
      | None => out
      end
  | VArray items =>
      (fix each (items : list Value) (index : Z) out :=
         match items with
         | [] => out
         | item :: items' =>
             each items' (index + 1)
               (collectEnvTemplateEntries item (path ++ [PIndex index]) out)
         end) items 0 out
  | VObject fields =>
      (fix each (fields : list (jsstring * Value)) out :=
         match fields with
         | [] => out
         | (key, child) :: fields' =>
             each fields'
               (collectEnvTemplateEntries child (path ++ [PKey key]) out)
         end) fields out
  | _ => out
  end.

(** The two loops of [collectEnvTemplateEntries] on their own. *)
Fixpoint collect_items (items : list Value) (path : list JsonPathPart)
    (index : Z) (out : list EnvTemplateEntry) : list EnvTemplateEntry :=
  match items with
  | [] => out
  | item :: items' =>
      collect_items items' path (index + 1)
        (collectEnvTemplateEntries item (path ++ [PIndex index]) out)
  end.

Fixpoint collect_fields (fields : list (jsstring * Value))
    (path : list JsonPathPart) (out : list EnvTemplateEntry)
    : list EnvTemplateEntry :=
  match fields with
  | [] => out
  | (key, child) :: fields' =>
      collect_fields fields' path
        (collectEnvTemplateEntries child (path ++ [PKey key]) out)
  end.

(** A raw configuration after substitution: every string in it replaced
    by what [resolveConfigEnvVars] makes of it (and left as it is where
    that throws). *)
Fixpoint substituted (raw : Value) : Value :=
  match raw with
  | VString template =>
      VString (default template (resolveConfigEnvVars template))
  | VArray items => VArray (substituted <$> items)
  | VObject fields =>
      VObject ((fun field => (field.1, substituted field.2)) <$> fields)
  | _ => raw
  end.

(** [C] holds a value at [p]: the walk to [p ++ q] in [C v] is the walk
    to [q] in [v], and writing there is writing in [v]. *)
Definition hole_at (C : Value -> Value) (p : list JsonPathPart) : Prop :=
  (forall v q, getValueAtPath (C v) (p ++ q) = getValueAtPath v q) /\
  (forall v q s, q <> [] ->
     setValueAtPath (C v) (p ++ q) s =
     set_inside (C v) C (setValueAtPath v q s)) /\
  (p <> [] ->
   forall v s, setValueAtPath (C v) p s = set_own (C (VString s))).

(** One round of the loop of [restoreConfigEnvTemplates]. *)
Definition restore_entry (next : Value) (entry : EnvTemplateEntry)
    : option Value :=
  match getValueAtPath next (entry_path entry) with
  | Some (VString s) =>
      if decide (s = entry_resolved entry) then
        Some (set_config
                (setValueAtPath next (entry_path entry)
                   (entry_template entry)))
      else Some next
  | Some _ => Some next
  | None => None
  end.

Fixpoint restore_entries (next : Value) (entries : list EnvTemplateEntry)
    : option Value :=
  match entries with
  | [] => Some next
  | entry :: entries' =>
      match restore_entry next entry with
      | Some next' => restore_entries next' entries'
      | None => None
      end
  end.

Definition restoreConfigEnvTemplates (rawConfig config : Value)
    : option Value :=
  match collectEnvTemplateEntries rawConfig [] [] with
  | [] => Some config
  | templateEntries => restore_entries (structuredClone config) templateEntries
  end.

(** The object [resolvePathTarget] returns is the one that sits in the
    configuration at that path: changing it changes the configuration
    there.  [replace_at root path v] is [root] with [v] at [path]. *)
Fixpoint replace_at (root : Value) (path : list JsonPathPart) (v : Value)
    : Value :=
  match path with
  | [] => v
  | PIndex part :: rest =>
      match root with
      | VArray items =>
          if out_of_range part items then root
          else VArray (<[Z.to_nat part :=
                           replace_at (item_at part items) rest v]> items)
      | _ => root
      end
  | PKey part :: rest =>
      match root with
      | VObject fields =>
          match Map_get part fields with
          | Some child => VObject (Map_set part (replace_at child rest v) fields)
          | None => root
          end
      | _ => root
      end
  end.

(** The loop over [issue.keys] in [stripUnknownConfigKeys].  [delete] of
    a name the object only inherits removes nothing, and is reported all
    the same. *)
Fixpoint delete_keys (path : list JsonPathPart) (keys : list PropertyKey)
    (record : list (jsstring * Value)) (removed : list jsstring)
    : list (jsstring * Value) * list jsstring :=
  match keys with
  | [] => (record, removed)
  | KeyString key :: keys' =>
      match member record key with
      | Missing => delete_keys path keys' record removed
      | _ =>
          delete_keys path keys' (Map_delete key record)
            (removed ++ [formatPath (path ++ [PKey key])])
      end
  | _ :: keys' => delete_keys path keys' record removed
  end.

(** One round of the loop over the issues. *)
Definition strip_issue (state : Value * list jsstring) (issue : ZodIssue)
    : option (Value * list jsstring) :=
  let '(next, removed) := state in
  if isUnrecognizedKeysIssue issue then
    let path := normalizeIssuePath (issue_path issue) in
    match resolvePathTarget next path with
    | Some (VObject record) =>
        let '(record', removed') :=
          delete_keys path (issue_keys issue) record removed in
        Some (replace_at next path (VObject record'), removed')
    | Some _ => Some state
    | None => None
    end
  else Some state.

Fixpoint strip_issues (state : Value * list jsstring) (issues : list ZodIssue)
    : option (Value * list jsstring) :=
  match issues with
  | [] => Some state
  | issue :: issues' =>
      match strip_issue state issue with
      | Some state' => strip_issues state' issues'
      | None => None
      end
  end.

Definition stripUnknownConfigKeys (config : Value)
    : option (Value * list jsstring) :=
  match safeParse config with
  | None => Some (config, [])
  | Some issues => strip_issues (structuredClone config, []) issues
  end.

End ConfigPaths.

(** The own properties of [Object.prototype] in ECMAScript. *)
Definition Object_prototype : list jsstring :=
  str <$> ["constructor"; "hasOwnProperty"; "isPrototypeOf";
           "propertyIsEnumerable"; "toLocaleString"; "toString"; "valueOf";
           "__proto__"; "__defineGetter__"; "__defineSetter__";
           "__lookupGetter__"; "__lookupSetter__"]%string.

Definition inherited_names (part : jsstring) : bool :=
  bool_decide (part ∈ Object_prototype).

(** How a template literal renders an integer below 10^21 in size (the
    larger ones get an exponent). *)
Definition Number_toString_integer (index : Z) : jsstring :=
  str (NilZero.string_of_int (Z.to_int index)).

(** Two paths part ways: they agree on a common start and then go on with
    different parts. *)
Definition diverge (p q : list JsonPathPart) : Prop :=
  exists common a b p' q',
    p = common ++ a :: p' /\ q = common ++ b :: q' /\ a <> b.

(** A small raw configuration with two templates, an environment for
    it, and the path of each template. *)
Definition sample_raw_config : Value :=
  VObject [
    (str "gateway", VObject [(str "port", VNumber (Num 18789));
                             (str "token", VString (str "${TOKEN}"))]);
    (str "agents", VArray [VObject [(str "id", VString (str "main"))];
                           VObject [(str "id", VString (str "ops"));
                                    (str "workspace", VString (str "${HOME}/ops"))]])
  ].

Definition sample_resolveConfigEnvVars (value : jsstring) : option jsstring :=
  if decide (value = str "${TOKEN}") then Some (str "s3cret")
  else if decide (value = str "${HOME}/ops") then Some (str "/srv/ops")
  else if decide (value = str "${MISSING}") then None
  else Some value.

Definition sample_token_path : list JsonPathPart :=
  [PKey (str "gateway"); PKey (str "token")].

Definition sample_workspace_path : list JsonPathPart :=
  [PKey (str "agents"); PIndex 1; PKey (str "workspace")].

Definition sample_workspace_entry : EnvTemplateEntry :=
  {| entry_path := sample_workspace_path;
     entry_template := str "${HOME}/ops"; entry_resolved := str "/srv/ops" |}.

Definition sample_token_entry : EnvTemplateEntry :=
  {| entry_path := sample_token_path; entry_template := str "${TOKEN}";
     entry_resolved := str "s3cret" |}.

(** The configuration substitution makes of it, and the same after the
    token was changed. *)
Definition sample_config : Value :=
  substituted sample_resolveConfigEnvVars sample_raw_config.

Definition sample_config_edited : Value :=
  replace_at sample_config sample_token_path (VString (str "rotated")).


(** A configuration with a key the schema does not know, and a parser
    that reports just that key. *)
Definition sample_config_unknown : Value :=
  VObject [
    (str "gateway", VObject [(str "port", VNumber (Num 18789));
                             (str "tokn", VString (str "s3cret"))]);
    (str "agents", VArray [])
  ].

Definition sample_issue : ZodIssue :=
  {| issue_code := str "unrecognized_keys";
     issue_path := [KeyString (str "gateway")];
     issue_keys := [KeyString (str "tokn")] |}.

Definition sample_safeParse (config : Value) : option (list ZodIssue) :=
  match resolvePathTarget inherited_names config [PKey (str "gateway")] with
  | Some (VObject fields) =>
      match Map_get (str "tokn") fields with
      | Some _ => Some [sample_issue]
      | None => None
      end
  | _ => None
  end.
(* ===================================================================== *)
(** * Properties *)
(* ===================================================================== *)

(** ** The map *)

Section JsMapFacts.
Context {V : Type}.
Implicit Types (m : JsMap V) (k : jsstring) (v : V).

Lemma Map_get_set_eq k v m : Map_get k (Map_set k v m) = Some v.
Proof.
  induction m as [|[k' v'] m IH]; simpl.
  - by rewrite decide_True.
  - destruct (decide (k' = k)) as [->|Hne]; simpl.
    + by rewrite decide_True.
    + by rewrite decide_False.
Qed.

Lemma Map_get_set_ne k k' v m :
  k <> k' -> Map_get k' (Map_set k v m) = Map_get k' m.
Proof.
  intros Hne. induction m as [|[k0 v0] m IH]; simpl.
  - by rewrite decide_False.
  - destruct (decide (k0 = k)) as [->|Hne0]; simpl.
    + by rewrite !decide_False.
    + destruct (decide (k0 = k')); [done | apply IH].
Qed.

Lemma Map_get_delete_eq k m : Map_get k (Map_delete k m) = None.
Proof.
  induction m as [|[k' v'] m IH]; simpl; [done|].
  destruct (decide (k' = k)); simpl; [done|].
  by rewrite decide_False.
Qed.

Lemma Map_get_delete_ne k k' m :
  k <> k' -> Map_get k' (Map_delete k m) = Map_get k' m.
Proof.
  intros Hne. induction m as [|[k0 v0] m IH]; simpl; [done|].
  destruct (decide (k0 = k)) as [->|Hne0]; simpl.
  - by rewrite decide_False.
  - destruct (decide (k0 = k')); [done | apply IH].
Qed.

Lemma Map_get_delete_Some k k' v m :
  Map_get k' (Map_delete k m) = Some v -> k <> k' /\ Map_get k' m = Some v.
Proof.
  intros H. destruct (decide (k = k')) as [->|Hne].
  - by rewrite Map_get_delete_eq in H.
  - by rewrite Map_get_delete_ne in H.
Qed.

Lemma Map_get_delete_None k k' m :
  Map_get k' m = None -> Map_get k' (Map_delete k m) = None.
Proof.
  intros H. destruct (decide (k = k')) as [->|Hne].
  - apply Map_get_delete_eq.
  - by rewrite Map_get_delete_ne.
Qed.

Lemma Map_set_size_present k v m :
  is_Some (Map_get k m) -> Map_size (Map_set k v m) = Map_size m.
Proof.
  unfold Map_size. induction m as [|[k' v'] m IH]; simpl.
  - intros [? ?]; discriminate.
  - destruct (decide (k' = k)); simpl; [done|]. intros H. by rewrite IH.
Qed.

Lemma Map_set_size_absent k v m :
  Map_get k m = None -> Map_size (Map_set k v m) = S (Map_size m).
Proof.
  unfold Map_size. induction m as [|[k' v'] m IH]; simpl; [done|].
  destruct (decide (k' = k)); simpl; [done|]. intros H. by rewrite IH.
Qed.

Lemma Map_get_elem_of k v m : Map_get k m = Some v -> (k, v) ∈ m.
Proof.
  induction m as [|[k' v'] m IH]; simpl; [done|].
  destruct (decide (k' = k)) as [->|Hne].
  - intros [= ->]. left.
  - intros H. right. by apply IH.
Qed.

Lemma Map_get_None_keys k m : Map_get k m = None <-> k ∉ Map_keys m.
Proof.
  unfold Map_keys. induction m as [|[k' v'] m IH]; simpl.
  - split; [intros _; apply not_elem_of_nil | done].
  - rewrite not_elem_of_cons, <- IH.
    destruct (decide (k' = k)) as [->|Hne]; split; try done.
    + by intros [? _].
    + intros [_ ?]; done.
Qed.

Lemma Map_elem_of_get k v m :
  NoDup (Map_keys m) -> (k, v) ∈ m -> Map_get k m = Some v.
Proof.
  unfold Map_keys. induction m as [|[k' v'] m IH]; simpl.
  - intros _ H. by apply elem_of_nil in H.
  - intros Hnd H. apply NoDup_cons in Hnd as [Hk' Hnd].
    apply elem_of_cons in H as [[= -> ->]|H].
    + by rewrite decide_True.
    + destruct (decide (k' = k)) as [->|Hne]; [|by apply IH].
      exfalso. apply Hk'. apply list_elem_of_fmap. by exists (k, v).
Qed.

Lemma Map_keys_delete k m : Map_keys (Map_delete k m) ⊆ Map_keys m.
Proof.
  unfold Map_keys. induction m as [|[k' v'] m IH]; simpl; [done|].
  destruct (decide (k' = k)); simpl.
  - intros x Hx. right. by apply IH.
  - intros x Hx. apply elem_of_cons in Hx as [->|Hx]; [left|right; by apply IH].
Qed.

Lemma Map_delete_NoDup k m :
  NoDup (Map_keys m) -> NoDup (Map_keys (Map_delete k m)).
Proof.
  unfold Map_keys. induction m as [|[k' v'] m IH]; simpl; [done|].
  intros Hnd. apply NoDup_cons in Hnd as [Hk' Hnd].
  destruct (decide (k' = k)); simpl; [by apply IH|].
  apply NoDup_cons. split; [|by apply IH].
  intros Hin. apply Hk'. by apply (Map_keys_delete k m).
Qed.

Lemma Map_set_NoDup k v m :
  NoDup (Map_keys m) -> NoDup (Map_keys (Map_set k v m)).
Proof.
  unfold Map_keys. induction m as [|[k' v'] m IH]; simpl.
  - intros _. apply NoDup_singleton.
  - intros Hnd. apply NoDup_cons in Hnd as [Hk' Hnd].
    destruct (decide (k' = k)) as [->|Hne]; simpl.
    + by apply NoDup_cons.
    + apply NoDup_cons. split; [|by apply IH].
      intros Hin. apply (Map_get_None_keys k' (Map_set k v m)) in Hin; [done|].
      rewrite Map_get_set_ne by done. by apply Map_get_None_keys.
Qed.
End JsMapFacts.

(** ** Strings *)

Lemma trimStart_blank s :
  forallb is_white_space s = true <-> trimStart s = [].
Proof.
  induction s as [|c s IH]; simpl; [done|].
  destruct (is_white_space c); simpl; [done|]. split; discriminate.
Qed.

Lemma trimStart_suffix s : exists pre,
  s = pre ++ trimStart s /\ forallb is_white_space pre = true.
Proof.
  induction s as [|c s [pre [Hs Hpre]]]; simpl.
  - by exists [].
  - destruct (is_white_space c) eqn:Hc.
    + exists (c :: pre). simpl. rewrite Hc, Hpre. split; [by f_equal | done].
    + by exists [].
Qed.

Lemma forallb_rev {A} (f : A -> bool) (l : list A) :
  forallb f (rev l) = forallb f l.
Proof.
  induction l as [|x l IH]; simpl; [done|].
  rewrite forallb_app, IH. simpl. rewrite andb_true_r. apply andb_comm.
Qed.

(** [trim] yields the empty string exactly on strings made of white space
    only (the empty string among them). *)
Lemma trim_blank s : trim s = [] <-> forallb is_white_space s = true.
Proof.
  unfold trim, trimEnd. split.
  - intros H. apply (f_equal (@rev _)) in H. rewrite rev_involutive in H.
    simpl in H. apply trimStart_blank in H. rewrite forallb_rev in H.
    destruct (trimStart_suffix s) as [pre [Hs Hpre]].
    rewrite Hs, forallb_app, Hpre, H. done.
  - intros H. apply trimStart_blank in H. rewrite H. done.
Qed.

(** What [trim] keeps starts and ends with a character that is not
    white space, and only white space was removed around it. *)
Lemma trim_decompose s : exists pre post,
  s = pre ++ trim s ++ post /\
  forallb is_white_space pre = true /\ forallb is_white_space post = true.
Proof.
  unfold trim, trimEnd.
  destruct (trimStart_suffix s) as [pre [Hs Hpre]].
  destruct (trimStart_suffix (rev (trimStart s))) as [post [Hr Hpost]].
  exists pre, (rev post). split; [|split].
  - rewrite Hs at 1. f_equal.
    apply (f_equal (@rev _)) in Hr. rewrite rev_involutive, rev_app_distr in Hr.
    done.
  - done.
  - by rewrite forallb_rev.
Qed.

Lemma normalizeOptionalString_None value :
  normalizeOptionalString value = None <->
  match value with
  | Val s => forallb is_white_space s = true
  | _ => True
  end.
Proof.
  destruct value as [| |s]; simpl; [done..|].
  rewrite <- trim_blank. destruct (trim s); split; done.
Qed.

Lemma normalizeOptionalString_Some value t :
  normalizeOptionalString value = Some t <->
  exists s, value = Val s /\ t = trim s /\ t <> [].
Proof.
  destruct value as [| |s]; simpl.
  - split; [done | intros (? & ? & _); done].
  - split; [done | intros (? & ? & _); done].
  - destruct (trim s) eqn:Ht.
    + split; [done|]. intros (s' & [= <-] & -> & Hne). by rewrite Ht in Hne.
    + split.
      * intros [= <-]. exists s. by rewrite Ht.
      * intros (s' & [= <-] & -> & _). by rewrite Ht.
Qed.

(** ** Sorting *)

Lemma StronglySorted_weaken {A} (R R' : A -> A -> Prop) l :
  (forall a b, R a b -> R' a b) -> StronglySorted R l -> StronglySorted R' l.
Proof.
  intros HR. induction 1 as [|x l Hl IH Hx]; constructor; [done|].
  eapply Forall_impl; [exact Hx | auto].
Qed.

Section ToSortedFacts.
Context {A : Type} (compare : A -> A -> Z).

(** [a] may stand before [b]. *)
Definition before (a b : A) : Prop := compare a b <= 0.

Lemma insert_by_perm x l : insert_by compare x l ≡ₚ x :: l.
Proof.
  induction l as [|y l IH]; simpl; [done|].
  destruct (0 <? compare x y); [|done].
  rewrite IH. apply Permutation_swap.
Qed.

Lemma toSorted_perm l : toSorted compare l ≡ₚ l.
Proof.
  induction l as [|x l IH]; simpl; [done|].
  by rewrite insert_by_perm, IH.
Qed.

Lemma toSorted_length l : length (toSorted compare l) = length l.
Proof. by rewrite toSorted_perm. Qed.

(** A consistent comparator: the two directions agree, and standing
    before is transitive. *)
Hypothesis compare_flip : forall a b, 0 < compare a b -> compare b a <= 0.
Hypothesis compare_trans : forall a b c,
  compare a b <= 0 -> compare b c <= 0 -> compare a c <= 0.

Lemma insert_by_sorted x l :
  StronglySorted before l -> StronglySorted before (insert_by compare x l).
Proof.
  induction 1 as [|y l Hl IH Hy]; simpl.
  - repeat constructor.
  - destruct (0 <? compare x y) eqn:Hc.
    + apply Z.ltb_lt in Hc. constructor; [done|].
      rewrite insert_by_perm. constructor; [by apply compare_flip | done].
    + apply Z.ltb_ge in Hc. constructor; [by constructor|].
      constructor; [done|].
      eapply Forall_impl; [exact Hy|]. intros z Hz.
      by apply compare_trans with y.
Qed.

Lemma toSorted_sorted l : StronglySorted before (toSorted compare l).
Proof.
  induction l as [|x l IH]; simpl; [constructor|].
  by apply insert_by_sorted.
Qed.
End ToSortedFacts.

(** The code-unit order is a consistent comparator. *)
Lemma lex_compare_flip a b : 0 < lex_compare a b -> lex_compare b a <= 0.
Proof.
  revert b. induction a as [|x a IH]; intros [|y b]; simpl; try lia.
  destruct (x <? y)%N eqn:Hxy, (y <? x)%N eqn:Hyx; try lia.
  apply IH.
Qed.

Lemma lex_compare_trans a b c :
  lex_compare a b <= 0 -> lex_compare b c <= 0 -> lex_compare a c <= 0.
Proof.
  revert b c. induction a as [|x a IH]; intros [|y b] [|z c]; simpl; try lia.
  destruct (x <? y)%N eqn:Hxy, (y <? x)%N eqn:Hyx,
    (y <? z)%N eqn:Hyz, (z <? y)%N eqn:Hzy,
    (x <? z)%N eqn:Hxz, (z <? x)%N eqn:Hzx;
    try lia;
    repeat match goal with
    | H : (_ <? _)%N = true |- _ => apply N.ltb_lt in H
    | H : (_ <? _)%N = false |- _ => apply N.ltb_ge in H
    end; try lia.
  apply IH.
Qed.

Lemma lex_compare_eq a b : lex_compare a b = 0 -> a = b.
Proof.
  revert b. induction a as [|x a IH]; intros [|y b]; simpl; try done.
  destruct (x <? y)%N eqn:Hxy, (y <? x)%N eqn:Hyx; try done.
  apply N.ltb_ge in Hxy, Hyx. intros H. f_equal; [lia | by apply IH].
Qed.

(** ** [listPending] *)

Lemma listing_now_finite q w :
  listing_now (Some (Num q)) w = Z.max 0 (Qfloor q).
Proof. reflexivity. Qed.

Lemma listing_now_integer n w :
  0 <= n -> listing_now (Some (Num (inject_Z n))) w = n.
Proof. intros H. rewrite listing_now_finite, Qfloor_Z. lia. Qed.

Lemma listing_now_not_finite nowMs w :
  nowMs = Some NaN \/ (exists b, nowMs = Some (Infinity b)) ->
  listing_now nowMs w = Date_now w.
Proof. by intros [->|[b ->]]. Qed.

Lemma listing_now_default w : listing_now None w = Z.max 0 (Date_now w).
Proof. unfold listing_now. cbv zeta. by rewrite Qfloor_Z. Qed.

Section ListingFacts.
Variable localeCompare : jsstring -> jsstring -> Z.

(** Creation time ascending, ties broken by [localeCompare] on the id. *)
Definition listed_before (a b : ExecApprovalPendingItem) : Prop :=
  i_createdAtMs a < i_createdAtMs b \/
  (i_createdAtMs a = i_createdAtMs b /\
   localeCompare (i_id a) (i_id b) <= 0).

Lemma compare_items_before a b :
  compare_items localeCompare a b <= 0 <-> listed_before a b.
Proof.
  unfold compare_items, listed_before.
  destruct (Z.eqb_spec (i_createdAtMs a - i_createdAtMs b) 0).
  - split; [intros; right; lia | intros [?|[_ ?]]; lia].
  - split; [intros; left; lia | intros [?|[? _]]; lia].
Qed.

Hypothesis localeCompare_flip : forall a b,
  0 < localeCompare a b -> localeCompare b a <= 0.
Hypothesis localeCompare_trans : forall a b c,
  localeCompare a b <= 0 -> localeCompare b c <= 0 ->
  localeCompare a c <= 0.

Lemma compare_items_flip a b :
  0 < compare_items localeCompare a b ->
  compare_items localeCompare b a <= 0.
Proof.
  unfold compare_items.
  destruct (Z.eqb_spec (i_createdAtMs a - i_createdAtMs b) 0),
    (Z.eqb_spec (i_createdAtMs b - i_createdAtMs a) 0); try lia.
  apply localeCompare_flip.
Qed.

Lemma compare_items_trans a b c :
  compare_items localeCompare a b <= 0 ->
  compare_items localeCompare b c <= 0 ->
  compare_items localeCompare a c <= 0.
Proof.
  rewrite !compare_items_before. unfold listed_before.
  intros [?|[? Hab]] [?|[? Hbc]]; [left; lia..|].
  right. split; [lia|]. by apply localeCompare_trans with (i_id b).
Qed.

Lemma listPending_sorted nowMs w :
  StronglySorted listed_before (listPending localeCompare nowMs w).
Proof.
  unfold listPending.
  eapply StronglySorted_weaken;
    [| apply (toSorted_sorted (compare_items localeCompare));
       [apply compare_items_flip | apply compare_items_trans]].
  intros a b. apply compare_items_before.
Qed.
End ListingFacts.

(** ** The runtime invariant *)

Lemma times_resumed_call p q v w :
  times_resumed p (call_resolve q v w) =
  (times_resumed p w + if decide (q = p) then 1 else 0)%nat.
Proof.
  unfold times_resumed, call_resolve. simpl.
  rewrite filter_app, length_app. f_equal.
  rewrite filter_cons, filter_nil. simpl. by destruct (decide (q = p)).
Qed.

Lemma call_resolve_pending p v w :
  promises w !! p = Some Pending ->
  promises (call_resolve p v w) = <[p := Fulfilled v]> (promises w) /\
  microtasks (call_resolve p v w) = microtasks w ++ [(p, v)].
Proof. intros H. unfold call_resolve. simpl. by rewrite H. Qed.

Lemma call_resolve_frame p v w :
  pending (call_resolve p v w) = pending w /\
  clock (call_resolve p v w) = clock w /\
  timers (call_resolve p v w) = timers w /\
  finalized (call_resolve p v w) = finalized w /\
  resumed (call_resolve p v w) = resumed w ++ [(p, v)].
Proof. done. Qed.

Lemma world_ok_initial now uuids : world_ok (initial_world now uuids).
Proof.
  split; simpl; try done; [apply NoDup_nil_2|].
  intros p v H. by apply elem_of_nil in H.
Qed.

Lemma create_frame request timeoutMs id w :
  let w' := snd (create request timeoutMs id w) in
  pending w' = pending w /\ clock w' = clock w /\ timers w' = timers w /\
  promises w' = promises w /\ resumed w' = resumed w /\
  microtasks w' = microtasks w /\ finalized w' = finalized w /\
  uuid_source w' = uuid_source w.
Proof.
  unfold create. destruct id as [| |s]; simpl; try done.
  destruct (decide _); simpl; done.
Qed.

Lemma world_ok_frame w w' :
  pending w' = pending w -> timers w' = timers w ->
  promises w' = promises w -> resumed w' = resumed w ->
  microtasks w' ⊆ microtasks w ->
  world_ok w -> world_ok w'.
Proof.
  intros Hp Ht Hq Hr Hm [H0 H1 H2 H3 H4 H5].
  split; unfold times_resumed; rewrite ?Hp, ?Ht, ?Hq, ?Hr; try done.
  intros p v Hin. by apply H5, Hm.
Qed.

Lemma world_ok_create request timeoutMs id w :
  world_ok w -> world_ok (snd (create request timeoutMs id w)).
Proof.
  destruct (create_frame request timeoutMs id w)
    as (Hp & _ & Ht & Hq & Hr & Hm & _).
  apply world_ok_frame; try done. by rewrite Hm.
Qed.

(** What [waitForDecision] does to the world, field by field. *)
Lemma waitForDecision_fields record timeoutMs w :
  let p := length (promises w) in
  let t := length (timers w) in
  let tm := {| t_due := clock w + timer_delay timeoutMs;
               t_record_id := r_id record; t_resolve := p |} in
  let w' := snd (waitForDecision record timeoutMs w) in
  fst (waitForDecision record timeoutMs w) = p /\
  pending w' =
    Map_set (r_id record)
      {| e_record := record; e_resolve := p; e_timer := t |} (pending w) /\
  timers w' = timers w ++ [Some tm] /\
  promises w' = promises w ++ [Pending] /\
  resumed w' = resumed w /\ clock w' = clock w /\
  microtasks w' = microtasks w /\ finalized w' = finalized w.
Proof. done. Qed.

Lemma world_ok_waitForDecision record timeoutMs w :
  world_ok w -> world_ok (snd (waitForDecision record timeoutMs w)).
Proof.
  intros [H0 H1 H2 H3 H4 H5].
  destruct (waitForDecision_fields record timeoutMs w)
    as (_ & Hp & Ht & Hq & Hr & _ & Hm & _).
  split; unfold times_resumed; rewrite ?Hp, ?Ht, ?Hq, ?Hr, ?Hm.
  - by apply Map_set_NoDup.
  - rewrite !length_app. simpl. lia.
  - intros t tm Hl.
    destruct (decide (t < length (timers w))%nat) as [Hlt|Hge].
    + rewrite lookup_app_l in Hl by done.
      destruct (H2 _ _ Hl) as [? Hpr]. split; [done|].
      rewrite lookup_app_l; [done|]. by apply lookup_lt_Some in Hpr.
    + assert (t = length (timers w)) as ->.
      { apply lookup_lt_Some in Hl. rewrite length_app in Hl. simpl in Hl. lia. }
      rewrite list_lookup_middle in Hl by done. injection Hl as <-. simpl.
      split; [lia|]. rewrite H1. by apply list_lookup_middle.
  - intros k e He.
    destruct (decide (r_id record = k)) as [<-|Hne].
    + rewrite Map_get_set_eq in He. injection He as <-. simpl.
      split; [lia|]. split; [done|]. eexists.
      split; [by apply list_lookup_middle | done].
    + rewrite Map_get_set_ne in He by done.
      destruct (H3 _ _ He) as (? & ? & tm & Htm & ?).
      split; [done|]. split; [done|]. exists tm. split; [|done].
      rewrite lookup_app_l; [done|]. by apply lookup_lt_Some in Htm.
  - intros p. unfold times_resumed in H4. rewrite H4.
    destruct (decide (p < length (promises w))%nat) as [Hlt|Hge].
    + by rewrite lookup_app_l.
    + rewrite (lookup_ge_None_2 (promises w)) by lia.
      destruct (decide (p = length (promises w))) as [->|Hne].
      * by rewrite list_lookup_middle.
      * rewrite lookup_ge_None_2; [done|]. rewrite length_app. simpl. lia.
  - intros p v Hin. apply H5 in Hin. rewrite lookup_app_l; [done|].
    by apply lookup_lt_Some in Hin.
Qed.

(** Settling the registration [t] whose entry, if any, sits under [id]:
    the common part of [resolve] and of the timer callback. *)
Lemma world_ok_settle t id v w w' :
  world_ok w ->
  (exists tm, timers w !! t = Some (Some tm) /\ t_record_id tm = id) ->
  pending w' = Map_delete id (pending w) ->
  timers w' = <[t := None]> (timers w) ->
  promises w' = <[t := Fulfilled v]> (promises w) ->
  resumed w' = resumed w ++ [(t, v)] ->
  microtasks w' = microtasks w ++ [(t, v)] ->
  world_ok w'.
Proof.
  intros [H0 H1 H2 H3 H4 H5] (tm & Htm & Hid) Hp Ht Hq Hr Hm.
  destruct (H2 _ _ Htm) as [_ Hpend].
  split; unfold times_resumed; rewrite ?Hp, ?Ht, ?Hq, ?Hr, ?Hm.
  - by apply Map_delete_NoDup.
  - by rewrite !length_insert.
  - intros t' tm' Hl.
    destruct (decide (t = t')) as [<-|Hne].
    + rewrite list_lookup_insert_eq in Hl; [done|]. by apply lookup_lt_Some in Htm.
    + rewrite list_lookup_insert_ne in Hl by done.
      rewrite list_lookup_insert_ne by done. by apply H2.
  - intros k e He. apply Map_get_delete_Some in He as [Hne He].
    destruct (H3 _ _ He) as (? & ? & tm' & Htm' & Hk).
    split; [done|]. split; [done|]. exists tm'. split; [|done].
    rewrite list_lookup_insert_ne; [done|].
    intros Heq. rewrite <- Heq, Htm in Htm'. congruence.
  - intros p. rewrite filter_app, length_app, filter_cons, filter_nil.
    unfold times_resumed in H4. rewrite H4. simpl.
    destruct (decide (t = p)) as [<-|Hne].
    + rewrite Hpend, list_lookup_insert_eq; [done|]. by apply lookup_lt_Some in Hpend.
    + rewrite list_lookup_insert_ne by done. simpl. lia.
  - intros p u Hin. apply elem_of_app in Hin as [Hin|Hin].
    + apply H5 in Hin. rewrite list_lookup_insert_ne; [done|].
      intros <-. congruence.
    + apply list_elem_of_singleton in Hin. injection Hin as -> ->.
      apply list_lookup_insert_eq. by apply lookup_lt_Some in Hpend.
Qed.

(** [resolve] on a pending id, field by field. *)
Lemma resolve_fields recordId decision resolvedBy w entry :
  world_ok w ->
  Map_get recordId (pending w) = Some entry ->
  let w' := snd (resolve recordId decision resolvedBy w) in
  fst (resolve recordId decision resolvedBy w) = true /\
  pending w' = Map_delete recordId (pending w) /\
  timers w' = <[e_timer entry := None]> (timers w) /\
  promises w' = <[e_resolve entry := Fulfilled (Some decision)]> (promises w) /\
  resumed w' = resumed w ++ [(e_resolve entry, Some decision)] /\
  microtasks w' = microtasks w ++ [(e_resolve entry, Some decision)] /\
  clock w' = clock w.
Proof.
  intros Hok He. unfold resolve. rewrite He. simpl.
  destruct (ok_pending w Hok _ _ He) as (Heq & _ & tm & Htm & _).
  destruct (ok_timers w Hok _ _ Htm) as [_ Hp]. rewrite <- Heq in Hp.
  by rewrite Hp.
Qed.

Lemma world_ok_resolve recordId decision resolvedBy w :
  world_ok w -> world_ok (snd (resolve recordId decision resolvedBy w)).
Proof.
  intros Hok. destruct (Map_get recordId (pending w)) as [entry|] eqn:He.
  - destruct (resolve_fields recordId decision resolvedBy w entry Hok He)
      as (_ & Hp & Ht & Hq & Hr & Hm & _).
    destruct (ok_pending w Hok _ _ He) as (Heq & _ & tm & Htm & Hid).
    rewrite Heq in Hq, Hr, Hm.
    eapply world_ok_settle; eauto.
  - unfold resolve. by rewrite He.
Qed.

(** An armed timer that is due fires; field by field. *)
Lemma fire_fields handle tm w :
  world_ok w ->
  timers w !! handle = Some (Some tm) ->
  t_due tm <= clock w ->
  exists w', fire handle w = Some w' /\
    pending w' = Map_delete (t_record_id tm) (pending w) /\
    timers w' = <[handle := None]> (timers w) /\
    promises w' = <[handle := Fulfilled None]> (promises w) /\
    resumed w' = resumed w ++ [(handle, None)] /\
    microtasks w' = microtasks w ++ [(handle, None)] /\
    clock w' = clock w.
Proof.
  intros Hok Htm Hdue. unfold fire. rewrite Htm.
  destruct (Z.leb_spec (t_due tm) (clock w)); [|lia].
  eexists. split; [done|].
  destruct (ok_timers w Hok _ _ Htm) as [Heq Hp].
  unfold timer_callback, call_resolve. simpl. by rewrite Heq, Hp.
Qed.

Lemma fire_Some handle w w' :
  fire handle w = Some w' ->
  exists tm, timers w !! handle = Some (Some tm) /\ t_due tm <= clock w.
Proof.
  unfold fire. destruct (timers w !! handle) as [[tm|]|]; try done.
  destruct (Z.leb_spec (t_due tm) (clock w)); [|done]. eauto.
Qed.

Lemma world_ok_fire handle w w' :
  world_ok w -> fire handle w = Some w' -> world_ok w'.
Proof.
  intros Hok Hf. destruct (fire_Some _ _ _ Hf) as (tm & Htm & Hdue).
  destruct (fire_fields handle tm w Hok Htm Hdue)
    as (w'' & Hf' & Hp & Ht & Hq & Hr & Hm & _).
  rewrite Hf in Hf'. injection Hf' as <-.
  eapply world_ok_settle; eauto.
Qed.

Lemma world_ok_exec_op op w : world_ok w -> world_ok (exec_op op w).
Proof.
  intros Hok. destruct op; simpl.
  - by apply world_ok_create.
  - by apply world_ok_waitForDecision.
  - by apply world_ok_resolve.
  - destruct (fire handle w) eqn:Hf; simpl; [by eapply world_ok_fire | done].
  - apply (world_ok_frame w); try done. simpl. apply list_subseteq_nil.
  - by apply (world_ok_frame w).
Qed.

Lemma exec_ops_app ops1 ops2 w :
  exec_ops (ops1 ++ ops2) w = exec_ops ops2 (exec_ops ops1 w).
Proof. apply foldl_app. Qed.

Lemma world_ok_exec_ops ops w : world_ok w -> world_ok (exec_ops ops w).
Proof.
  revert w. induction ops as [|op ops IH]; intros w Hok; [done|].
  simpl. by apply IH, world_ok_exec_op.
Qed.

(** Every world reached from a fresh store satisfies the invariant. *)
Lemma world_ok_reachable now uuids ops :
  world_ok (exec_ops ops (initial_world now uuids)).
Proof. apply world_ok_exec_ops, world_ok_initial. Qed.

(** *** What never comes back *)

(** Handles are never reused: a timer that fired or was cleared stays so. *)
Lemma timer_gone_exec_op t op w :
  timers w !! t = Some None -> timers (exec_op op w) !! t = Some None.
Proof.
  intros Ht. assert (t < length (timers w))%nat by by apply lookup_lt_Some in Ht.
  assert (forall t', <[t' := None]> (timers w) !! t = Some None) as Hins.
  { intros t'. destruct (decide (t' = t)) as [->|Hne].
    - by apply list_lookup_insert_eq.
    - by rewrite list_lookup_insert_ne. }
  destruct op; simpl; try done.
  - by destruct (create_frame request timeoutMs id w) as (_ & _ & -> & _).
  - by rewrite lookup_app_l.
  - unfold resolve. destruct (Map_get recordId (pending w)); simpl; [apply Hins | done].
  - unfold fire. destruct (timers w !! handle) as [[tm|]|]; simpl; try done.
    destruct (t_due tm <=? clock w); simpl; [apply Hins | done].
Qed.

Lemma timer_gone_exec_ops t ops w :
  timers w !! t = Some None -> timers (exec_ops ops w) !! t = Some None.
Proof.
  revert w. induction ops as [|op ops IH]; intros w Ht; [done|].
  simpl. by apply IH, timer_gone_exec_op.
Qed.

Lemma fire_gone t w : timers w !! t = Some None -> fire t w = None.
Proof. intros Ht. unfold fire. by rewrite Ht. Qed.

(** A settled promise keeps its value. *)
Lemma call_resolve_settled p v q u w :
  promises w !! p = Some (Fulfilled v) ->
  promises (call_resolve q u w) !! p = Some (Fulfilled v).
Proof.
  intros Hp. unfold call_resolve. simpl.
  destruct (promises w !! q) as [[|]|] eqn:Hq; try done.
  rewrite list_lookup_insert_ne; [done|]. intros ->. congruence.
Qed.

Lemma settled_exec_op p v op w :
  promises w !! p = Some (Fulfilled v) ->
  promises (exec_op op w) !! p = Some (Fulfilled v).
Proof.
  intros Hp. destruct op; simpl; try done.
  - by destruct (create_frame request timeoutMs id w) as (_ & _ & _ & -> & _).
  - rewrite lookup_app_l; [done|]. by apply lookup_lt_Some in Hp.
  - unfold resolve. destruct (Map_get recordId (pending w)); simpl; [|done].
    by apply call_resolve_settled.
  - unfold fire. destruct (timers w !! handle) as [[tm|]|]; simpl; try done.
    destruct (t_due tm <=? clock w); simpl; [|done].
    by apply call_resolve_settled.
Qed.

Lemma settled_exec_ops p v ops w :
  promises w !! p = Some (Fulfilled v) ->
  promises (exec_ops ops w) !! p = Some (Fulfilled v).
Proof.
  revert w. induction ops as [|op ops IH]; intros w Hp; [done|].
  simpl. by apply IH, settled_exec_op.
Qed.

(** An id enters the pending map through [waitForDecision] only. *)
Lemma not_pending_exec_op id op w :
  ~ registers id op ->
  Map_get id (pending w) = None -> Map_get id (pending (exec_op op w)) = None.
Proof.
  intros Hreg Hid. destruct op; simpl; try done.
  - by destruct (create_frame request timeoutMs id0 w) as (-> & _).
  - simpl in Hreg. by rewrite Map_get_set_ne.
  - unfold resolve. destruct (Map_get recordId (pending w)); simpl; [|done].
    by apply Map_get_delete_None.
  - unfold fire. destruct (timers w !! handle) as [[tm|]|]; simpl; try done.
    destruct (t_due tm <=? clock w); simpl; [|done].
    by apply Map_get_delete_None.
Qed.

Lemma not_pending_exec_ops id ops w :
  Forall (fun op => ~ registers id op) ops ->
  Map_get id (pending w) = None -> Map_get id (pending (exec_ops ops w)) = None.
Proof.
  intros Hops. revert w. induction Hops as [|op ops Hop _ IH]; intros w Hid; [done|].
  simpl. by apply IH, not_pending_exec_op.
Qed.

(** A promise is resumed at most once, whatever happens. *)
Lemma times_resumed_le_1 p w : world_ok w -> (times_resumed p w <= 1)%nat.
Proof.
  intros Hok. rewrite (ok_resumed w Hok).
  destruct (promises w !! p) as [[|]|]; lia.
Qed.

Lemma times_resumed_settled p v w :
  world_ok w -> promises w !! p = Some (Fulfilled v) -> times_resumed p w = 1%nat.
Proof. intros Hok Hp. by rewrite (ok_resumed w Hok), Hp. Qed.

(** *** Timers and entries in step

    When [waitForDecision] is only ever called for an id that is not
    pending, which is what the request handler checks, every armed timer
    belongs to the entry stored under its id. *)

Lemma timers_tracked_initial now uuids :
  timers_tracked (initial_world now uuids).
Proof. intros t tm Ht. done. Qed.

Lemma timers_tracked_settle t id w w' :
  world_ok w -> timers_tracked w ->
  pending w' = Map_delete id (pending w) ->
  timers w' = <[t := None]> (timers w) ->
  (forall tm, timers w !! t = Some (Some tm) -> t_record_id tm = id) ->
  (forall e, Map_get id (pending w) = Some e -> e_timer e = t) ->
  timers_tracked w'.
Proof.
  intros Hok Htr Hp Ht Hid He t' tm' Htm'. rewrite Ht in Htm'. rewrite Hp.
  destruct (decide (t = t')) as [<-|Hne].
  - destruct (timers w !! t) eqn:Hl.
    + rewrite list_lookup_insert_eq in Htm'; [done|]. by apply lookup_lt_Some in Hl.
    + rewrite list_insert_ge in Htm'; [congruence|]. by apply lookup_ge_None.
  - rewrite list_lookup_insert_ne in Htm' by done.
    destruct (Htr _ _ Htm') as (e & Hget & Het). exists e. split; [|done].
    rewrite Map_get_delete_ne; [done|]. intros Heq. rewrite <- Heq in Hget.
    apply He in Hget. congruence.
Qed.

Lemma timers_tracked_exec_op op w :
  world_ok w -> timers_tracked w -> guarded op w ->
  timers_tracked (exec_op op w).
Proof.
  intros Hok Htr Hg. destruct op; simpl.
  - destruct (create_frame request timeoutMs id w) as (Hp & _ & Ht & _).
    intros t tm. rewrite Hp, Ht. apply Htr.
  - simpl in Hg. intros t tm Htm. simpl in Htm |- *.
    destruct (decide (t < length (timers w))%nat) as [Hlt|Hge].
    + rewrite lookup_app_l in Htm by done.
      destruct (Htr _ _ Htm) as (e & Hget & Het). exists e. split; [|done].
      rewrite Map_get_set_ne; [done|]. intros Heq. congruence.
    + assert (t = length (timers w)) as ->.
      { apply lookup_lt_Some in Htm. rewrite length_app in Htm. simpl in Htm. lia. }
      rewrite list_lookup_middle in Htm by done. injection Htm as <-. simpl.
      eexists. split; [apply Map_get_set_eq | done].
  - destruct (Map_get recordId (pending w)) as [entry|] eqn:He.
    + destruct (resolve_fields recordId decision resolvedBy w entry Hok He)
        as (_ & Hp & Ht & _).
      eapply timers_tracked_settle; eauto.
      * intros tm Htm.
        destruct (ok_pending w Hok _ _ He) as (_ & _ & tm' & Htm' & Hid).
        congruence.
      * intros e He'. congruence.
    + unfold resolve. by rewrite He.
  - destruct (fire handle w) as [w'|] eqn:Hf; simpl; [|done].
    destruct (fire_Some _ _ _ Hf) as (tm & Htm & Hdue).
    destruct (fire_fields handle tm w Hok Htm Hdue)
      as (w'' & Hf' & Hp & Ht & _).
    rewrite Hf in Hf'. injection Hf' as <-.
    eapply timers_tracked_settle; eauto.
    + intros tm' Htm'. congruence.
    + intros e He. destruct (Htr _ _ Htm) as (e' & He' & Het). congruence.
  - done.
  - done.
Qed.

Lemma guarded_run_ok ops w :
  world_ok w -> timers_tracked w -> guarded_run ops w ->
  timers_tracked (exec_ops ops w).
Proof.
  revert w. induction ops as [|op ops IH]; intros w Hok Htr Hg; [done|].
  simpl in Hg |- *. destruct Hg as [Hop Hg].
  apply IH; [by apply world_ok_exec_op | by apply timers_tracked_exec_op | done].
Qed.

Lemma timers_tracked_reachable now uuids ops :
  guarded_run ops (initial_world now uuids) ->
  timers_tracked (exec_ops ops (initial_world now uuids)).
Proof.
  apply guarded_run_ok; [apply world_ok_initial | apply timers_tracked_initial].
Qed.

(** No armed timer carries [id]; this lasts until [id] is registered again. *)
Lemma no_timer_for_exec_op id op w :
  ~ registers id op -> no_timer_for id w -> no_timer_for id (exec_op op w).
Proof.
  intros Hreg Hno. 
  assert (forall t', no_timer_for_list id (<[t' := None]> (timers w))) as Hins.
  { intros t' t tm Htm. destruct (decide (t' = t)) as [->|Hne].
    - destruct (timers w !! t) eqn:Hl.
      + rewrite list_lookup_insert_eq in Htm; [done|]. by apply lookup_lt_Some in Hl.
      + rewrite list_insert_ge in Htm; [congruence|]. by apply lookup_ge_None.
    - rewrite list_lookup_insert_ne in Htm by done. by apply (Hno t). }
  destruct op; simpl; try done.
  - unfold no_timer_for.
    by destruct (create_frame request timeoutMs id0 w) as (_ & _ & -> & _).
  - simpl in Hreg. intros t tm Htm. simpl in Htm.
    destruct (decide (t < length (timers w))%nat) as [Hlt|Hge].
    + rewrite lookup_app_l in Htm by done. by apply (Hno t).
    + assert (t = length (timers w)) as ->.
      { apply lookup_lt_Some in Htm. rewrite length_app in Htm. simpl in Htm. lia. }
      rewrite list_lookup_middle in Htm by done. by injection Htm as <-.
  - unfold resolve. destruct (Map_get recordId (pending w)); simpl; [apply Hins | done].
  - unfold fire. destruct (timers w !! handle) as [[tm|]|]; simpl; try done.
    destruct (t_due tm <=? clock w); simpl; [apply Hins | done].
Qed.

Lemma no_timer_for_exec_ops id ops w :
  Forall (fun op => ~ registers id op) ops ->
  no_timer_for id w -> no_timer_for id (exec_ops ops w).
Proof.
  intros Hops. revert w. induction Hops as [|op ops Hop _ IH]; intros w Hno; [done|].
  simpl. by apply IH, no_timer_for_exec_op.
Qed.

Lemma no_timer_for_not_pending id w :
  timers_tracked w -> Map_get id (pending w) = None -> no_timer_for id w.
Proof.
  intros Htr Hid t tm Htm Heq. destruct (Htr _ _ Htm) as (e & He & _).
  congruence.
Qed.

(* ===================================================================== *)
(** ** The store: [resolve] on an id that is not pending *)
(* ===================================================================== *)

Lemma resolve_absent recordId decision resolvedBy w :
  Map_get recordId (pending w) = None ->
  resolve recordId decision resolvedBy w = (false, w).
Proof. intros H. unfold resolve. by rewrite H. Qed.

(** C4. For an id that is not in the pending map (never requested, already
    resolved, already expired), [resolve] returns [false] and the whole
    world is what it was: the pending map and its records, every timer,
    every promise; no waiter is resumed. *)
Theorem resolve_not_pending recordId decision resolvedBy w :
  Map_get recordId (pending w) = None ->
  resolve recordId decision resolvedBy w = (false, w).
Proof. apply resolve_absent. Qed.

Lemma resolve_not_pending_witness :
  Map_get (str "other") (pending sample_waiting) = None /\
  resolve (str "other") Deny Null sample_waiting = (false, sample_waiting).
Proof.
  split; [reflexivity|]. apply (resolve_not_pending (str "other")). reflexivity.
Defined.

Lemma resolve_true_iff recordId decision resolvedBy w :
  fst (resolve recordId decision resolvedBy w) = true <->
  is_Some (Map_get recordId (pending w)).
Proof.
  unfold resolve. destruct (Map_get recordId (pending w)); simpl.
  - split; [eauto | done].
  - split; [done | by intros [? ?]].
Qed.

(* ===================================================================== *)
(** ** The store: resolution against expiry *)
(* ===================================================================== *)

(** C1. Resolution and expiry exclude each other.  Whichever of
    [resolve] (with a decision) and the expiry timer (with [null])
    reaches a waiter first has removed the entry from the pending map
    before it calls the waiter's [resolve] function.  After [resolve]
    returned [true] the timer of the entry it found never fires, and no
    timer at all fires for that id when timers are in step with entries;
    after the timer fired, [resolve] for its id returns [false]; in both
    cases the waiter has been resumed exactly once, for good, and no
    waiter of any world reached later is ever resumed twice. *)
Theorem resolution_excludes_expiry w :
  world_ok w ->
  (forall recordId decision resolvedBy,
     fst (resolve recordId decision resolvedBy w) = true ->
     exists entry tm,
       let w0 := finalize recordId entry decision resolvedBy w in
       let w' := snd (resolve recordId decision resolvedBy w) in
       Map_get recordId (pending w) = Some entry /\
       timers w !! e_timer entry = Some (Some tm) /\
       t_resolve tm = e_resolve entry /\ t_record_id tm = recordId /\
       times_resumed (e_resolve entry) w = 0%nat /\
       Map_get recordId (pending w0) = None /\
       w' = call_resolve (e_resolve entry) (Some decision) w0 /\
       resumed w' = resumed w ++ [(e_resolve entry, Some decision)] /\
       forall ops,
         let w2 := exec_ops ops w' in
         fire (e_timer entry) w2 = None /\
         times_resumed (e_resolve entry) w2 = 1%nat /\
         (Forall (fun op => ~ registers recordId op) ops ->
          (forall d who, resolve recordId d who w2 = (false, w2)) /\
          (timers_tracked w ->
           forall t tm', timers w2 !! t = Some (Some tm') ->
                         t_record_id tm' <> recordId))) /\
  (forall handle w',
     fire handle w = Some w' ->
     exists tm,
       let w0 := expire tm (clearTimeout handle w) in
       timers w !! handle = Some (Some tm) /\
       times_resumed (t_resolve tm) w = 0%nat /\
       Map_get (t_record_id tm) (pending w0) = None /\
       w' = call_resolve (t_resolve tm) None w0 /\
       resumed w' = resumed w ++ [(t_resolve tm, None)] /\
       forall ops,
         let w2 := exec_ops ops w' in
         fire handle w2 = None /\
         times_resumed (t_resolve tm) w2 = 1%nat /\
         (Forall (fun op => ~ registers (t_record_id tm) op) ops ->
          forall d who, resolve (t_record_id tm) d who w2 = (false, w2))) /\
  (forall ops p, (times_resumed p (exec_ops ops w) <= 1)%nat).
Proof.
  intros Hok. split; [|split].
  - intros recordId decision resolvedBy Htrue.
    apply resolve_true_iff in Htrue as [entry He].
    destruct (ok_pending w Hok _ _ He) as (Heq & _ & tm & Htm & Hid).
    destruct (ok_timers w Hok _ _ Htm) as [Hres Hpend].
    destruct (resolve_fields recordId decision resolvedBy w entry Hok He)
      as (_ & Hp & Ht & Hq & Hr & _).
    exists entry, tm. cbv zeta.
    split; [done|]. split; [done|]. split; [congruence|]. split; [done|].
    split; [by rewrite (ok_resumed w Hok), Heq, Hpend|].
    split; [apply Map_get_delete_eq|].
    split; [unfold resolve; by rewrite He|]. split; [done|].
    intros ops.
    assert (world_ok (snd (resolve recordId decision resolvedBy w))) as Hok'
      by by apply world_ok_resolve.
    split; [|split].
    + apply fire_gone, timer_gone_exec_ops. rewrite Ht.
      apply list_lookup_insert_eq. by apply lookup_lt_Some in Htm.
    + eapply times_resumed_settled; [by apply world_ok_exec_ops|].
      apply settled_exec_ops. rewrite Hq, Heq.
      apply list_lookup_insert_eq. by apply lookup_lt_Some in Hpend.
    + intros Hops. split.
      * intros d who. apply resolve_absent, not_pending_exec_ops; [done|].
        rewrite Hp. apply Map_get_delete_eq.
      * intros Htr. apply (no_timer_for_exec_ops recordId ops); [done|].
        intros t tm' Htm' Hid'. rewrite Ht in Htm'.
        destruct (decide (e_timer entry = t)) as [<-|Hne].
        { rewrite list_lookup_insert_eq in Htm'; [done|].
          by apply lookup_lt_Some in Htm. }
        rewrite list_lookup_insert_ne in Htm' by done.
        destruct (Htr _ _ Htm') as (e' & He' & Het). congruence.
  - intros handle w' Hf.
    destruct (fire_Some _ _ _ Hf) as (tm & Htm & Hdue).
    destruct (ok_timers w Hok _ _ Htm) as [Hres Hpend].
    destruct (fire_fields handle tm w Hok Htm Hdue)
      as (w'' & Hf' & Hp & Ht & Hq & Hr & _).
    rewrite Hf in Hf'. injection Hf' as <-.
    exists tm. cbv zeta.
    split; [done|].
    split; [by rewrite (ok_resumed w Hok), Hres, Hpend|].
    split; [apply Map_get_delete_eq|].
    split.
    { unfold fire in Hf. rewrite Htm in Hf.
      destruct (t_due tm <=? clock w); [|done]. by injection Hf as <-. }
    split; [by rewrite Hres|].
    intros ops.
    assert (world_ok w') as Hok' by by eapply world_ok_fire.
    split; [|split].
    + apply fire_gone, timer_gone_exec_ops. rewrite Ht.
      apply list_lookup_insert_eq. by apply lookup_lt_Some in Htm.
    + eapply times_resumed_settled; [by apply world_ok_exec_ops|].
      apply settled_exec_ops. rewrite Hq, Hres.
      apply list_lookup_insert_eq. by apply lookup_lt_Some in Hpend.
    + intros Hops d who.
      apply resolve_absent, not_pending_exec_ops; [done|].
      rewrite Hp. apply Map_get_delete_eq.
  - intros ops p. by apply times_resumed_le_1, world_ok_exec_ops.
Qed.

Lemma resolution_excludes_expiry_witness :
  world_ok sample_waiting /\
  (forall ops p, (times_resumed p (exec_ops ops sample_waiting) <= 1)%nat).
Proof.
  assert (world_ok sample_waiting) as Hok.
  { apply world_ok_waitForDecision, world_ok_initial. }
  split; [exact Hok|].
  exact (proj2 (proj2 (resolution_excludes_expiry sample_waiting Hok))).
Defined.

(* ===================================================================== *)
(** ** The store: the listing and the pending map *)
(* ===================================================================== *)

Lemma listPending_perm localeCompare nowMs w :
  listPending localeCompare nowMs w ≡ₚ
  pending_item (listing_now nowMs w) <$> Map_values (pending w).
Proof. apply toSorted_perm. Qed.

(** The ids listed are the ids pending. *)
Lemma listPending_ids localeCompare nowMs w id :
  world_ok w ->
  id ∈ (i_id <$> listPending localeCompare nowMs w) <->
  is_Some (Map_get id (pending w)).
Proof.
  intros Hok. rewrite listPending_perm. unfold Map_values.
  rewrite <- !list_fmap_compose. rewrite list_elem_of_fmap. split.
  - intros ([k e] & -> & Hin). simpl.
    apply (Map_elem_of_get _ _ _ (ok_keys w Hok)) in Hin.
    destruct (ok_pending w Hok _ _ Hin) as (_ & -> & _). eauto.
  - intros [e He]. exists (id, e). simpl.
    destruct (ok_pending w Hok _ _ He) as (_ & -> & _).
    split; [done | by apply Map_get_elem_of].
Qed.

(* ===================================================================== *)
(** ** The store: the timeout path *)
(* ===================================================================== *)

(** A registration nobody resolves keeps its timer armed. *)
Lemma still_armed_exec_op t tm op w :
  world_ok w ->
  ~ resolves (t_record_id tm) op -> op <> OpFire t ->
  timers w !! t = Some (Some tm) ->
  timers (exec_op op w) !! t = Some (Some tm).
Proof.
  intros Hok Hres Hfire Htm. destruct op; simpl; try done.
  - by destruct (create_frame request timeoutMs id w) as (_ & _ & -> & _).
  - rewrite lookup_app_l; [done|]. by apply lookup_lt_Some in Htm.
  - simpl in Hres. unfold resolve.
    destruct (Map_get recordId (pending w)) as [entry|] eqn:He; simpl; [|done].
    rewrite list_lookup_insert_ne; [done|]. intros Heq.
    destruct (ok_pending w Hok _ _ He) as (_ & _ & tm' & Htm' & Hid).
    rewrite Heq, Htm in Htm'. congruence.
  - unfold fire. destruct (timers w !! handle) as [[tm'|]|]; simpl; try done.
    destruct (t_due tm' <=? clock w); simpl; [|done].
    rewrite list_lookup_insert_ne; [done|]. congruence.
Qed.

Lemma still_armed_exec_ops t tm ops w :
  world_ok w ->
  Forall (fun op => ~ resolves (t_record_id tm) op /\ op <> OpFire t) ops ->
  timers w !! t = Some (Some tm) ->
  timers (exec_ops ops w) !! t = Some (Some tm).
Proof.
  intros Hok Hops. revert w Hok.
  induction Hops as [|op ops [Hres Hfire] _ IH]; intros w Hok Htm; [done|].
  simpl. apply IH; [by apply world_ok_exec_op | by apply still_armed_exec_op].
Qed.

(** C3. A record registered by [waitForDecision] with [timeoutMs] that
    nobody resolves keeps its waiter suspended and its timer armed; the
    timer cannot fire before it is due and fires once it is, and the
    firing removes the entry from the pending map, hence from the
    listing, and resumes the caller with [null]. *)
Theorem timeout_expires localeCompare record timeoutMs w ops :
  world_ok w ->
  let p := fst (waitForDecision record timeoutMs w) in
  let w1 := snd (waitForDecision record timeoutMs w) in
  let t := length (timers w) in
  let due := clock w + timer_delay timeoutMs in
  let w2 := exec_ops ops w1 in
  Forall (fun op => ~ resolves (r_id record) op /\ op <> OpFire t) ops ->
  (1 <= timeoutMs <= 2147483647 -> due = clock w + timeoutMs) /\
  is_Some (Map_get (r_id record) (pending w1)) /\
  promises w2 !! p = Some Pending /\
  times_resumed p w2 = 0%nat /\
  timers w2 !! t =
    Some (Some {| t_due := due; t_record_id := r_id record;
                  t_resolve := p |}) /\
  (clock w2 < due -> fire t w2 = None) /\
  (due <= clock w2 ->
   exists w3,
     fire t w2 = Some w3 /\
     Map_get (r_id record) (pending w3) = None /\
     getSnapshot (r_id record) w3 = None /\
     (forall nowMs,
        r_id record ∉ (i_id <$> listPending localeCompare nowMs w3)) /\
     promises w3 !! p = Some (Fulfilled None) /\
     resumed w3 = resumed w2 ++ [(p, None)] /\
     microtasks w3 = microtasks w2 ++ [(p, None)] /\
     times_resumed p w3 = 1%nat).
Proof.
  intros Hok p w1 t due w2 Hops.
  destruct (waitForDecision_fields record timeoutMs w)
    as (Hfst & Hp1 & Ht1 & Hq1 & _).
  fold w1 in Hp1, Ht1, Hq1. fold p in Hfst.
  assert (world_ok w1) as Hok1 by by apply world_ok_waitForDecision.
  assert (world_ok w2) as Hok2 by by apply world_ok_exec_ops.
  set (tm := {| t_due := due; t_record_id := r_id record; t_resolve := p |}).
  assert (timers w2 !! t = Some (Some tm)) as Htm.
  { apply still_armed_exec_ops; [done | done |].
    subst tm. rewrite Ht1, Hfst. by apply list_lookup_middle. }
  destruct (ok_timers w2 Hok2 _ _ Htm) as [Hpt Hpend]. simpl in Hpt.
  split.
  { intros Hr. subst due. unfold timer_delay.
    destruct (Z.ltb_spec timeoutMs 1), (Z.ltb_spec 2147483647 timeoutMs);
      simpl; lia. }
  split; [rewrite Hp1, Map_get_set_eq; eauto|].
  split; [by rewrite Hpt|].
  split; [by rewrite (ok_resumed w2 Hok2), Hpt, Hpend|].
  split; [done|].
  split.
  { intros Hlt. unfold fire. rewrite Htm. simpl.
    destruct (Z.leb_spec due (clock w2)); [lia | done]. }
  intros Hdue.
  destruct (fire_fields t tm w2 Hok2 Htm Hdue)
    as (w3 & Hf & Hp3 & Ht3 & Hq3 & Hr3 & Hm3 & _).
  assert (world_ok w3) as Hok3 by by eapply world_ok_fire.
  assert (Map_get (r_id record) (pending w3) = None) as Hgone.
  { rewrite Hp3. apply Map_get_delete_eq. }
  exists w3. split; [done|]. split; [done|].
  split; [unfold getSnapshot; by rewrite Hgone|].
  split.
  { intros nowMs Hin. apply listPending_ids in Hin; [|done].
    rewrite Hgone in Hin. by destruct Hin. }
  assert (promises w3 !! p = Some (Fulfilled None)) as Hful.
  { rewrite Hq3, Hpt. apply list_lookup_insert_eq.
    by apply lookup_lt_Some in Hpend. }
  split; [done|]. rewrite Hpt. split; [done|]. split; [done|].
  rewrite <- Hpt. by eapply times_resumed_settled.
Qed.

Lemma timeout_expires_witness :
  world_ok sample_world /\
  Forall (fun op => ~ resolves (r_id sample_record) op /\ op <> OpFire 0)
    [OpResolve (str "other") Deny Null; OpTick 2000] /\
  exists w3,
    fire 0 (exec_ops [OpResolve (str "other") Deny Null; OpTick 2000]
              sample_waiting) = Some w3 /\
    Map_get (str "dup-1") (pending w3) = None /\
    resumed w3 = [(0%nat, None)].
Proof.
  assert (world_ok sample_world) as Hok by apply world_ok_initial.
  assert (Forall (fun op => ~ resolves (r_id sample_record) op /\ op <> OpFire 0)
            [OpResolve (str "other") Deny Null; OpTick 2000]) as Hops.
  { apply Forall_cons. split.
    - split; [|discriminate]. intros H. vm_compute in H. discriminate.
    - apply Forall_cons. split; [|apply Forall_nil_2].
      split; [|discriminate]. intros H. exact H. }
  split; [exact Hok|]. split; [exact Hops|].
  destruct (timeout_expires lex_compare sample_record 2000 sample_world
              [OpResolve (str "other") Deny Null; OpTick 2000] Hok Hops)
    as (_ & _ & _ & _ & _ & _ & Hfire).
  destruct Hfire as (w3 & Hf & Hgone & _ & _ & _ & Hres & _).
  { vm_compute. discriminate. }
  exists w3. split; [exact Hf|]. split; [exact Hgone|]. exact Hres.
Defined.

(* ===================================================================== *)
(** ** The store: registering an id that is already pending *)
(* ===================================================================== *)

Lemma times_resumed_same p w w' :
  resumed w' = resumed w -> times_resumed p w' = times_resumed p w.
Proof. unfold times_resumed. by intros ->. Qed.

(** A waiter without an entry stays without one, and only the event loop
    running its own timer resumes it. *)
Lemma orphan_exec_op p op w :
  world_ok w -> orphan p w ->
  orphan p (exec_op op w) /\
  (times_resumed p (exec_op op w) <> times_resumed p w -> op = OpFire p).
Proof.
  intros Hok [Hlt Hno]. destruct op; simpl.
  - destruct (create_frame request timeoutMs id w)
      as (Hp & _ & _ & Hq & Hr & _).
    split; [|intros H; by rewrite (times_resumed_same _ _ _ Hr) in H].
    split; [by rewrite Hq | by rewrite Hp].
  - split; [|done]. split.
    + simpl. rewrite length_app. lia.
    + simpl. intros k e He.
      destruct (decide (r_id record = k)) as [<-|Hne].
      * rewrite Map_get_set_eq in He. injection He as <-. simpl. lia.
      * rewrite Map_get_set_ne in He by done. by eapply Hno.
  - destruct (Map_get recordId (pending w)) as [entry|] eqn:He.
    + destruct (resolve_fields recordId decision resolvedBy w entry Hok He)
        as (_ & Hp & _ & Hq & _).
      split.
      * split; [by rewrite Hq, length_insert|]. rewrite Hp. intros k e Hk.
        apply Map_get_delete_Some in Hk as [_ Hk]. by eapply Hno.
      * intros Hne. exfalso. apply Hne. unfold resolve. rewrite He.
        cbn [snd]. rewrite times_resumed_call, decide_False by by eapply Hno.
        rewrite Nat.add_0_r. by apply times_resumed_same.
    + unfold resolve. rewrite He. simpl. done.
  - destruct (fire handle w) as [w'|] eqn:Hf; simpl; [|done].
    destruct (fire_Some _ _ _ Hf) as (tm & Htm & Hdue).
    destruct (ok_timers w Hok _ _ Htm) as [Hres _].
    destruct (fire_fields handle tm w Hok Htm Hdue)
      as (w'' & Hf' & Hp & _ & Hq & Hr & _).
    rewrite Hf in Hf'. injection Hf' as <-. split.
    + split; [by rewrite Hq, length_insert|]. rewrite Hp. intros k e Hk.
      apply Map_get_delete_Some in Hk as [_ Hk]. by eapply Hno.
    + intros Hne. f_equal. destruct (decide (handle = p)) as [|Hhp]; [done|].
      exfalso. apply Hne. unfold times_resumed. rewrite Hr.
      rewrite filter_app, length_app, filter_cons, filter_nil. simpl.
      rewrite decide_False by done. simpl. lia.
  - done.
  - done.
Qed.

Lemma orphan_exec_ops p ops w :
  world_ok w -> orphan p w -> orphan p (exec_ops ops w).
Proof.
  revert w. induction ops as [|op ops IH]; intros w Hok Ho; [done|].
  simpl. apply IH; [by apply world_ok_exec_op | by apply orphan_exec_op].
Qed.

(** C10. [waitForDecision] checks nothing: called with a record whose id
    is already pending it replaces the entry of that id, and the map does
    not grow.  From then on [resolve] for the id resumes the second
    waiter, never the first; the first waiter remains suspended with its
    timer armed, and only that timer resumes it (with [null], and by
    deleting whatever entry the id has by then). *)
Theorem waitForDecision_replaces record timeoutMs w first :
  world_ok w ->
  Map_get (r_id record) (pending w) = Some first ->
  let p := fst (waitForDecision record timeoutMs w) in
  let w' := snd (waitForDecision record timeoutMs w) in
  Map_get (r_id record) (pending w') =
    Some {| e_record := record; e_resolve := p;
            e_timer := length (timers w) |} /\
  Map_size (pending w') = Map_size (pending w) /\
  p <> e_resolve first /\
  promises w' !! e_resolve first = Some Pending /\
  (exists tm, timers w' !! e_timer first = Some (Some tm) /\
              t_resolve tm = e_resolve first /\
              t_record_id tm = r_id record) /\
  (forall decision resolvedBy,
     let w2 := snd (resolve (r_id record) decision resolvedBy w') in
     fst (resolve (r_id record) decision resolvedBy w') = true /\
     resumed w2 = resumed w' ++ [(p, Some decision)] /\
     promises w2 !! e_resolve first = Some Pending /\
     times_resumed (e_resolve first) w2 = 0%nat) /\
  (forall ops op,
     let w2 := exec_ops ops w' in
     times_resumed (e_resolve first) (exec_op op w2) <>
       times_resumed (e_resolve first) w2 ->
     op = OpFire (e_timer first)) /\
  (forall dt tm,
     let w2 := exec_op (OpTick dt) w' in
     timers w' !! e_timer first = Some (Some tm) ->
     t_due tm <= clock w2 ->
     exists w3,
       fire (e_timer first) w2 = Some w3 /\
       resumed w3 = resumed w' ++ [(e_resolve first, None)] /\
       Map_get (r_id record) (pending w3) = None /\
       promises w3 !! p = Some Pending).
Proof.
  intros Hok Hfirst p w'.
  destruct (waitForDecision_fields record timeoutMs w)
    as (Hfst & Hp & Ht & Hq & Hr & _).
  fold w' in Hp, Ht, Hq, Hr. fold p in Hfst.
  assert (world_ok w') as Hok' by by apply world_ok_waitForDecision.
  destruct (ok_pending w Hok _ _ Hfirst) as (Heq & _ & tm & Htm & Hid).
  destruct (ok_timers w Hok _ _ Htm) as [Hres Hpend].
  assert (e_resolve first < length (promises w))%nat as Hlt.
  { rewrite Heq. by apply lookup_lt_Some in Hpend. }
  assert (Map_get (r_id record) (pending w') =
          Some {| e_record := record; e_resolve := p;
                  e_timer := length (timers w) |}) as Hnew.
  { rewrite Hp, Hfst. apply Map_get_set_eq. }
  assert (promises w' !! e_resolve first = Some Pending) as Hpend'.
  { rewrite Hq, lookup_app_l by done. by rewrite Heq. }
  assert (timers w' !! e_timer first = Some (Some tm)) as Htm'.
  { rewrite Ht, lookup_app_l; [done|]. by apply lookup_lt_Some in Htm. }
  assert (orphan (e_resolve first) w') as Horphan.
  { split; [rewrite Hq, length_app; lia|]. intros k e He. rewrite Hp in He.
    destruct (decide (r_id record = k)) as [<-|Hne].
    - rewrite Map_get_set_eq in He. injection He as <-. simpl. lia.
    - rewrite Map_get_set_ne in He by done. intros Hsame.
      destruct (ok_pending w Hok _ _ He) as (Heq' & _ & tm' & Htm2 & Hid').
      rewrite <- Heq', Hsame, Heq, Htm in Htm2. congruence. }
  split; [done|].
  split; [rewrite Hp; apply Map_set_size_present; eauto|].
  split; [rewrite Hfst; lia|].
  split; [done|].
  split; [exists tm; split; [done|]; split; [congruence | done]|].
  split; [|split].
  - intros decision resolvedBy w2.
    destruct (resolve_fields (r_id record) decision resolvedBy w' _ Hok' Hnew)
      as (Htrue & _ & _ & Hq2 & Hr2 & _). simpl in Hq2, Hr2.
    fold w2 in Hq2, Hr2.
    assert (promises w2 !! e_resolve first = Some Pending) as Hpend2.
    { rewrite Hq2, list_lookup_insert_ne; [done|]. rewrite Hfst. lia. }
    split; [done|]. split; [done|]. split; [done|].
    assert (world_ok w2) as Hok2 by by apply world_ok_resolve.
    by rewrite (ok_resumed w2 Hok2), Hpend2.
  - intros ops op w2 Hne. rewrite <- Heq.
    eapply (orphan_exec_op (e_resolve first) op w2);
      [by apply world_ok_exec_ops | by apply orphan_exec_ops | done].
  - intros dt tm0 w2 Htm0 Hdue.
    assert (world_ok w2) as Hok2 by by apply world_ok_exec_op.
    destruct (fire_fields (e_timer first) tm0 w2 Hok2 Htm0 Hdue)
      as (w3 & Hf & Hp3 & _ & Hq3 & Hr3 & _).
    exists w3. split; [done|]. split; [by rewrite Hr3, Heq|].
    split.
    + rewrite Htm' in Htm0. injection Htm0 as <-.
      rewrite Hp3, Hid. apply Map_get_delete_eq.
    + rewrite Hq3. change (promises w2) with (promises w').
      rewrite list_lookup_insert_ne.
      * rewrite Hq, Hfst. by apply list_lookup_middle.
      * rewrite <- Heq, Hfst. lia.
Qed.

Lemma waitForDecision_replaces_witness :
  world_ok sample_waiting /\
  Map_get (r_id sample_record) (pending sample_waiting) =
    Some {| e_record := sample_record; e_resolve := 0; e_timer := 0 |} /\
  Map_size (pending (snd (waitForDecision sample_record 500 sample_waiting)))
    = Map_size (pending sample_waiting).
Proof.
  assert (world_ok sample_waiting) as Hok.
  { apply world_ok_waitForDecision, world_ok_initial. }
  split; [exact Hok|]. split; [reflexivity|].
  exact (proj1 (proj2 (waitForDecision_replaces sample_record 500
                         sample_waiting _ Hok eq_refl))).
Defined.

(* ===================================================================== *)
(** ** The store: [listPending] *)
(* ===================================================================== *)

(** As stated, with [now] the argument itself, the claim on [listPending]
    fails: a negative [nowMs] is replaced by 0 and a fractional one is
    rounded down before the two durations are computed. *)
Lemma listPending_now_counterexample :
  (exists item,
     item ∈ listPending lex_compare (Some (Num (inject_Z (-5)))) sample_waiting /\
     i_expiresAtMs item = 3000 /\ i_expiresInMs item = 3000 /\
     i_expiresInMs item <> Z.max 0 (i_expiresAtMs item - (-5))) /\
  (exists item,
     item ∈ listPending lex_compare (Some (Num (3001 # 2))) sample_waiting /\
     i_createdAtMs item = 1000 /\ i_waitingMs item = 500 /\
     ~ (inject_Z (i_waitingMs item) == (3001 # 2) - inject_Z (i_createdAtMs item))%Q).
Proof.
  split.
  - eexists. split; [vm_compute; left|]. vm_compute. repeat split; discriminate.
  - eexists. split; [vm_compute; left|]. vm_compute. repeat split; discriminate.
Qed.

Lemma listPending_ids_keys localeCompare nowMs w :
  world_ok w ->
  i_id <$> listPending localeCompare nowMs w ≡ₚ Map_keys (pending w).
Proof.
  intros Hok. rewrite listPending_perm. unfold Map_values, Map_keys.
  rewrite <- !list_fmap_compose.
  assert ((i_id ∘ pending_item (listing_now nowMs w) ∘ snd) <$> pending w
          = fst <$> pending w) as ->; [|done].
  apply Forall_fmap_ext, Forall_forall. intros [k e] Hin. simpl.
  apply (Map_elem_of_get _ _ _ (ok_keys w Hok)) in Hin.
  by destruct (ok_pending w Hok _ _ Hin) as (_ & -> & _).
Qed.

(** C5, amended.  [listPending(nowMs)] measures against
    [now = max(0, floor(nowMs))] when [nowMs] is finite (which is [nowMs]
    itself for a whole number that is not negative), against
    [Date.now()] when it is not.  It returns one snapshot per pending
    record, with [waitingMs = max(0, now - createdAtMs)],
    [expiresInMs = max(0, expiresAtMs - now)] and every optional string
    field trimmed, absent when it is missing, empty or white space only.
    The snapshots are ordered by [createdAtMs] ascending, ties broken by
    [localeCompare] on the id, for any [localeCompare] that is a
    consistent comparator; the result depends on the pending map and on
    [now] only. *)
Theorem listPending_spec localeCompare nowMs w :
  (forall a b, 0 < localeCompare a b -> localeCompare b a <= 0) ->
  (forall a b c, localeCompare a b <= 0 -> localeCompare b c <= 0 ->
                 localeCompare a c <= 0) ->
  world_ok w ->
  let now := listing_now nowMs w in
  let items := listPending localeCompare nowMs w in
  match nowMs with
  | Some (Num q) => now = Z.max 0 (Qfloor q)
  | Some _ => now = Date_now w
  | None => now = Z.max 0 (Date_now w)
  end /\
  (forall n, 0 <= n -> nowMs = Some (Num (inject_Z n)) -> now = n) /\
  items ≡ₚ pending_item now <$> Map_values (pending w) /\
  length items = Map_size (pending w) /\
  NoDup (i_id <$> items) /\
  (forall id, id ∈ (i_id <$> items) <-> is_Some (getSnapshot id w)) /\
  Forall (fun item =>
    exists entry,
      Map_get (i_id item) (pending w) = Some entry /\
      item = pending_item now entry /\
      i_command item = command (r_request (e_record entry)) /\
      i_createdAtMs item = r_createdAtMs (e_record entry) /\
      i_expiresAtMs item = r_expiresAtMs (e_record entry) /\
      i_waitingMs item = Z.max 0 (now - i_createdAtMs item) /\
      i_expiresInMs item = Z.max 0 (i_expiresAtMs item - now) /\
      i_agentId item =
        normalizeOptionalString (agentId (r_request (e_record entry))) /\
      i_cwd item =
        normalizeOptionalString (cwd (r_request (e_record entry))) /\
      i_host item =
        normalizeOptionalString (host (r_request (e_record entry))) /\
      i_security item =
        normalizeOptionalString (security (r_request (e_record entry))) /\
      i_ask item =
        normalizeOptionalString (ask (r_request (e_record entry))) /\
      i_resolvedPath item =
        normalizeOptionalString (resolvedPath (r_request (e_record entry))) /\
      i_sessionKey item =
        normalizeOptionalString (sessionKey (r_request (e_record entry))))
    items /\
  (forall value,
     normalizeOptionalString value = None <->
     match value with
     | Val s => forallb is_white_space s = true
     | _ => True
     end) /\
  (forall value t,
     normalizeOptionalString value = Some t <->
     exists s, value = Val s /\ t = trim s /\ t <> []) /\
  StronglySorted (listed_before localeCompare) items /\
  (forall w',
     pending w' = pending w -> listing_now nowMs w' = now ->
     listPending localeCompare nowMs w' = items).
Proof.
  intros Hflip Htrans Hok now items.
  assert (items ≡ₚ pending_item now <$> Map_values (pending w)) as Hperm
    by apply listPending_perm.
  split.
  { destruct nowMs as [[| |q]|]; try done. apply listing_now_default. }
  split.
  { intros n Hn ->. by apply listing_now_integer. }
  split; [done|].
  split.
  { rewrite Hperm. unfold Map_values, Map_size. by rewrite !length_fmap. }
  split.
  { unfold items. rewrite listPending_ids_keys by done. apply (ok_keys w Hok). }
  split.
  { intros id. unfold items. rewrite listPending_ids by done.
    unfold getSnapshot. by rewrite fmap_is_Some. }
  split.
  { apply Forall_forall. intros item Hin. rewrite Hperm in Hin.
    unfold Map_values in Hin. rewrite <- list_fmap_compose in Hin.
    apply list_elem_of_fmap in Hin as ([k e] & -> & Hin). simpl.
    apply (Map_elem_of_get _ _ _ (ok_keys w Hok)) in Hin.
    destruct (ok_pending w Hok _ _ Hin) as (_ & Hk & _).
    exists e. rewrite Hk. split; [done|]. split_and!; done. }
  split; [apply normalizeOptionalString_None|].
  split; [apply normalizeOptionalString_Some|].
  split; [by apply listPending_sorted|].
  intros w' Hp Hn. unfold items, listPending. by rewrite Hp, Hn.
Qed.

Lemma listPending_spec_witness :
  world_ok sample_waiting /\
  listPending lex_compare (Some (Num (inject_Z (-5)))) sample_waiting =
    [pending_item 0
       {| e_record := sample_record; e_resolve := 0; e_timer := 0 |}] /\
  StronglySorted (listed_before lex_compare)
    (listPending lex_compare (Some (Num (inject_Z (-5)))) sample_waiting).
Proof.
  assert (world_ok sample_waiting) as Hok.
  { apply world_ok_waitForDecision, world_ok_initial. }
  split; [exact Hok|]. split; [reflexivity|].
  destruct (listPending_spec lex_compare (Some (Num (inject_Z (-5))))
              sample_waiting lex_compare_flip lex_compare_trans Hok)
    as (_ & _ & _ & _ & _ & _ & _ & _ & _ & Hsorted & _).
  exact Hsorted.
Defined.

(* ===================================================================== *)
(** ** The handlers *)
(* ===================================================================== *)

Lemma broadcasts_respond call response g0 g :
  trace g0 = trace g ->
  broadcasts (respond call response g0) = broadcasts g.
Proof.
  intros Ht. unfold broadcasts, respond. simpl. rewrite omap_app, Ht. simpl.
  by rewrite app_nil_r.
Qed.

Section HandlerFacts.
Variable localeCompare : jsstring -> jsstring -> Z.
Variable DEFAULT_TIMEOUT_MS : Z.
Variable UNKNOWN_ID : string.
Variable formatValidationErrors : PendingParams -> string.

Local Abbreviation handle_request' :=
  (handle_request localeCompare DEFAULT_TIMEOUT_MS UNKNOWN_ID
     formatValidationErrors).
Local Abbreviation handle_resolve' := (handle_resolve UNKNOWN_ID).
Local Abbreviation handle_pending' :=
  (handle_pending localeCompare formatValidationErrors).
Local Abbreviation run_sync' :=
  (run_sync localeCompare UNKNOWN_ID formatValidationErrors).
Local Abbreviation broadcast' :=
  (broadcast localeCompare UNKNOWN_ID formatValidationErrors).
Local Abbreviation task' :=
  (task localeCompare DEFAULT_TIMEOUT_MS UNKNOWN_ID formatValidationErrors).
Local Abbreviation step' :=
  (step localeCompare DEFAULT_TIMEOUT_MS UNKNOWN_ID formatValidationErrors).
Local Abbreviation run' :=
  (run localeCompare DEFAULT_TIMEOUT_MS UNKNOWN_ID formatValidationErrors).

(** C2. A request whose [params.id] is the id of a pending record is
    answered with the failure "approval id already pending" and nothing
    else happens: the world (pending map, the record of the existing
    entry, timers, promises) is what it was, no handler is suspended,
    and no broadcast is emitted. *)
Theorem request_duplicate_rejected params reaction g id entry :
  p_id params = Val id ->
  Map_get id (pending (world g)) = Some entry ->
  let g' := handle_request' params reaction g in
  trace g' =
    trace g ++ [Respond (calls g) (Failure "approval id already pending")] /\
  world g' = world g /\
  Map_get id (pending (world g')) = Some entry /\
  getSnapshot id (world g') = Some (e_record entry) /\
  Map_size (pending (world g')) = Map_size (pending (world g)) /\
  timers (world g') = timers (world g) /\
  awaiting g' = awaiting g /\
  broadcasts g' = broadcasts g.
Proof.
  intros Hid Hget g'.
  assert (g' = respond (calls g) (Failure ALREADY_PENDING) (snd (enter g)))
    as ->.
  { subst g'. unfold handle_request, already_pending. simpl.
    rewrite Hid. unfold getSnapshot. by rewrite Hget. }
  simpl. split_and!; try done.
  - unfold getSnapshot. by rewrite Hget.
  - by apply broadcasts_respond.
Qed.

(** C9. The handler of [exec.approval.pending] answers an object with
    any key at all with a failure whose message contains "invalid
    exec.approval.pending params", which names the method, and answers
    the empty object with [{nowMs, pending: listPending(nowMs)}] for
    [nowMs = Date.now()]; either way it changes no state and emits no
    broadcast. *)
Theorem pending_params_checked params g :
  let g' := handle_pending' params g in
  world g' = world g /\ awaiting g' = awaiting g /\
  broadcasts g' = broadcasts g /\
  match params with
  | [] =>
      trace g' =
        trace g ++
        [Respond (calls g)
           (PendingOk (Date_now (world g))
              (listPending localeCompare
                 (Some (Num (inject_Z (Date_now (world g)))))
                 (world g)))]
  | _ :: _ =>
      exists message,
        trace g' = trace g ++ [Respond (calls g) (Failure message)] /\
        contains "invalid exec.approval.pending params" message /\
        contains "exec.approval.pending" message
  end.
Proof.
  unfold handle_pending. destruct params as [|kv params]; simpl.
  - split_and!; try done. by apply broadcasts_respond.
  - split_and!; try done; [by apply broadcasts_respond|].
    eexists. split; [done|]. split.
    + by exists ""%string, (formatValidationErrors (kv :: params)).
    + by exists "invalid "%string,
        (" params" ++ formatValidationErrors (kv :: params))%string.
Qed.
End HandlerFacts.

Lemma request_duplicate_rejected_witness :
  p_id sample_params = Val (str "dup-1") /\
  Map_get (str "dup-1") (pending (world sample_suspended)) =
    Some {| e_record := sample_record; e_resolve := 0; e_timer := 0 |} /\
  trace (handle_request lex_compare 120000 "unknown approval id" no_errors
           sample_params quiet sample_suspended) =
    trace sample_suspended ++
    [Respond 1 (Failure "approval id already pending")].
Proof.
  split; [reflexivity|]. split; [reflexivity|].
  exact (proj1 (request_duplicate_rejected lex_compare 120000
                  "unknown approval id" no_errors sample_params quiet
                  sample_suspended (str "dup-1") _ eq_refl eq_refl)).
Defined.

(* ===================================================================== *)
(** ** The handlers: what is observed, and in which order *)
(* ===================================================================== *)

Lemma snoc_eq_middle {A} (l pre post : list A) (x y : A) :
  l ++ [x] = pre ++ y :: post ->
  (post = [] /\ l = pre /\ x = y) \/
  (exists post', post = post' ++ [x] /\ l = pre ++ y :: post').
Proof.
  destruct post as [|z post _] using rev_ind; intros H.
  - left. apply app_inj_tail in H as [-> ->]. done.
  - right. exists post. rewrite app_comm_cons, app_assoc in H.
    apply app_inj_tail in H as [-> ->]. done.
Qed.

Lemma requested_in_app id l l' :
  requested_in id l -> requested_in id (l ++ l').
Proof.
  intros (payload & Hin & Hid). exists payload.
  split; [|done]. apply elem_of_app. by left.
Qed.

Lemma order_ok_respond l call response :
  order_ok l -> order_ok (l ++ [Respond call response]).
Proof.
  intros Hl pre post id d who H.
  apply snoc_eq_middle in H as [(_ & _ & [=])|(post' & -> & ->)].
  by eapply Hl.
Qed.

Lemma order_ok_requested l payload :
  order_ok l -> order_ok (l ++ [Broadcast (Requested payload)]).
Proof.
  intros Hl pre post id d who H.
  apply snoc_eq_middle in H as [(_ & _ & [=])|(post' & -> & ->)].
  by eapply Hl.
Qed.

Lemma order_ok_resolved l id decision resolvedBy :
  order_ok l -> requested_in id l ->
  order_ok (l ++ [Broadcast (Resolved id decision resolvedBy)]).
Proof.
  intros Hl Hreq pre post id' d who H.
  apply snoc_eq_middle in H as [(_ & -> & [= -> _ _])|(post' & -> & ->)].
  - done.
  - by eapply Hl.
Qed.

Lemma times_responded_respond call c response g :
  times_responded call (respond c response g) =
  (times_responded call g + if decide (c = call) then 1 else 0)%nat.
Proof.
  unfold times_responded, respond. simpl.
  rewrite filter_app, length_app. f_equal.
  rewrite filter_cons, filter_nil. simpl.
  destruct (decide (c = call)) as [->|Hne].
  - by rewrite bool_decide_true, decide_True.
  - by rewrite bool_decide_false, decide_False.
Qed.

Lemma times_responded_emit call ev g :
  times_responded call (emit ev g) = times_responded call g.
Proof.
  unfold times_responded, emit. simpl.
  rewrite filter_app, length_app, filter_cons, filter_nil. simpl. lia.
Qed.

Lemma times_responded_same call g g' :
  trace g' = trace g -> times_responded call g' = times_responded call g.
Proof. unfold times_responded. by intros ->. Qed.

(** *** Shrinking *)

Lemma shrinks_refl w : shrinks w w.
Proof. by split. Qed.

Lemma shrinks_trans w1 w2 w3 : shrinks w1 w2 -> shrinks w2 w3 -> shrinks w1 w3.
Proof.
  intros [H1 L1] [H2 L2]. split; [|congruence].
  intros id e He. by apply H1, H2.
Qed.

Lemma length_promises_call_resolve p v w :
  length (promises (call_resolve p v w)) = length (promises w).
Proof.
  unfold call_resolve. simpl.
  destruct (promises w !! p) as [[|]|]; by rewrite ?length_insert.
Qed.

Lemma shrinks_resolve recordId decision resolvedBy w :
  shrinks w (snd (resolve recordId decision resolvedBy w)).
Proof.
  unfold resolve. destruct (Map_get recordId (pending w)); simpl.
  - split; [|by rewrite length_promises_call_resolve].
    intros id e He. simpl in He. by apply Map_get_delete_Some in He as [_ ?].
  - apply shrinks_refl.
Qed.

Lemma shrinks_fire handle w : shrinks w (exec_op (OpFire handle) w).
Proof.
  unfold exec_op, fire. destruct (timers w !! handle) as [[tm|]|];
    try apply shrinks_refl.
  destruct (t_due tm <=? clock w); [|apply shrinks_refl].
  change (shrinks w (timer_callback tm (clearTimeout handle w))).
  unfold timer_callback.
  split; [|by rewrite length_promises_call_resolve].
  intros id e He. simpl in He. by apply Map_get_delete_Some in He as [_ ?].
Qed.

(** *** Who has been answered *)

Lemma accounts_enter g : accounts_ok g -> accounts_ok (snd (enter g)).
Proof.
  intros [H1 H2 H3 H4]. split; simpl; try done.
  - intros call Hin. destruct (H1 call Hin). split; [lia | done].
  - intros call Hle. apply H2. simpl in Hle. lia.
Qed.

Lemma accounts_same g g' :
  awaiting g' = awaiting g -> calls g' = calls g ->
  (forall call, times_responded call g' = times_responded call g) ->
  accounts_ok g -> accounts_ok g'.
Proof.
  intros Ha Hc Ht [H1 H2 H3 H4].
  split; unfold callers; rewrite ?Ha, ?Hc; try done.
  - intros call Hin. rewrite Ht. by apply H1.
  - intros call Hle. rewrite Ht. by apply H2.
  - intros call. rewrite Ht. apply H4.
Qed.

(** A handler answers the call it was entered for. *)
Lemma accounts_answer g g' :
  awaiting g' = awaiting g -> calls g' = S (calls g) ->
  (forall call,
     times_responded call g' =
     (times_responded call g + if decide (calls g = call) then 1 else 0)%nat) ->
  accounts_ok g -> accounts_ok g'.
Proof.
  intros Ha Hc Ht [H1 H2 H3 H4].
  split; unfold callers; rewrite ?Ha, ?Hc.
  - intros call Hin. destruct (H1 call Hin) as [Hlt H0].
    split; [lia|]. rewrite Ht, H0, decide_False; lia.
  - intros call Hle. rewrite Ht, H2, decide_False; lia.
  - done.
  - intros call. rewrite Ht. destruct (decide (calls g = call)) as [<-|Hne].
    + rewrite H2; lia.
    + specialize (H4 call). lia.
Qed.

Lemma sync_effect_refl g : sync_effect g g.
Proof.
  split; try done; [by exists [] | exists []; by rewrite app_nil_r].
Qed.

Lemma sync_effect_trans g1 g2 g3 :
  sync_effect g1 g2 -> sync_effect g2 g3 -> sync_effect g1 g3.
Proof.
  intros [A1 B1 C1 D1 E1 F1 G1 H1 [evs1 I1]] [A2 B2 C2 D2 E2 F2 G2 H2 [evs2 I2]].
  split.
  - congruence.
  - lia.
  - by eapply shrinks_trans.
  - auto.
  - destruct E1 as [ops1 E1], E2 as [ops2 E2]. exists (ops1 ++ ops2).
    by rewrite exec_ops_app, <- E1.
  - intros call Hlt. rewrite F2 by lia. by apply F1.
  - auto.
  - auto.
  - exists (evs1 ++ evs2). by rewrite I2, I1, app_assoc.
Qed.

Section GatewayFacts.
Variable localeCompare : jsstring -> jsstring -> Z.
Variable DEFAULT_TIMEOUT_MS : Z.
Variable UNKNOWN_ID : string.
Variable formatValidationErrors : PendingParams -> string.

Local Abbreviation handle_request' :=
  (handle_request localeCompare DEFAULT_TIMEOUT_MS UNKNOWN_ID
     formatValidationErrors).
Local Abbreviation handle_resolve' := (handle_resolve UNKNOWN_ID).
Local Abbreviation handle_pending' :=
  (handle_pending localeCompare formatValidationErrors).
Local Abbreviation run_sync' :=
  (run_sync localeCompare UNKNOWN_ID formatValidationErrors).
Local Abbreviation broadcast' :=
  (broadcast localeCompare UNKNOWN_ID formatValidationErrors).
Local Abbreviation task' :=
  (task localeCompare DEFAULT_TIMEOUT_MS UNKNOWN_ID formatValidationErrors).
Local Abbreviation step' :=
  (step localeCompare DEFAULT_TIMEOUT_MS UNKNOWN_ID formatValidationErrors).
Local Abbreviation run' :=
  (run localeCompare DEFAULT_TIMEOUT_MS UNKNOWN_ID formatValidationErrors).

(** The resolve handler, by the answer of the store. *)
Lemma handle_resolve_eq params g :
  handle_resolve' params g =
  let r := resolve (rp_id params) (rp_decision params) (rp_resolvedBy params)
             (world g) in
  let g1 := with_world (snd r) (snd (enter g)) in
  if fst r
  then respond (calls g) ResolveOk
         (emit (Resolved (rp_id params) (rp_decision params)
                  (rp_resolvedBy params)) g1)
  else respond (calls g) (Failure UNKNOWN_ID) g1.
Proof.
  unfold handle_resolve. simpl.
  by destruct (resolve (rp_id params) (rp_decision params)
                 (rp_resolvedBy params) (world g)) as [[|] w].
Qed.

Lemma handle_resolve_world params g :
  world (handle_resolve' params g) =
  snd (resolve (rp_id params) (rp_decision params) (rp_resolvedBy params)
         (world g)).
Proof.
  rewrite handle_resolve_eq. cbv zeta.
  by destruct (fst (resolve _ _ _ _)).
Qed.

Lemma sync_effect_resolve params g : sync_effect g (handle_resolve' params g).
Proof.
  pose proof (handle_resolve_world params g) as Hw.
  pose proof (handle_resolve_eq params g) as Heq. cbv zeta in Heq.
  set (r := resolve (rp_id params) (rp_decision params)
              (rp_resolvedBy params) (world g)) in *.
  assert (awaiting (handle_resolve' params g) = awaiting g) as Ha.
  { rewrite Heq. by destruct (fst r). }
  assert (calls (handle_resolve' params g) = S (calls g)) as Hc.
  { rewrite Heq. by destruct (fst r). }
  assert (forall call,
    times_responded call (handle_resolve' params g) =
    (times_responded call g + if decide (calls g = call) then 1 else 0)%nat)
    as Ht.
  { intros call. rewrite Heq. destruct (fst r);
      rewrite times_responded_respond, ?times_responded_emit; done. }
  split.
  - done.
  - lia.
  - rewrite Hw. apply shrinks_resolve.
  - rewrite Hw. apply world_ok_resolve.
  - exists [OpResolve (rp_id params) (rp_decision params)
              (rp_resolvedBy params)]. by rewrite Hw.
  - intros call Hlt. rewrite Ht, decide_False; lia.
  - by apply accounts_answer.
  - intros [Hp Ho]. split.
    + intros id e He. rewrite Hw in He.
      apply (proj1 (shrinks_resolve _ _ _ _)) in He.
      apply Hp in He. rewrite Heq.
      destruct (fst r); simpl; rewrite <- ?app_assoc;
        by apply requested_in_app.
    + rewrite Heq. destruct (fst r) eqn:Hr; simpl.
      * apply order_ok_respond, order_ok_resolved; [done|].
        apply resolve_true_iff in Hr as [e He]. by eapply Hp.
      * by apply order_ok_respond.
  - rewrite Heq. destruct (fst r); simpl; rewrite <- ?app_assoc; eauto.
Qed.

(** A handler that does nothing but answer its own call. *)
Lemma sync_effect_answer response g :
  sync_effect g (respond (calls g) response (snd (enter g))).
Proof.
  split; simpl; try done.
  - lia.
  - by exists [].
  - intros call Hlt. rewrite times_responded_respond, decide_False by lia.
    rewrite Nat.add_0_r. by apply times_responded_same.
  - apply accounts_answer; try done; intros call;
      rewrite times_responded_respond; f_equal; by apply times_responded_same.
  - intros [Hp Ho]. split; simpl.
    + intros id e He. by eapply requested_in_app, Hp.
    + by apply order_ok_respond.
  - eauto.
Qed.

Lemma sync_effect_pending params g : sync_effect g (handle_pending' params g).
Proof.
  assert (exists response,
    handle_pending' params g = respond (calls g) response (snd (enter g)))
    as [response ->].
  { unfold handle_pending. destruct params; simpl; eauto. }
  apply sync_effect_answer.
Qed.

Lemma sync_effect_run_sync c g : sync_effect g (run_sync' g c).
Proof.
  destruct c; [apply sync_effect_resolve | apply sync_effect_pending].
Qed.

Lemma sync_effect_foldl cs g : sync_effect g (foldl run_sync' g cs).
Proof.
  revert g. induction cs as [|c cs IH]; intros g; simpl.
  - apply sync_effect_refl.
  - eapply sync_effect_trans; [apply sync_effect_run_sync | apply IH].
Qed.

(** *** Suspended handlers *)

Lemma awaiter_of_app p a b :
  awaiter_of p (a ++ b) =
  match awaiter_of p a with
  | Some k => Some k
  | None => awaiter_of p b
  end.
Proof.
  induction a as [|[q k] a IH]; simpl; [done|].
  by destruct (decide (q = p)).
Qed.

Lemma awaiter_of_None p a :
  (forall q k, (q, k) ∈ a -> q <> p) -> awaiter_of p a = None.
Proof.
  induction a as [|[q k] a IH]; simpl; [done|]. intros H.
  rewrite decide_False by (apply (H q k); left).
  apply IH. intros q' k' Hin. apply (H q' k'). by right.
Qed.

Lemma awaiter_of_elem p k a : awaiter_of p a = Some k -> (p, k) ∈ a.
Proof.
  induction a as [|[q k'] a IH]; simpl; [done|].
  destruct (decide (q = p)) as [->|Hne].
  - intros [= ->]. left.
  - intros H. right. by apply IH.
Qed.

Lemma drop_awaiter_elem p q k a :
  (q, k) ∈ drop_awaiter p a <-> (q, k) ∈ a /\ q <> p.
Proof.
  induction a as [|[q' k'] a IH]; simpl.
  - split; [intros H; by apply elem_of_nil in H | intros [H _]; done].
  - destruct (decide (q' = p)) as [->|Hne].
    + rewrite IH, elem_of_cons. split; [intros [? ?]; auto|].
      intros [[[= -> ->]|?] ?]; done.
    + rewrite !elem_of_cons, IH. split.
      * intros [[= -> ->]|[? ?]]; auto.
      * intros [[?|?] ?]; auto.
Qed.

Lemma awaiter_of_drop_ne p q a :
  p <> q -> awaiter_of q (drop_awaiter p a) = awaiter_of q a.
Proof.
  intros Hne. induction a as [|[q' k'] a IH]; simpl; [done|].
  destruct (decide (q' = p)) as [->|Hne'].
  - by rewrite decide_False.
  - simpl. by destruct (decide (q' = q)).
Qed.

Lemma drop_awaiter_callers p c id a :
  NoDup (caller_of <$> a) ->
  awaiter_of p a = Some (c, id) ->
  NoDup (caller_of <$> drop_awaiter p a) /\
  (c ∉ (caller_of <$> drop_awaiter p a)) /\
  (forall c', c' ∈ (caller_of <$> drop_awaiter p a) ->
              c' ∈ (caller_of <$> a)).
Proof.
  intros Hnd Hsome.
  assert (forall c',
    c' ∈ (caller_of <$> drop_awaiter p a) ->
    c' ∈ (caller_of <$> a)) as Hsub.
  { intros c' Hin. apply list_elem_of_fmap in Hin as ([q k] & -> & Hin).
    apply drop_awaiter_elem in Hin as [Hin _].
    apply list_elem_of_fmap. by exists (q, k). }
  split; [|split; [|done]].
  - clear Hsome. induction a as [|[q k] a IH]; simpl; [constructor|].
    simpl in Hnd, Hsub. apply NoDup_cons in Hnd as [Hk Hnd].
    assert (forall c',
      c' ∈ (caller_of <$> drop_awaiter p a) ->
      c' ∈ (caller_of <$> a)) as Hsub'.
    { intros c' Hin. apply list_elem_of_fmap in Hin as ([q' k'] & -> & Hin).
      apply drop_awaiter_elem in Hin as [Hin _].
      apply list_elem_of_fmap. by exists (q', k'). }
    destruct (decide (q = p)); [by apply IH|].
    simpl. apply NoDup_cons. split; [|by apply IH].
    intros Hin. by apply Hk, Hsub'.
  - intros Hin. apply list_elem_of_fmap in Hin as ([q k] & Hc & Hin).
    unfold caller_of in Hc. simpl in Hc.
    apply drop_awaiter_elem in Hin as [Hin Hq].
    apply awaiter_of_elem in Hsome.
    apply list_elem_of_lookup in Hin as [i Hi].
    apply list_elem_of_lookup in Hsome as [j Hj].
    assert (i = j); [|subst; rewrite Hi in Hj; congruence].
    eapply NoDup_lookup; [exact Hnd| |].
    + rewrite list_lookup_fmap, Hi. reflexivity.
    + rewrite list_lookup_fmap, Hj. unfold caller_of. simpl. by rewrite Hc.
Qed.

(** *** Running the microtasks *)

Lemma run_microtask_frame g m :
  world (run_microtask g m) = world g /\ calls (run_microtask g m) = calls g.
Proof.
  unfold run_microtask. by destruct (awaiter_of m.1 (awaiting g)) as [[c id]|].
Qed.

Lemma accounts_microtask g m : accounts_ok g -> accounts_ok (run_microtask g m).
Proof.
  intros Hok. unfold run_microtask.
  destruct (awaiter_of m.1 (awaiting g)) as [[c id]|] eqn:Hsome; [|done].
  destruct Hok as [H1 H2 H3 H4].
  destruct (drop_awaiter_callers _ _ _ _ H3 Hsome) as (Hnd & Hc & Hsub).
  assert (c ∈ callers g) as Hcin.
  { apply awaiter_of_elem in Hsome. unfold callers.
    apply list_elem_of_fmap. by exists (m.1, (c, id)). }
  destruct (H1 c Hcin) as [Hlt Hzero].
  split; unfold callers; simpl.
  - intros call Hin. destruct (H1 call (Hsub _ Hin)) as [? Hz].
    split; [done|]. rewrite times_responded_respond.
    rewrite decide_False by (intros ->; done).
    rewrite Nat.add_0_r. by rewrite <- Hz.
  - intros call Hle. rewrite times_responded_respond.
    rewrite decide_False by lia. rewrite Nat.add_0_r. by apply H2.
  - done.
  - intros call. rewrite times_responded_respond.
    destruct (decide (c = call)) as [<-|Hne].
    + change (times_responded c (with_awaiting (drop_awaiter m.1 (awaiting g)) g))
        with (times_responded c g). lia.
    + rewrite Nat.add_0_r. apply H4.
Qed.

Lemma trace_ok_microtask g m : trace_ok g -> trace_ok (run_microtask g m).
Proof.
  intros [Hp Ho]. unfold run_microtask.
  destruct (awaiter_of m.1 (awaiting g)) as [[c id]|]; [|done].
  split; simpl.
  - intros id' e He. by eapply requested_in_app, Hp.
  - by apply order_ok_respond.
Qed.

Lemma pending_promise w id e :
  world_ok w -> Map_get id (pending w) = Some e ->
  promises w !! e_resolve e = Some Pending.
Proof.
  intros Hok He. destruct (ok_pending w Hok _ _ He) as (-> & _ & tm & Htm & _).
  by destruct (ok_timers w Hok _ _ Htm).
Qed.

Lemma busy_microtask g m :
  busy_ok g -> promises (world g) !! m.1 = Some (Fulfilled m.2) ->
  busy_ok (run_microtask g m).
Proof.
  intros [Hw Hf Hwait] Hful. unfold run_microtask.
  destruct (awaiter_of m.1 (awaiting g)) as [[c id]|]; [|done].
  split; simpl.
  - done.
  - intros p k Hin. apply drop_awaiter_elem in Hin as [Hin _]. by eapply Hf.
  - intros id' e He. destruct (Hwait _ _ He) as [call Hcall]. exists call.
    rewrite awaiter_of_drop_ne; [done|]. intros Heq.
    pose proof (pending_promise _ _ _ Hw He) as Hpend. congruence.
Qed.

Lemma foldl_microtasks g ms :
  world (foldl run_microtask g ms) = world g /\
  calls (foldl run_microtask g ms) = calls g /\
  (accounts_ok g -> accounts_ok (foldl run_microtask g ms)) /\
  (trace_ok g -> trace_ok (foldl run_microtask g ms)) /\
  (busy_ok g ->
   (forall m, m ∈ ms -> promises (world g) !! m.1 = Some (Fulfilled m.2)) ->
   busy_ok (foldl run_microtask g ms)).
Proof.
  revert g. induction ms as [|m ms IH]; intros g; simpl.
  - done.
  - destruct (run_microtask_frame g m) as [Hw Hc].
    destruct (IH (run_microtask g m)) as (Hw' & Hc' & Ha & Ht & Hb).
    split; [congruence|]. split; [congruence|].
    split; [intros; by apply Ha, accounts_microtask|].
    split; [intros; by apply Ht, trace_ok_microtask|].
    intros Hbusy Hms. apply Hb.
    + apply busy_microtask; [done|]. apply Hms. left.
    + intros m' Hin. rewrite Hw. apply Hms. by right.
Qed.

Lemma run_microtasks_frame g :
  calls (run_microtasks g) = calls g /\
  pending (world (run_microtasks g)) = pending (world g) /\
  timers (world (run_microtasks g)) = timers (world g) /\
  promises (world (run_microtasks g)) = promises (world g) /\
  clock (world (run_microtasks g)) = clock (world g) /\
  world (run_microtasks g) = exec_op OpRunMicrotasks (world g) /\
  microtasks (world (run_microtasks g)) = [].
Proof.
  unfold run_microtasks.
  destruct (foldl_microtasks g (microtasks (world g))) as (Hw & Hc & _).
  simpl. rewrite Hw, Hc. done.
Qed.

Lemma accounts_run_microtasks g :
  accounts_ok g -> accounts_ok (run_microtasks g).
Proof.
  intros Hok. unfold run_microtasks.
  destruct (foldl_microtasks g (microtasks (world g)))
    as (_ & _ & Ha & _).
  destruct (Ha Hok) as [H1 H2 H3 H4]. by split.
Qed.

Lemma trace_ok_run_microtasks g : trace_ok g -> trace_ok (run_microtasks g).
Proof.
  intros Hok. unfold run_microtasks.
  destruct (foldl_microtasks g (microtasks (world g)))
    as (Hw & _ & _ & Ht & _).
  destruct (Ht Hok) as [H1 H2]. by split.
Qed.

Lemma gateway_ok_run_microtasks g : busy_ok g -> gateway_ok (run_microtasks g).
Proof.
  intros Hbusy. unfold run_microtasks.
  destruct (foldl_microtasks g (microtasks (world g)))
    as (Hw & _ & _ & _ & Hb).
  destruct Hb as [H1 H2 H3]; [done| |].
  { intros [p v] Hin. by apply (ok_microtasks _ (bok_world g Hbusy)). }
  split; [|done]. split; simpl; try done.
  apply (world_ok_frame (world (foldl run_microtask g (microtasks (world g)))));
    try done.
  simpl. apply list_subseteq_nil.
Qed.

(** *** The tasks *)

Lemma busy_sync_effect g g' : sync_effect g g' -> busy_ok g -> busy_ok g'.
Proof.
  intros [Ha _ [Hs Hl] Hw _ _ _ _ _] [H1 H2 H3]. split.
  - auto.
  - intros p k Hin. rewrite Ha in Hin. rewrite Hl. by eapply H2.
  - intros id e He. rewrite Ha. by apply H3, Hs.
Qed.

Lemma handle_request_duplicate params reaction g :
  already_pending params (world g) = true ->
  handle_request' params reaction g =
  respond (calls g) (Failure ALREADY_PENDING) (snd (enter g)).
Proof. intros H. unfold handle_request. simpl. by rewrite H. Qed.

(** A request that is let through, statement by statement. *)
Lemma handle_request_new params reaction g :
  already_pending params (world g) = false ->
  let timeoutMs :=
    match p_timeoutMs params with
    | Some ms => ms
    | None => DEFAULT_TIMEOUT_MS
    end in
  let created := create (p_request params) timeoutMs (p_id params) (world g) in
  let waiting := waitForDecision (fst created) timeoutMs (snd created) in
  let payload :=
    pending_item (Date_now (snd waiting))
      {| e_record := fst created; e_resolve := fst waiting;
         e_timer := length (timers (snd created)) |} in
  let g1 := emit (Requested payload) (with_world (snd waiting) (snd (enter g))) in
  let g2 := foldl run_sync' g1 (reaction (Requested payload)) in
  handle_request' params reaction g =
  with_awaiting
    (awaiting g2 ++ [(fst waiting, (calls g, r_id (fst created)))]) g2.
Proof.
  intros H. unfold handle_request, broadcast. cbn [enter fst snd world].
  rewrite H. cbv zeta.
  destruct (create (p_request params) _ (p_id params) (world g))
    as [record w1].
  cbn [fst snd]. by destruct (waitForDecision record _ w1) as [p w2].
Qed.

Lemma requested_in_snoc payload l :
  requested_in (i_id payload) (l ++ [Broadcast (Requested payload)]).
Proof.
  exists payload. split; [|done]. apply elem_of_app. right. left.
Qed.

Lemma task_request_new params reaction g :
  already_pending params (world g) = false ->
  (busy_ok g -> busy_ok (handle_request' params reaction g)) /\
  (trace_ok g -> trace_ok (handle_request' params reaction g)) /\
  (accounts_ok g -> accounts_ok (handle_request' params reaction g)).
Proof.
  intros Hnew. rewrite (handle_request_new params reaction g Hnew). cbv zeta.
  set (timeoutMs := match p_timeoutMs params with
                    | Some ms => ms | None => DEFAULT_TIMEOUT_MS end).
  destruct (create_frame (p_request params) timeoutMs (p_id params) (world g))
    as (Hp1 & _ & Ht1 & Hq1 & Hr1 & Hm1 & _).
  set (created := create (p_request params) timeoutMs (p_id params) (world g))
    in *.
  destruct (waitForDecision_fields (fst created) timeoutMs (snd created))
    as (Hfst & Hp2 & Ht2 & Hq2 & _).
  set (waiting := waitForDecision (fst created) timeoutMs (snd created)) in *.
  set (payload := pending_item _ _).
  set (g1 := emit (Requested payload) (with_world (snd waiting) (snd (enter g)))).
  pose proof (sync_effect_foldl (reaction (Requested payload)) g1) as Hsync.
  set (g2 := foldl run_sync' g1 (reaction (Requested payload))) in *.
  destruct Hsync as [Ha Hc [Hs Hl] Hw _ Hresp Hacc Htr _].
  rewrite Hq1 in Hfst. rewrite Hp1 in Hp2. rewrite Hq1 in Hq2.
  split; [|split].
  - intros [H1 H2 H3].
    assert (world_ok (snd waiting)) as Hw2.
    { apply world_ok_waitForDecision, world_ok_create. exact H1. }
    split; simpl.
    + by apply Hw.
    + intros p k Hin. rewrite Hl.
      change (world g1) with (snd waiting). rewrite Hq2, length_app.
      cbn [length]. apply elem_of_app in Hin as [Hin|Hin].
      * rewrite Ha in Hin. apply H2 in Hin. lia.
      * apply list_elem_of_singleton in Hin. injection Hin as -> _.
        rewrite ?Hfst, ?Hq1. lia.
    + intros id e He. apply Hs in He.
      change (world g1) with (snd waiting) in He. rewrite Hp2 in He.
      rewrite Ha. change (awaiting g1) with (awaiting g).
      rewrite awaiter_of_app.
      destruct (decide (r_id (fst created) = id)) as [<-|Hne].
      * rewrite Map_get_set_eq in He. injection He as <-. cbn [e_resolve].
        rewrite Hq1.
        rewrite awaiter_of_None; [|intros q k Hin Heq; apply H2 in Hin; lia].
        simpl. rewrite decide_True by done. eauto.
      * rewrite Map_get_set_ne in He by done.
        destruct (H3 _ _ He) as [call ->]. eauto.
  - intros [H1 H2].
    assert (trace_ok g1) as Hg1.
    { split.
      - intros id e He. change (world g1) with (snd waiting) in He.
        rewrite Hp2 in He. change (trace g1) with
          (trace g ++ [Broadcast (Requested payload)]).
        destruct (decide (r_id (fst created) = id)) as [<-|Hne].
        + apply (requested_in_snoc payload).
        + rewrite Map_get_set_ne in He by done.
          by eapply requested_in_app, H1.
      - by apply order_ok_requested. }
    destruct (Htr Hg1) as [H1' H2']. by split.
  - intros Hok.
    assert (accounts_ok g1) as Hg1.
    { apply (accounts_same (snd (enter g))); try done.
      - intros call. unfold g1. by rewrite times_responded_emit.
      - by apply accounts_enter. }
    destruct (Hacc Hg1) as [B1 B2 B3 B4].
    destruct Hok as [A1 A2 A3 A4].
    assert (times_responded (calls g) g2 = 0%nat) as Hzero.
    { rewrite Hresp by (simpl; lia). unfold g1.
      rewrite times_responded_emit. by apply A2. }
    assert (calls g ∉ callers g) as Hfresh.
    { intros Hin. apply A1 in Hin as [? _]. lia. }
    split; unfold callers; simpl.
    + intros call Hin. rewrite fmap_app in Hin.
      apply elem_of_app in Hin as [Hin|Hin].
      * by apply B1.
      * apply list_elem_of_singleton in Hin. unfold caller_of in Hin.
        simpl in Hin. subst call. split; [simpl in Hc; lia | done].
    + done.
    + rewrite fmap_app. apply NoDup_app. split; [done|]. split.
      * intros call Hin Hin'. apply list_elem_of_singleton in Hin'.
        unfold caller_of in Hin'. simpl in Hin'. subst call.
        apply Hfresh. rewrite Ha in Hin. exact Hin.
      * apply NoDup_singleton.
    + done.
Qed.

(** The event loop acting on the world alone: a timer, the clock. *)
Lemma sync_effect_world g op :
  shrinks (world g) (exec_op op (world g)) ->
  sync_effect g (with_world (exec_op op (world g)) g).
Proof.
  intros Hs. split; simpl; try done.
  - apply world_ok_exec_op.
  - by exists [op].
  - intros Hok. by apply (accounts_same g).
  - intros [Hp Ho]. split; simpl; [|done].
    intros id e He. apply Hs in He. by eapply Hp.
  - exists []. by rewrite app_nil_r.
Qed.

Lemma task_invariants st g :
  (busy_ok g -> busy_ok (task' st g)) /\
  (trace_ok g -> trace_ok (task' st g)) /\
  (accounts_ok g -> accounts_ok (task' st g)).
Proof.
  assert (forall g', sync_effect g g' ->
    (busy_ok g -> busy_ok g') /\ (trace_ok g -> trace_ok g') /\
    (accounts_ok g -> accounts_ok g')) as Hsync.
  { intros g' He. split; [by apply busy_sync_effect|].
    split; [apply (se_trace _ _ He) | apply (se_accounts _ _ He)]. }
  destruct st as [params reaction|params|params|handle|dt]; simpl.
  - destruct (already_pending params (world g)) eqn:Hdup.
    + rewrite handle_request_duplicate by done.
      apply Hsync, sync_effect_answer.
    + by apply task_request_new.
  - apply Hsync, sync_effect_resolve.
  - apply Hsync, sync_effect_pending.
  - apply Hsync, (sync_effect_world g (OpFire handle)), shrinks_fire.
  - apply Hsync, (sync_effect_world g (OpTick dt)). by split.
Qed.

Lemma gateway_ok_busy g : gateway_ok g -> busy_ok g.
Proof. by intros [? _]. Qed.

Lemma step_invariants st g :
  (gateway_ok g -> gateway_ok (step' st g)) /\
  (trace_ok g -> trace_ok (step' st g)) /\
  (accounts_ok g -> accounts_ok (step' st g)).
Proof.
  destruct (task_invariants st g) as (Hb & Ht & Ha). unfold step.
  split; [|split].
  - intros Hok. by apply gateway_ok_run_microtasks, Hb, gateway_ok_busy.
  - intros Hok. by apply trace_ok_run_microtasks, Ht.
  - intros Hok. by apply accounts_run_microtasks, Ha.
Qed.

Lemma run_invariants steps g :
  (gateway_ok g -> gateway_ok (run' steps g)) /\
  (trace_ok g -> trace_ok (run' steps g)) /\
  (accounts_ok g -> accounts_ok (run' steps g)).
Proof.
  revert g. induction steps as [|st steps IH]; intros g; [done|].
  simpl. destruct (step_invariants st g) as (Hg & Ht & Ha).
  destruct (IH (step' st g)) as (Hg' & Ht' & Ha'). auto.
Qed.

Lemma initial_gateway_ok now uuids :
  gateway_ok (initial_gateway now uuids) /\
  trace_ok (initial_gateway now uuids) /\
  accounts_ok (initial_gateway now uuids).
Proof.
  split; [|split].
  - split; [|done]. split; simpl.
    + apply world_ok_initial.
    + intros p k Hin. by apply elem_of_nil in Hin.
    + done.
  - split; simpl; [done|].
    intros pre post id d who H. by destruct pre.
  - split; unfold callers; simpl; try done.
    + intros call Hin. by apply elem_of_nil in Hin.
    + apply NoDup_nil_2.
    + intros call. unfold times_responded. simpl. lia.
Qed.

(** Every gateway reached from a fresh one satisfies the invariants. *)
Lemma reachable_ok now uuids steps :
  let g := run' steps (initial_gateway now uuids) in
  gateway_ok g /\ trace_ok g /\ accounts_ok g.
Proof.
  destruct (initial_gateway_ok now uuids) as (Hg & Ht & Ha).
  destruct (run_invariants steps (initial_gateway now uuids))
    as (Hg' & Ht' & Ha'). auto.
Qed.

(** *** What has been observed stays observed *)

Lemma task_progress st g :
  (exists evs, trace (task' st g) = trace g ++ evs) /\
  (exists ops, world (task' st g) = exec_ops ops (world g)).
Proof.
  assert (forall g', sync_effect g g' ->
    (exists evs, trace g' = trace g ++ evs) /\
    (exists ops, world g' = exec_ops ops (world g))) as Hsync.
  { intros g' He. split; [apply (se_grows _ _ He) | apply (se_ops _ _ He)]. }
  destruct st as [params reaction|params|params|handle|dt]; unfold task.
  - destruct (already_pending params (world g)) eqn:Hdup.
    + rewrite handle_request_duplicate by done.
      apply Hsync, sync_effect_answer.
    + rewrite (handle_request_new params reaction g Hdup). cbv zeta.
      match goal with
      | |- context [foldl run_sync' ?g1 ?cs] =>
          set (G1 := g1); set (G2 := foldl run_sync' G1 cs);
          destruct (sync_effect_foldl cs G1)
            as [_ _ _ _ [ops Hops] _ _ _ [evs Hevs]]
      end.
      fold G2 in Hops, Hevs. split.
      * change (trace (with_awaiting _ G2)) with (trace G2). rewrite Hevs.
        unfold G1. simpl. rewrite <- app_assoc. eauto.
      * change (world (with_awaiting _ G2)) with (world G2). rewrite Hops.
        unfold G1. cbn [world with_world emit].
        match goal with
        | |- context [create ?r ?t ?i (world g)] =>
            exists (OpCreate r t i ::
                    OpWaitForDecision (fst (create r t i (world g))) t :: ops)
        end.
        done.
  - apply Hsync, sync_effect_resolve.
  - apply Hsync, sync_effect_pending.
  - apply Hsync, (sync_effect_world g (OpFire handle)), shrinks_fire.
  - apply Hsync, (sync_effect_world g (OpTick dt)). by split.
Qed.

Lemma run_microtask_grows g m :
  exists evs, trace (run_microtask g m) = trace g ++ evs.
Proof.
  unfold run_microtask. destruct (awaiter_of m.1 (awaiting g)) as [[c id]|].
  - simpl. eauto.
  - exists []. by rewrite app_nil_r.
Qed.

Lemma run_microtasks_grows g :
  exists evs, trace (run_microtasks g) = trace g ++ evs.
Proof.
  unfold run_microtasks. simpl. generalize (microtasks (world g)).
  intros ms. revert g. induction ms as [|m ms IH]; intros g; simpl.
  - exists []. by rewrite app_nil_r.
  - destruct (run_microtask_grows g m) as [evs1 H1].
    destruct (IH (run_microtask g m)) as [evs2 H2].
    exists (evs1 ++ evs2). by rewrite H2, H1, app_assoc.
Qed.

Lemma step_progress st g :
  (exists evs, trace (step' st g) = trace g ++ evs) /\
  (exists ops, world (step' st g) = exec_ops ops (world g)).
Proof.
  destruct (task_progress st g) as [[evs1 H1] [ops Hops]].
  destruct (run_microtasks_grows (task' st g)) as [evs2 H2].
  destruct (run_microtasks_frame (task' st g)) as (_ & _ & _ & _ & _ & Hw & _).
  unfold step. split.
  - exists (evs1 ++ evs2). by rewrite H2, H1, app_assoc.
  - exists (ops ++ [OpRunMicrotasks]). by rewrite Hw, Hops, exec_ops_app.
Qed.

Lemma run_progress steps g :
  (exists evs, trace (run' steps g) = trace g ++ evs) /\
  (exists ops, world (run' steps g) = exec_ops ops (world g)).
Proof.
  revert g. induction steps as [|st steps IH]; intros g; simpl.
  - split; [exists []; by rewrite app_nil_r | by exists []].
  - destruct (step_progress st g) as [[evs1 H1] [ops1 Ho1]].
    destruct (IH (step' st g)) as [[evs2 H2] [ops2 Ho2]]. split.
    + exists (evs1 ++ evs2). by rewrite H2, H1, app_assoc.
    + exists (ops1 ++ ops2). by rewrite Ho2, Ho1, exec_ops_app.
Qed.

Lemma times_responded_grows call g g' evs :
  trace g' = trace g ++ evs ->
  (times_responded call g <= times_responded call g')%nat.
Proof.
  intros H. unfold times_responded. rewrite H, filter_app, length_app. lia.
Qed.

(** A call that has been answered stays answered exactly once. *)
Lemma answered_for_good call g steps :
  accounts_ok g -> times_responded call g = 1%nat ->
  times_responded call (run' steps g) = 1%nat.
Proof.
  intros Hok H1.
  destruct (run_progress steps g) as [[evs Hevs] _].
  pose proof (times_responded_grows call _ _ _ Hevs) as Hle.
  destruct (run_invariants steps g) as (_ & _ & Ha).
  pose proof (aok_once _ (Ha Hok) call). lia.
Qed.

(* ===================================================================== *)
(** ** The handlers: resolving a pending request *)
(* ===================================================================== *)

(** What is observed when a pending id is resolved between two tasks. *)
Lemma resolve_step_trace params g entry call :
  gateway_ok g ->
  Map_get (rp_id params) (pending (world g)) = Some entry ->
  awaiter_of (e_resolve entry) (awaiting g) = Some (call, rp_id params) ->
  trace (step' (CallResolve params) g) =
  trace g ++
  [Broadcast (Resolved (rp_id params) (rp_decision params)
                (rp_resolvedBy params));
   Respond (calls g) ResolveOk;
   Respond call (RequestOk (rp_id params) (Some (rp_decision params)))].
Proof.
  intros [Hbusy Hidle] He Haw. unfold step, task.
  rewrite handle_resolve_eq. cbv zeta.
  destruct (resolve_fields (rp_id params) (rp_decision params)
              (rp_resolvedBy params) (world g) entry (bok_world g Hbusy) He)
    as (Htrue & _ & _ & _ & _ & Hm & _).
  rewrite Hidle in Hm. simpl in Hm.
  remember (resolve (rp_id params) (rp_decision params)
              (rp_resolvedBy params) (world g)) as r eqn:Hr.
  rewrite Htrue. unfold run_microtasks. cbn [world respond emit with_world].
  rewrite Hm. cbn [foldl]. unfold run_microtask.
  cbn [awaiting respond emit with_world enter snd fst]. rewrite Haw.
  cbn [trace respond emit with_world with_awaiting enter snd].
  by rewrite <- !app_assoc.
Qed.

(** C8. In every execution the "requested" broadcast of an id precedes
    any "resolved" broadcast of that id; and when a pending id is
    resolved with a decision, the "resolved" broadcast with that id and
    decision comes first, then the answer of the resolve call, then the
    answer [{id, decision}] of the request call suspended on that id,
    which had not been answered before.  The call suspended on an id is
    the request call that registered it. *)
Theorem requested_resolved_response now uuids steps :
  let g := run' steps (initial_gateway now uuids) in
  (forall pre post id decision resolvedBy,
     trace g = pre ++ Broadcast (Resolved id decision resolvedBy) :: post ->
     requested_in id pre) /\
  (forall id entry decision resolvedBy,
     Map_get id (pending (world g)) = Some entry ->
     exists call,
       awaiter_of (e_resolve entry) (awaiting g) = Some (call, id) /\
       (call < calls g)%nat /\
       times_responded call g = 0%nat /\
       requested_in id (trace g) /\
       trace (step' (CallResolve {| rp_id := id; rp_decision := decision;
                                    rp_resolvedBy := resolvedBy |}) g) =
       trace g ++
       [Broadcast (Resolved id decision resolvedBy);
        Respond (calls g) ResolveOk;
        Respond call (RequestOk id (Some decision))]) /\
  (forall params,
     already_pending params (world g) = false ->
     let g1 := step' (CallRequest params quiet) g in
     exists payload entry,
       trace g1 = trace g ++ [Broadcast (Requested payload)] /\
       Map_get (i_id payload) (pending (world g1)) = Some entry /\
       awaiter_of (e_resolve entry) (awaiting g1) =
         Some (calls g, i_id payload)).
Proof.
  intros g. destruct (reachable_ok now uuids steps) as (Hg & Ht & Ha).
  fold g in Hg, Ht, Ha. split; [|split].
  - apply (tok_order g Ht).
  - intros id entry decision resolvedBy He.
    destruct (bok_waiters g (gateway_ok_busy g Hg) _ _ He) as [call Hcall].
    exists call. split; [done|].
    assert (call ∈ callers g) as Hin.
    { apply awaiter_of_elem in Hcall. unfold callers.
      apply list_elem_of_fmap. by exists (e_resolve entry, (call, id)). }
    destruct (aok_waiting g Ha call Hin) as [Hlt Hzero].
    split; [done|]. split; [done|].
    split; [by apply (tok_pending g Ht id entry)|].
    by apply (resolve_step_trace
                {| rp_id := id; rp_decision := decision;
                   rp_resolvedBy := resolvedBy |} g entry call).
  - intros params Hnew g1. subst g1. unfold step, task.
    rewrite (handle_request_new params quiet g Hnew). cbv zeta.
    unfold quiet. cbn [foldl].
    destruct Hg as [Hbusy Hidle].
    set (timeoutMs := match p_timeoutMs params with
                      | Some ms => ms | None => DEFAULT_TIMEOUT_MS end).
    destruct (create_frame (p_request params) timeoutMs (p_id params) (world g))
      as (Hp1 & _ & Ht1 & Hq1 & _ & Hm1 & _).
    set (created := create (p_request params) timeoutMs (p_id params) (world g))
      in *.
    destruct (waitForDecision_fields (fst created) timeoutMs (snd created))
      as (Hfst & Hp2 & _ & _ & _ & _ & Hm2 & _).
    remember (waitForDecision (fst created) timeoutMs (snd created))
      as waiting eqn:Hwaiting.
    eexists _, _. unfold run_microtasks.
    cbn [world with_awaiting emit with_world]. rewrite Hm2, Hm1, Hidle.
    cbn [foldl trace world awaiting with_awaiting emit with_world enter snd].
    split; [done|]. split.
    + cbn [pending with_microtasks]. rewrite Hp2. cbn [pending_item i_id e_record].
      apply Map_get_set_eq.
    + cbn [e_resolve pending_item i_id e_record]. rewrite awaiter_of_app.
      rewrite awaiter_of_None.
      * simpl. by rewrite <- Hfst, decide_True.
      * intros q k Hin Heq. apply (bok_fresh g Hbusy) in Hin.
        rewrite Hq1 in Heq. lia.
Qed.

(* ===================================================================== *)
(** ** The handlers: a resolve from inside the "requested" broadcast *)
(* ===================================================================== *)

(** C7. When a subscriber resolves the request synchronously, from
    inside its "requested" broadcast, the resolve call succeeds, the
    request call is answered exactly once, with the decision, after the
    "resolved" broadcast and the answer of the resolve call; the id is no
    longer pending, the expiry timer of the request is cleared and never
    fires, and the request call stays answered exactly once whatever
    happens later. *)
Theorem resolve_during_broadcast params decision resolvedBy g :
  gateway_ok g -> accounts_ok g ->
  already_pending params (world g) = false ->
  let g' := step' (CallRequest params (resolve_at_once decision resolvedBy)) g in
  let timer := length (timers (world g)) in
  exists payload,
    trace g' =
      trace g ++
      [Broadcast (Requested payload);
       Broadcast (Resolved (i_id payload) decision resolvedBy);
       Respond (S (calls g)) ResolveOk;
       Respond (calls g) (RequestOk (i_id payload) (Some decision))] /\
    Map_get (i_id payload) (pending (world g')) = None /\
    timers (world g') !! timer = Some None /\
    times_responded (calls g) g' = 1%nat /\
    forall steps,
      let g2 := run' steps g' in
      fire timer (world g2) = None /\
      times_responded (calls g) g2 = 1%nat.
Proof.
  intros [Hbusy Hidle] Hacc Hnew g' timer.
  assert (accounts_ok g') as Hacc'.
  { by apply (step_invariants
                (CallRequest params (resolve_at_once decision resolvedBy)) g). }
  revert Hacc'. subst g'. unfold step, task.
  rewrite (handle_request_new params _ g Hnew). cbv zeta.
  set (timeoutMs := match p_timeoutMs params with
                    | Some ms => ms | None => DEFAULT_TIMEOUT_MS end).
  destruct (create_frame (p_request params) timeoutMs (p_id params) (world g))
    as (Hp1 & _ & Ht1 & Hq1 & _ & Hm1 & _).
  pose proof (world_ok_create (p_request params) timeoutMs (p_id params)
                (world g) (bok_world g Hbusy)) as Hok1.
  remember (create (p_request params) timeoutMs (p_id params) (world g))
    as created eqn:Hcreated.
  destruct (waitForDecision_fields (fst created) timeoutMs (snd created))
    as (Hfst & Hp2 & Ht2 & _ & _ & _ & Hm2 & _).
  pose proof (world_ok_waitForDecision (fst created) timeoutMs (snd created)
                Hok1) as Hok2.
  remember (waitForDecision (fst created) timeoutMs (snd created))
    as waiting eqn:Hwaiting.
  set (entry := {| e_record := fst created; e_resolve := fst waiting;
                   e_timer := length (timers (snd created)) |}).
  set (payload := pending_item (Date_now (snd waiting)) entry).
  set (g1 := emit (Requested payload)
               (with_world (snd waiting) (snd (enter g)))).
  assert (Map_get (i_id payload) (pending (snd waiting)) = Some entry) as He.
  { rewrite Hp2, <- Hfst. apply Map_get_set_eq. }
  destruct (resolve_fields (i_id payload) decision resolvedBy (snd waiting)
              entry Hok2 He)
    as (Htrue & Hp3 & Ht3 & _ & _ & Hm3 & _).
  rewrite Hm2, Hm1, Hidle, app_nil_l in Hm3.
  remember (resolve (i_id payload) decision resolvedBy (snd waiting))
    as r eqn:Hr.
  assert (foldl run_sync' g1
            (resolve_at_once decision resolvedBy (Requested payload)) =
          respond (S (calls g)) ResolveOk
            (emit (Resolved (i_id payload) decision resolvedBy)
               (with_world (snd r) (snd (enter g1))))) as ->.
  { cbn [resolve_at_once foldl run_sync]. rewrite handle_resolve_eq.
    cbv zeta. cbn [rp_id rp_decision rp_resolvedBy].
    change (world g1) with (snd waiting). by rewrite <- Hr, Htrue. }
  unfold run_microtasks.
  cbn [world with_awaiting respond emit with_world]. rewrite Hm3.
  cbn [foldl]. unfold run_microtask.
  cbn [awaiting with_awaiting respond emit with_world enter snd fst g1].
  rewrite awaiter_of_app, awaiter_of_None; cycle 1.
  { intros q k Hin Heq. apply (bok_fresh g Hbusy) in Hin.
    unfold entry in Heq. cbn [e_resolve] in Heq.
    rewrite Hfst, Hq1 in Heq. lia. }
  cbn [awaiter_of e_resolve entry]. rewrite decide_True by done.
  set (final := with_world _ _). intros Hacc'.
  assert (trace final =
    trace g ++
    [Broadcast (Requested payload);
     Broadcast (Resolved (i_id payload) decision resolvedBy);
     Respond (S (calls g)) ResolveOk;
     Respond (calls g) (RequestOk (i_id payload) (Some decision))])
    as Htrace.
  { subst final.
    cbn [trace with_world respond with_awaiting emit enter snd calls].
    change (trace g1) with (trace g ++ [Broadcast (Requested payload)]).
    by rewrite <- !app_assoc. }
  assert (timers (world final) !! timer = Some None) as Htimer.
  { subst final.
    cbn [world with_world timers with_microtasks respond with_awaiting emit].
    rewrite Ht3, Ht2. cbn [e_timer entry]. rewrite Ht1.
    apply list_lookup_insert_eq. rewrite length_app. simpl. lia. }
  assert (times_responded (calls g) final = 1%nat) as Honce.
  { unfold times_responded. rewrite Htrace, filter_app, length_app.
    change (length (filter _ (trace g))) with (times_responded (calls g) g).
    rewrite (aok_future g Hacc) by lia.
    rewrite !filter_cons, filter_nil. simpl.
    rewrite bool_decide_false by lia. rewrite bool_decide_true by done.
    done. }
  exists payload. split; [done|]. split.
  { subst final.
    cbn [world with_world pending with_microtasks respond with_awaiting emit].
    rewrite Hp3. apply Map_get_delete_eq. }
  split; [done|]. split; [done|].
  intros steps. split.
  - destruct (run_progress steps final) as [_ [ops Hops]].
    rewrite Hops. by apply fire_gone, timer_gone_exec_ops.
  - by apply answered_for_good.
Qed.
End GatewayFacts.

Lemma resolve_during_broadcast_witness :
  gateway_ok sample_gateway /\ accounts_ok sample_gateway /\
  already_pending sample_params (world sample_gateway) = false /\
  exists payload,
    i_id payload = str "dup-1" /\
    trace (step lex_compare 120000 "unknown approval id" no_errors
             (CallRequest sample_params (resolve_at_once AllowOnce Null))
             sample_gateway) =
    [Broadcast (Requested payload);
     Broadcast (Resolved (i_id payload) AllowOnce Null);
     Respond 1 ResolveOk;
     Respond 0 (RequestOk (i_id payload) (Some AllowOnce))].
Proof.
  destruct (initial_gateway_ok 1000 sample_uuids) as (Hg & _ & Ha).
  split; [exact Hg|]. split; [exact Ha|]. split; [reflexivity|].
  destruct (resolve_during_broadcast lex_compare 120000 "unknown approval id"
              no_errors sample_params AllowOnce Null sample_gateway Hg Ha
              eq_refl) as (payload & Htrace & _).
  exists payload. split; [|exact Htrace].
  simpl in Htrace. injection Htrace as <-. reflexivity.
Defined.

(** ** The scenarios of the tests, run on the model *)

(** "broadcasts request + resolve": the request is announced, resolved by
    a later call, and answered with the decision after the "resolved"
    broadcast. *)
Example broadcasts_request_and_resolve :
  let g := run lex_compare 120000 "unknown approval id" no_errors
             [CallRequest sample_params quiet;
              CallResolve {| rp_id := str "dup-1"; rp_decision := AllowOnce;
                             rp_resolvedBy := Null |}]
             sample_gateway in
  trace g =
    [Broadcast (Requested
       (pending_item 1000
          {| e_record := sample_record; e_resolve := 0; e_timer := 0 |}));
     Broadcast (Resolved (str "dup-1") AllowOnce Null);
     Respond 1 ResolveOk;
     Respond 0 (RequestOk (str "dup-1") (Some AllowOnce))] /\
  pending (world g) = [].
Proof. split; reflexivity. Qed.

(** The timeout path through the handlers: nobody resolves, the timer
    fires when it is due, and the request is answered with [null]. *)
Example request_times_out :
  let g := run lex_compare 120000 "unknown approval id" no_errors
             [CallRequest sample_params quiet; TimerFires 0;
              TimePasses 2000; TimerFires 0;
              CallResolve {| rp_id := str "dup-1"; rp_decision := Deny;
                             rp_resolvedBy := Null |}]
             sample_gateway in
  trace g =
    [Broadcast (Requested
       (pending_item 1000
          {| e_record := sample_record; e_resolve := 0; e_timer := 0 |}));
     Respond 0 (RequestOk (str "dup-1") None);
     Respond 1 (Failure "unknown approval id")] /\
  pending (world g) = [].
Proof. split; reflexivity. Qed.

(** "rejects duplicate approval ids": the second request with the id is
    refused, then the first is resolved. *)
Example rejects_duplicate_approval_ids :
  trace (run lex_compare 120000 "unknown approval id" no_errors
           [CallRequest sample_params quiet;
            CallRequest sample_params quiet;
            CallResolve {| rp_id := str "dup-1"; rp_decision := Deny;
                           rp_resolvedBy := Null |}]
           sample_gateway) =
    [Broadcast (Requested
       (pending_item 1000
          {| e_record := sample_record; e_resolve := 0; e_timer := 0 |}));
     Respond 1 (Failure "approval id already pending");
     Broadcast (Resolved (str "dup-1") Deny Null);
     Respond 2 ResolveOk;
     Respond 0 (RequestOk (str "dup-1") (Some Deny))].
Proof. reflexivity. Qed.

(* ===================================================================== *)
(** * Further properties of the store *)
(* ===================================================================== *)

(** ** Registering and looking up *)

Lemma getSnapshot_None id w :
  getSnapshot id w = None <-> Map_get id (pending w) = None.
Proof. unfold getSnapshot. by destruct (Map_get id (pending w)). Qed.

(** X1. What [waitForDecision] stores is what [getSnapshot] returns: the
    record itself under its id, every other id as before; the map grows
    by one entry exactly when the id was not pending. *)
Theorem waitForDecision_getSnapshot record timeoutMs w :
  let w' := snd (waitForDecision record timeoutMs w) in
  getSnapshot (r_id record) w' = Some record /\
  (forall id, id <> r_id record -> getSnapshot id w' = getSnapshot id w) /\
  Map_size (pending w') =
    match getSnapshot (r_id record) w with
    | Some _ => Map_size (pending w)
    | None => S (Map_size (pending w))
    end.
Proof.
  destruct (waitForDecision_fields record timeoutMs w) as (_ & Hp & _).
  cbv zeta. unfold getSnapshot. rewrite Hp. split; [|split].
  - by rewrite Map_get_set_eq.
  - intros id Hne. by rewrite Map_get_set_ne.
  - destruct (Map_get (r_id record) (pending w)) as [e|] eqn:He; simpl.
    + apply Map_set_size_present. eauto.
    + by apply Map_set_size_absent.
Qed.

Lemma Map_delete_size_present {V} (k : jsstring) (v : V) (m : JsMap V) :
  NoDup (Map_keys m) -> Map_get k m = Some v ->
  S (Map_size (Map_delete k m)) = Map_size m.
Proof.
  unfold Map_size, Map_keys. induction m as [|[k' v'] m IH]; simpl; [done|].
  intros Hnd Hget. apply NoDup_cons in Hnd as [Hk' Hnd].
  destruct (decide (k' = k)) as [->|Hne].
  - f_equal. clear IH Hget Hnd. induction m as [|[k0 v0] m IH]; simpl; [done|].
    apply not_elem_of_cons in Hk' as [Hk0 Hk']. simpl in Hk0.
    rewrite decide_False by done. simpl. f_equal. by apply IH.
  - simpl. f_equal. by apply IH.
Qed.

Lemma Map_delete_absent {V} (k : jsstring) (m : JsMap V) :
  Map_get k m = None -> Map_delete k m = m.
Proof.
  induction m as [|[k' v'] m IH]; simpl; [done|].
  destruct (decide (k' = k)); [done|]. intros H. f_equal. by apply IH.
Qed.

Lemma Map_delete_set_absent {V} (k : jsstring) (v : V) (m : JsMap V) :
  Map_get k m = None -> Map_delete k (Map_set k v m) = m.
Proof.
  induction m as [|[k' v'] m IH]; simpl.
  - intros _. by rewrite decide_True.
  - destruct (decide (k' = k)); [done|]. intros H. simpl.
    rewrite decide_False by done. f_equal. by apply IH.
Qed.

(** X2. A successful [resolve] takes exactly its id out of the store:
    that id is no longer found, every other id is found as before, the
    map has one entry less, and every listing loses that id and no
    other. *)
Theorem resolve_removes_only_its_id localeCompare recordId decision
    resolvedBy w :
  world_ok w ->
  fst (resolve recordId decision resolvedBy w) = true ->
  let w' := snd (resolve recordId decision resolvedBy w) in
  getSnapshot recordId w' = None /\
  (forall id, id <> recordId -> getSnapshot id w' = getSnapshot id w) /\
  S (Map_size (pending w')) = Map_size (pending w) /\
  (forall nowMs id,
     id ∈ (i_id <$> listPending localeCompare nowMs w') <->
     id ∈ (i_id <$> listPending localeCompare nowMs w) /\ id <> recordId).
Proof.
  intros Hok Htrue w'.
  apply resolve_true_iff in Htrue as [entry He].
  destruct (resolve_fields recordId decision resolvedBy w entry Hok He)
    as (_ & Hp & _).
  fold w' in Hp.
  assert (world_ok w') as Hok' by by apply world_ok_resolve.
  unfold getSnapshot. rewrite Hp. split; [|split; [|split]].
  - by rewrite Map_get_delete_eq.
  - intros id Hne. by rewrite Map_get_delete_ne.
  - apply (Map_delete_size_present _ entry); [apply (ok_keys w Hok) | done].
  - intros nowMs id. rewrite !listPending_ids by done. rewrite Hp.
    destruct (decide (recordId = id)) as [->|Hne].
    + rewrite Map_get_delete_eq. split; [by intros [? ?] | by intros [_ ?]].
    + rewrite Map_get_delete_ne by done. split; [auto | by intros [? _]].
Qed.

Lemma resolve_removes_only_its_id_witness :
  world_ok sample_waiting /\
  fst (resolve (str "dup-1") Deny Null sample_waiting) = true /\
  getSnapshot (str "dup-1")
    (snd (resolve (str "dup-1") Deny Null sample_waiting)) = None.
Proof.
  assert (world_ok sample_waiting) as Hok.
  { apply world_ok_waitForDecision, world_ok_initial. }
  split; [exact Hok|]. split; [reflexivity|].
  exact (proj1 (resolve_removes_only_its_id lex_compare (str "dup-1") Deny
                  Null sample_waiting Hok eq_refl)).
Defined.

(** X3. Registering a record under an id that is not pending and then
    resolving that id puts the pending map back exactly as it was, and
    the promise [waitForDecision] returned is the one settled, with the
    decision. *)
Theorem register_then_resolve record timeoutMs decision resolvedBy w :
  world_ok w ->
  getSnapshot (r_id record) w = None ->
  let p := fst (waitForDecision record timeoutMs w) in
  let w1 := snd (waitForDecision record timeoutMs w) in
  let w2 := snd (resolve (r_id record) decision resolvedBy w1) in
  fst (resolve (r_id record) decision resolvedBy w1) = true /\
  pending w2 = pending w /\
  promises w1 !! p = Some Pending /\
  promises w2 !! p = Some (Fulfilled (Some decision)) /\
  (forall localeCompare nowMs,
     listPending localeCompare nowMs w2 = listPending localeCompare nowMs w).
Proof.
  intros Hok Hnone p w1 w2. apply getSnapshot_None in Hnone.
  destruct (waitForDecision_fields record timeoutMs w)
    as (Hfst & Hp1 & _ & Hq1 & _ & Hc1 & _).
  fold p in Hfst. fold w1 in Hp1, Hq1, Hc1.
  assert (world_ok w1) as Hok1 by by apply world_ok_waitForDecision.
  assert (Map_get (r_id record) (pending w1) =
          Some {| e_record := record; e_resolve := p;
                  e_timer := length (timers w) |}) as He.
  { rewrite Hp1, Hfst. apply Map_get_set_eq. }
  destruct (resolve_fields (r_id record) decision resolvedBy w1 _ Hok1 He)
    as (Htrue & Hp2 & _ & Hq2 & _ & _ & Hc2).
  fold w2 in Hp2, Hq2, Hc2. simpl in Hq2.
  assert (pending w2 = pending w) as Hsame.
  { rewrite Hp2, Hp1. by apply Map_delete_set_absent. }
  assert (promises w1 !! p = Some Pending) as Hpend.
  { rewrite Hq1, Hfst. by apply list_lookup_middle. }
  split; [done|]. split; [done|]. split; [done|]. split.
  - rewrite Hq2. apply list_lookup_insert_eq. by apply lookup_lt_Some in Hpend.
  - intros lc nowMs. unfold listPending, listing_now, Date_now.
    by rewrite Hsame, Hc2, Hc1.
Qed.

Lemma register_then_resolve_witness :
  world_ok sample_world /\
  getSnapshot (r_id sample_record) sample_world = None /\
  pending (snd (resolve (r_id sample_record) AllowAlways Null sample_waiting))
    = pending sample_world.
Proof.
  assert (world_ok sample_world) as Hok by apply world_ok_initial.
  split; [exact Hok|]. split; [reflexivity|].
  exact (proj1 (proj2 (register_then_resolve sample_record 2000 AllowAlways
                         Null sample_world Hok eq_refl))).
Defined.

(** ** Records while they are pending *)

Lemma pending_kept_or_gone id op w :
  ~ registers id op ->
  Map_get id (pending (exec_op op w)) = Map_get id (pending w) \/
  Map_get id (pending (exec_op op w)) = None.
Proof.
  intros Hreg.
  assert (forall k, Map_get id (Map_delete k (pending w)) = Map_get id (pending w)
                    \/ Map_get id (Map_delete k (pending w)) = None) as Hdel.
  { intros k. destruct (decide (k = id)) as [->|Hne].
    - right. apply Map_get_delete_eq.
    - left. by apply Map_get_delete_ne. }
  destruct op; simpl; try by left.
  - left. by destruct (create_frame request timeoutMs id0 w) as (-> & _).
  - left. simpl in Hreg. by rewrite Map_get_set_ne.
  - unfold resolve. destruct (Map_get recordId (pending w)); simpl;
      [apply Hdel | by left].
  - unfold fire. destruct (timers w !! handle) as [[tm|]|]; simpl; try by left.
    destruct (t_due tm <=? clock w); simpl; [apply Hdel | by left].
Qed.



(** ** Timers and pending records *)

(** X5. No record stays pending for ever: every pending entry owns an
    armed timer for its id, and once the clock has reached the due time
    of that timer the event loop can run it, which removes the entry and
    settles the waiter with [null]. *)
Theorem pending_entry_can_expire id entry w :
  world_ok w ->
  Map_get id (pending w) = Some entry ->
  exists tm,
    timers w !! e_timer entry = Some (Some tm) /\
    t_record_id tm = id /\
    forall dt,
      t_due tm <= clock w + Z.of_N dt ->
      exists w',
        fire (e_timer entry) (exec_op (OpTick dt) w) = Some w' /\
        getSnapshot id w' = None /\
        promises w' !! e_resolve entry = Some (Fulfilled None).
Proof.
  intros Hok He.
  destruct (ok_pending w Hok _ _ He) as (Heq & _ & tm & Htm & Hid).
  exists tm. split; [done|]. split; [done|]. intros dt Hdue.
  assert (world_ok (exec_op (OpTick dt) w)) as Hok' by by apply world_ok_exec_op.
  destruct (fire_fields (e_timer entry) tm (exec_op (OpTick dt) w) Hok' Htm Hdue)
    as (w' & Hf & Hp & _ & Hq & _).
  exists w'. split; [done|]. split.
  - apply getSnapshot_None. rewrite Hp, Hid. apply Map_get_delete_eq.
  - rewrite Hq, Heq. apply list_lookup_insert_eq.
    simpl. destruct (ok_timers w Hok _ _ Htm) as [_ Hpend].
    by apply lookup_lt_Some in Hpend.
Qed.

Lemma pending_entry_can_expire_witness :
  world_ok sample_waiting /\
  Map_get (str "dup-1") (pending sample_waiting) =
    Some {| e_record := sample_record; e_resolve := 0; e_timer := 0 |} /\
  exists tm, timers sample_waiting !! 0%nat = Some (Some tm) /\
             t_record_id tm = str "dup-1".
Proof.
  assert (world_ok sample_waiting) as Hok.
  { apply world_ok_waitForDecision, world_ok_initial. }
  split; [exact Hok|]. split; [reflexivity|].
  destruct (pending_entry_can_expire (str "dup-1") _ sample_waiting Hok eq_refl)
    as (tm & Htm & Hid & _).
  exists tm. split; [exact Htm | exact Hid].
Defined.

Lemma elem_of_armed_timers w t :
  t ∈ armed_timers w <-> exists tm, timers w !! t = Some (Some tm).
Proof.
  unfold armed_timers, is_armed. rewrite list_elem_of_filter, elem_of_seq.
  split.
  - intros [H _]. destruct (timers w !! t) as [[tm|]|]; try done. eauto.
  - intros [tm Htm]. rewrite Htm. split; [done|].
    apply lookup_lt_Some in Htm. lia.
Qed.

(** X6. When [waitForDecision] is only called for ids that are not
    pending, timers and pending records are in step: the armed timers are
    exactly the timers of the pending entries, one each, so there are as
    many armed timers as pending records and none is left armed when
    nothing is pending. *)
Theorem one_timer_per_pending_record w :
  world_ok w -> timers_tracked w ->
  armed_timers w ≡ₚ e_timer <$> Map_values (pending w) /\
  length (armed_timers w) = Map_size (pending w) /\
  (pending w = [] -> forall t, timers w !! t = Some None \/ timers w !! t = None).
Proof.
  intros Hok Htr.
  assert (armed_timers w ≡ₚ e_timer <$> Map_values (pending w)) as Hperm.
  { apply NoDup_Permutation.
    - unfold armed_timers. apply NoDup_filter, NoDup_seq.
    - unfold Map_values. rewrite <- list_fmap_compose.
      apply NoDup_fmap_2_strong; [|apply NoDup_fmap_1 with fst, (ok_keys w Hok)].
      intros [k e] [k' e'] Hin Hin' Heq. simpl in Heq.
      apply (Map_elem_of_get _ _ _ (ok_keys w Hok)) in Hin, Hin'.
      destruct (ok_pending w Hok _ _ Hin) as (_ & _ & tm & Htm & Hid).
      destruct (ok_pending w Hok _ _ Hin') as (_ & _ & tm' & Htm' & Hid').
      rewrite Heq in Htm. assert (k = k') as -> by congruence.
      congruence.
    - intros t. rewrite elem_of_armed_timers. unfold Map_values.
      rewrite <- list_fmap_compose, list_elem_of_fmap. split.
      + intros [tm Htm]. destruct (Htr _ _ Htm) as (e & He & Het).
        exists (t_record_id tm, e). split; [done|]. by apply Map_get_elem_of.
      + intros ([k e] & -> & Hin). simpl.
        apply (Map_elem_of_get _ _ _ (ok_keys w Hok)) in Hin.
        destruct (ok_pending w Hok _ _ Hin) as (_ & _ & tm & Htm & _). eauto. }
  split; [done|]. split.
  - rewrite Hperm. unfold Map_values, Map_size. by rewrite !length_fmap.
  - intros Hempty t. destruct (timers w !! t) as [[tm|]|] eqn:Htm; auto.
    destruct (Htr _ _ Htm) as (e & He & _). rewrite Hempty in He. done.
Qed.

Lemma one_timer_per_pending_record_witness :
  world_ok sample_waiting /\ timers_tracked sample_waiting /\
  length (armed_timers sample_waiting) = Map_size (pending sample_waiting).
Proof.
  assert (world_ok sample_waiting) as Hok.
  { apply world_ok_waitForDecision, world_ok_initial. }
  assert (timers_tracked sample_waiting) as Htr.
  { apply (timers_tracked_exec_op (OpWaitForDecision sample_record 2000)
             sample_world).
    - apply world_ok_initial.
    - apply timers_tracked_initial.
    - reflexivity. }
  split; [exact Hok|]. split; [exact Htr|].
  exact (proj1 (proj2 (one_timer_per_pending_record sample_waiting Hok Htr))).
Defined.

(** ** Trimming *)

Lemma trimStart_clean s : starts_clean (trimStart s).
Proof.
  induction s as [|c s IH]; simpl; [done|].
  by destruct (is_white_space c) eqn:Hc.
Qed.

Lemma trimStart_fixed s : starts_clean s -> trimStart s = s.
Proof. destruct s as [|c s]; simpl; [done|]. by intros ->. Qed.

Lemma trim_is_trimmed s : is_trimmed (trim s).
Proof.
  unfold is_trimmed, trim, trimEnd. rewrite rev_involutive. split.
  - destruct (trimStart_suffix (rev (trimStart s))) as [pre [Hr Hpre]].
    apply (f_equal (@rev _)) in Hr.
    rewrite rev_involutive, rev_app_distr in Hr.
    pose proof (trimStart_clean s) as Hclean. rewrite Hr in Hclean.
    destruct (rev (trimStart (rev (trimStart s)))) as [|c r] eqn:E; [done|].
    exact Hclean.
  - apply trimStart_clean.
Qed.

Lemma trim_fixed s : is_trimmed s -> trim s = s.
Proof.
  intros [H1 H2]. unfold trim, trimEnd.
  rewrite (trimStart_fixed s H1), (trimStart_fixed (rev s) H2).
  apply rev_involutive.
Qed.

(** X7. [normalizeOptionalString] yields canonical strings: what it
    returns has no white space at either end and is not empty, it returns
    a string that is already like that unchanged, and so normalizing its
    own result changes nothing. *)
Theorem normalizeOptionalString_canonical value t :
  normalizeOptionalString value = Some t ->
  is_trimmed t /\ t <> [] /\
  normalizeOptionalString (Val t) = Some t /\
  (forall s, is_trimmed s -> s <> [] -> normalizeOptionalString (Val s) = Some s).
Proof.
  intros H. apply normalizeOptionalString_Some in H as (s & -> & -> & Hne).
  assert (forall u, is_trimmed u -> u <> [] ->
                    normalizeOptionalString (Val u) = Some u) as Hfix.
  { intros u Hu Hnil. simpl. rewrite (trim_fixed u Hu). by destruct u. }
  split; [apply trim_is_trimmed|]. split; [done|].
  split; [|done]. apply Hfix; [apply trim_is_trimmed | done].
Qed.

Lemma normalizeOptionalString_canonical_witness :
  normalizeOptionalString (Val (str "  /tmp ")) = Some (str "/tmp") /\
  normalizeOptionalString (Val (str "/tmp")) = Some (str "/tmp").
Proof.
  split; [reflexivity|].
  exact (proj1 (proj2 (proj2 (normalizeOptionalString_canonical
                                (Val (str "  /tmp ")) (str "/tmp") eq_refl)))).
Defined.

(** ** Ids *)

(** X8. The id [create] takes from the caller is canonical: it is the
    supplied string without the white space around it, it is not empty,
    and a record created under the id of another record gets the same
    id, whatever else differs. *)
Theorem create_supplied_id_canonical request timeoutMs s w :
  trim s <> [] ->
  let record := fst (create request timeoutMs (Val s) w) in
  r_id record = trim s /\ r_id record <> [] /\ is_trimmed (r_id record) /\
  forall request' timeoutMs' w',
    r_id (fst (create request' timeoutMs' (Val (r_id record)) w')) =
    r_id record.
Proof.
  intros Hne.
  assert (forall request0 timeoutMs0 u w0, trim u <> [] ->
    r_id (fst (create request0 timeoutMs0 (Val u) w0)) = trim u) as Hid.
  { intros request0 timeoutMs0 u w0 Hu. unfold create.
    destruct (decide (u <> [] /\ (0 < length (trim u))%nat)) as [_|Hn];
      [done|].
    exfalso. apply Hn. split; [by intros ->|].
    destruct (trim u); [done | simpl; lia]. }
  cbv zeta. rewrite (Hid request timeoutMs s w Hne).
  split; [done|]. split; [done|]. split; [apply trim_is_trimmed|].
  intros request' timeoutMs' w'.
  rewrite Hid; rewrite (trim_fixed _ (trim_is_trimmed s)); done.
Qed.

Lemma create_supplied_id_canonical_witness :
  trim (str " dup-1 ") <> [] /\ r_id sample_record = str "dup-1".
Proof.
  assert (trim (str " dup-1 ") <> []) as Hne by (vm_compute; discriminate).
  split; [exact Hne|].
  exact (proj1 (create_supplied_id_canonical sample_request 2000
                  (str " dup-1 ") sample_world Hne)).
Defined.

Lemma uuid_exec_op op w :
  uuid_source (exec_op op w) = uuid_source w /\
  (uuid_count w <= uuid_count (exec_op op w))%nat.
Proof.
  destruct op; simpl; try done.
  - unfold create. destruct id as [| |s]; simpl; try (split; [done | lia]).
    destruct (decide _); simpl; split; try done; lia.
  - unfold resolve. by destruct (Map_get recordId (pending w)).
  - unfold fire. destruct (timers w !! handle) as [[tm|]|]; simpl; try done.
    by destruct (t_due tm <=? clock w).
Qed.

Lemma uuid_exec_ops ops w :
  uuid_source (exec_ops ops w) = uuid_source w /\
  (uuid_count w <= uuid_count (exec_ops ops w))%nat.
Proof.
  revert w. induction ops as [|op ops IH]; intros w; [done|].
  simpl. destruct (uuid_exec_op op w) as [Hs Hc].
  destruct (IH (exec_op op w)) as [Hs' Hc']. split; [congruence | lia].
Qed.

(** Does the caller leave the id to [create]? *)
Lemma create_generates request timeoutMs id w :
  match id with Val s => trim s = [] | _ => True end ->
  r_id (fst (create request timeoutMs id w)) = uuid_source w (uuid_count w) /\
  uuid_count (snd (create request timeoutMs id w)) = S (uuid_count w) /\
  uuid_source (snd (create request timeoutMs id w)) = uuid_source w.
Proof.
  unfold create. destruct id as [| |s]; simpl; try done.
  intros Hs. destruct (decide (s <> [] /\ (0 < length (trim s))%nat))
    as [[_ Hl]|_]; [|done].
  rewrite Hs in Hl. simpl in Hl. lia.
Qed.

(** X9. Ids that [create] generates are never reused as long as
    [randomUUID] does not repeat itself: two records created without a
    usable id, with anything happening to the store in between, have
    different ids. *)
Theorem generated_ids_differ request timeoutMs id ops request' timeoutMs'
    id' w :
  (forall m n, uuid_source w m = uuid_source w n -> m = n) ->
  match id with Val s => trim s = [] | _ => True end ->
  match id' with Val s => trim s = [] | _ => True end ->
  let first := create request timeoutMs id w in
  let second := create request' timeoutMs' id' (exec_ops ops (snd first)) in
  r_id (fst first) <> r_id (fst second).
Proof.
  intros Hinj Hid Hid' first second.
  destruct (create_generates request timeoutMs id w Hid) as (H1 & Hc1 & Hs1).
  fold first in H1, Hc1, Hs1.
  destruct (uuid_exec_ops ops (snd first)) as [Hs2 Hc2].
  destruct (create_generates request' timeoutMs' id'
              (exec_ops ops (snd first)) Hid') as (H2 & _).
  fold second in H2. rewrite H1, H2, Hs2, Hs1. intros Heq.
  apply Hinj in Heq. lia.
Qed.

Lemma sample_uuids_inj m n : sample_uuids m = sample_uuids n -> m = n.
Proof.
  unfold sample_uuids. intros H. apply app_inv_head in H.
  injection H as H. lia.
Qed.

Lemma generated_ids_differ_witness :
  (forall m n, uuid_source sample_world m = uuid_source sample_world n -> m = n) /\
  trim (str "  ") = [] /\
  r_id (fst (create sample_request 2000 Undefined sample_world)) <>
  r_id (fst (create sample_request 500 (Val (str "  "))
               (exec_ops [OpTick 3]
                  (snd (create sample_request 2000 Undefined sample_world))))).
Proof.
  split; [exact sample_uuids_inj|]. split; [reflexivity|].
  exact (generated_ids_differ sample_request 2000 Undefined [OpTick 3]
           sample_request 500 (Val (str "  ")) sample_world
           sample_uuids_inj I eq_refl).
Defined.

(** ** [create] *)

(** C6. [create] returns a record with [createdAtMs = now],
    [expiresAtMs = createdAtMs + timeoutMs] and the given request.  When
    the supplied id is a string that does not consist of white space
    only, the id of the record is that string trimmed: what is left of it
    between white space at either end, not empty, with no white space at
    its own ends.  Otherwise it is the next result of [randomUUID()]; as
    long as [randomUUID()] does not repeat itself, that id was not
    generated before and no later call generates it again.  [create]
    changes neither the pending map nor any timer or promise, so
    [getSnapshot] and [listPending] answer as before. *)
Theorem create_spec request timeoutMs id w :
  let record := fst (create request timeoutMs id w) in
  let w' := snd (create request timeoutMs id w) in
  let supplied s :=
    r_id record = trim s /\ uuid_count w' = uuid_count w /\
    r_id record <> [] /\ is_trimmed (r_id record) /\
    exists before after,
      s = before ++ r_id record ++ after /\
      forallb is_white_space before = true /\
      forallb is_white_space after = true in
  let generated :=
    r_id record = uuid_source w (uuid_count w) /\
    uuid_count w' = S (uuid_count w) /\
    ((forall m n, uuid_source w m = uuid_source w n -> m = n) ->
     (forall n, (n < uuid_count w)%nat -> uuid_source w n <> r_id record) /\
     forall ops request' timeoutMs' id',
       match id' with
       | Val s' => forallb is_white_space s' = true
       | _ => True
       end ->
       r_id (fst (create request' timeoutMs' id' (exec_ops ops w'))) <>
       r_id record) in
  r_createdAtMs record = Date_now w /\
  r_expiresAtMs record = r_createdAtMs record + timeoutMs /\
  r_request record = request /\
  r_resolvedAtMs record = None /\ r_decision record = None /\
  match id with
  | Val s => if forallb is_white_space s then generated else supplied s
  | _ => generated
  end /\
  pending w' = pending w /\ timers w' = timers w /\
  promises w' = promises w /\ resumed w' = resumed w /\
  clock w' = clock w /\
  (forall recordId, getSnapshot recordId w' = getSnapshot recordId w) /\
  (forall localeCompare nowMs,
     listPending localeCompare nowMs w' = listPending localeCompare nowMs w).
Proof.
  intros record w' supplied generated.
  destruct (create_frame request timeoutMs id w)
    as (Hp & Hc & Ht & Hq & Hr & _). fold w' in Hp, Hc, Ht, Hq, Hr.
  assert (r_createdAtMs record = Date_now w /\
          r_expiresAtMs record = r_createdAtMs record + timeoutMs /\
          r_request record = request /\
          r_resolvedAtMs record = None /\ r_decision record = None)
    as (Hcreated & Hexpires & Hrequest & Hresolved & Hdecision).
  { subst record. unfold create. destruct id as [| |s]; simpl; try done.
    by destruct (decide _). }
  assert (match id with Val s => trim s = [] | _ => True end -> generated)
    as Hgenerated.
  { intros Hid.
    destruct (create_generates request timeoutMs id w Hid) as (H1 & Hc1 & Hs1).
    fold record in H1. fold w' in Hc1, Hs1.
    split; [done|]. split; [done|]. intros Hinj. split.
    - intros n Hn Heq. rewrite H1 in Heq. apply Hinj in Heq. lia.
    - intros ops request' timeoutMs' id' Hid'.
      destruct (uuid_exec_ops ops w') as [Hs2 Hc2].
      destruct (create_generates request' timeoutMs' id' (exec_ops ops w'))
        as (H2 & _).
      { destruct id' as [| |s']; try done. by apply trim_blank. }
      rewrite H2, H1, Hs2, Hs1. intros Heq. apply Hinj in Heq. lia. }
  assert (forall s, id = Val s -> forallb is_white_space s = false ->
                    supplied s) as Hsupplied.
  { intros s -> Hs.
    assert (trim s <> []) as Htrim.
    { intros Hnil. apply trim_blank in Hnil. congruence. }
    assert (record = fst (create request timeoutMs (Val s) w)) as Hrec by done.
    assert (r_id record = trim s /\ w' = w) as [Hid ->].
    { subst record w'. unfold create.
      destruct (decide (s <> [] /\ (0 < length (trim s))%nat)) as [_|Hn];
        [done|].
      exfalso. apply Hn. split.
      - intros ->. by apply Htrim.
      - destruct (trim s); [done|simpl; lia]. }
    split; [done|]. split; [done|]. rewrite Hid.
    split; [done|]. split; [apply trim_is_trimmed|]. apply trim_decompose. }
  split_and!; try done.
  - destruct id as [| |s]; [by apply Hgenerated..|].
    destruct (forallb is_white_space s) eqn:Hs.
    + apply Hgenerated. by apply trim_blank.
    + by apply Hsupplied.
  - intros recordId. unfold getSnapshot. by rewrite Hp.
  - intros localeCompare nowMs. unfold listPending, listing_now, Date_now.
    by rewrite Hp, Hc.
Qed.

Lemma create_spec_witness :
  r_id (fst (create sample_request 2000 (Val (str " dup-1 ")) sample_world)) =
    str "dup-1" /\
  r_id (fst (create sample_request 2000 (Val (str "  ")) sample_world)) =
    str "uuid-0" /\
  r_id (fst (create sample_request 2000 Null
               (exec_ops [OpTick 3]
                  (snd (create sample_request 2000 (Val (str "  "))
                          sample_world))))) <>
  r_id (fst (create sample_request 2000 (Val (str "  ")) sample_world)).
Proof.
  split; [|split].
  - exact (proj1 (proj1 (proj2 (proj2 (proj2 (proj2 (proj2
             (create_spec sample_request 2000 (Val (str " dup-1 "))
                sample_world)))))))).
  - exact (proj1 (proj1 (proj2 (proj2 (proj2 (proj2 (proj2
             (create_spec sample_request 2000 (Val (str "  "))
                sample_world)))))))).
  - exact (proj2 (proj2 (proj2 (proj1 (proj2 (proj2 (proj2 (proj2 (proj2
             (create_spec sample_request 2000 (Val (str "  "))
                sample_world)))))))) sample_uuids_inj)
             [OpTick 3] sample_request 2000 Null I).
Defined.

(** ** Deadlines *)

(** X10. For a record made by [create] and registered later with the
    same timeout (between 1 ms and 2^31-1 ms), the expiry timer is due at
    the record's [expiresAtMs] plus the time by which [Date.now()]
    advanced between the two calls, timers and [Date.now()] running on
    one clock: at [expiresAtMs] itself only when the record is registered
    at the instant it was created.  A listing shows time left exactly
    while [now < expiresAtMs]; so a record registered late is listed with
    [expiresInMs = 0] from [expiresAtMs] until its timer is due. *)
Theorem created_record_deadline request timeoutMs id ops w :
  1 <= timeoutMs <= 2147483647 ->
  let record := fst (create request timeoutMs id w) in
  let w1 := exec_ops ops (snd (create request timeoutMs id w)) in
  let w2 := snd (waitForDecision record timeoutMs w1) in
  let entry := {| e_record := record; e_resolve := length (promises w1);
                  e_timer := length (timers w1) |} in
  let due := r_expiresAtMs record + (Date_now w1 - r_createdAtMs record) in
  Map_get (r_id record) (pending w2) = Some entry /\
  timers w2 !! length (timers w1) =
    Some (Some {| t_due := due; t_record_id := r_id record;
                  t_resolve := length (promises w1) |}) /\
  (due = r_expiresAtMs record <-> Date_now w1 = r_createdAtMs record) /\
  (forall now,
     0 < i_expiresInMs (pending_item now entry) <->
     now < r_expiresAtMs record) /\
  (forall now,
     r_expiresAtMs record <= now < due ->
     i_expiresInMs (pending_item now entry) = 0).
Proof.
  intros Hrange record w1 w2 entry due.
  destruct (waitForDecision_fields record timeoutMs w1)
    as (_ & Hp2 & Ht2 & _). fold w2 in Hp2, Ht2.
  assert (r_expiresAtMs record = r_createdAtMs record + timeoutMs) as Hexp.
  { subst record. unfold create. destruct id as [| |s]; simpl; try done.
    by destruct (decide _). }
  assert (timer_delay timeoutMs = timeoutMs) as Hdelay.
  { unfold timer_delay.
    destruct (Z.ltb_spec timeoutMs 1), (Z.ltb_spec 2147483647 timeoutMs);
      simpl; lia. }
  split_and!.
  - rewrite Hp2. apply Map_get_set_eq.
  - rewrite Ht2, list_lookup_middle by done. rewrite Hdelay.
    do 3 f_equal. subst due. unfold Date_now. lia.
  - subst due. lia.
  - intros now. simpl. lia.
  - intros now Hnow. simpl. lia.
Qed.

Lemma created_record_deadline_witness :
  1 <= 2000 <= 2147483647 /\
  r_expiresAtMs sample_record = 3000 /\
  timers (snd (waitForDecision sample_record 2000
                 (exec_ops [OpTick 5] sample_world))) !! 0%nat =
    Some (Some {| t_due := 3005; t_record_id := str "dup-1";
                  t_resolve := 0 |}).
Proof.
  assert (1 <= 2000 <= 2147483647) as Hrange by lia.
  split; [exact Hrange|]. split; [reflexivity|].
  exact (proj1 (proj2 (created_record_deadline sample_request 2000
                         (Val (str " dup-1 ")) [OpTick 5] sample_world
                         Hrange))).
Defined.

(** X11. The two durations of a snapshot move with the instant asked
    for: for [nowMs] not after [nowMs'], the instant measured against is
    not later, the waiting time is not longer and the time left is not
    shorter; neither is ever negative; and between creation and expiry
    the two add up to the record's whole timeout. *)
Theorem listing_durations_monotone entry q q' w :
  (q <= q')%Q ->
  let n := listing_now (Some (Num q)) w in
  let n' := listing_now (Some (Num q')) w in
  n <= n' /\
  0 <= i_waitingMs (pending_item n entry) <=
    i_waitingMs (pending_item n' entry) /\
  0 <= i_expiresInMs (pending_item n' entry) <=
    i_expiresInMs (pending_item n entry) /\
  (r_createdAtMs (e_record entry) <= n <= r_expiresAtMs (e_record entry) ->
   i_waitingMs (pending_item n entry) + i_expiresInMs (pending_item n entry) =
   r_expiresAtMs (e_record entry) - r_createdAtMs (e_record entry)).
Proof.
  intros Hle n n'.
  assert (n <= n') as Hn.
  { subst n n'. rewrite !listing_now_finite.
    pose proof (Qfloor_resp_le q q' Hle). lia. }
  simpl. split; [done|]. split; [lia|]. split; lia.
Qed.

Lemma listing_durations_monotone_witness :
  (1500 # 1 <= 3001 # 2)%Q /\
  i_waitingMs (pending_item (listing_now (Some (Num (1500 # 1))) sample_waiting)
                 {| e_record := sample_record; e_resolve := 0; e_timer := 0 |})
  <= i_waitingMs
       (pending_item (listing_now (Some (Num (3001 # 2))) sample_waiting)
          {| e_record := sample_record; e_resolve := 0; e_timer := 0 |}).
Proof.
  assert (1500 # 1 <= 3001 # 2)%Q as Hle by (vm_compute; discriminate).
  split; [exact Hle|].
  exact (proj2 (proj1 (proj2 (listing_durations_monotone
    {| e_record := sample_record; e_resolve := 0; e_timer := 0 |}
    (1500 # 1) (3001 # 2) sample_waiting Hle)))).
Defined.

(** ** The order of a listing *)

Lemma lex_compare_antisym a b :
  lex_compare a b <= 0 -> lex_compare b a <= 0 -> a = b.
Proof.
  revert b. induction a as [|x a IH]; intros [|y b]; simpl; try lia; [done|].
  destruct (N.ltb_spec x y), (N.ltb_spec y x); try lia.
  intros H1 H2. f_equal; [lia | by apply IH].
Qed.

Lemma NoDup_fmap_elem_inj {A B} (f : A -> B) (l : list A) x y :
  NoDup (f <$> l) -> x ∈ l -> y ∈ l -> f x = f y -> x = y.
Proof.
  induction l as [|z l IH]; simpl; intros Hnd Hx Hy Heq.
  - by apply elem_of_nil in Hx.
  - apply NoDup_cons in Hnd as [Hz Hnd].
    apply elem_of_cons in Hx as [->|Hx], Hy as [->|Hy]; [done| | |by apply IH].
    + exfalso. apply Hz. rewrite Heq. by apply list_elem_of_fmap_2.
    + exfalso. apply Hz. rewrite <- Heq. by apply list_elem_of_fmap_2.
Qed.



(* ===================================================================== *)
(** * Properties of the configuration paths *)
(* ===================================================================== *)

(** Induction on a configuration, with the hypothesis for every item of
    an array and every field of an object. *)
Lemma Value_nested_ind (P : Value -> Prop) :
  P VUndefined -> P VNull -> (forall b, P (VBoolean b)) ->
  (forall n, P (VNumber n)) -> (forall s, P (VString s)) ->
  (forall items, Forall P items -> P (VArray items)) ->
  (forall fields, Forall (fun field => P field.2) fields -> P (VObject fields)) ->
  forall v, P v.
Proof.
  intros Hu Hn Hb Hnum Hs Ha Ho. fix IH 1. intros [| |b|n|s|items|fields].
  - exact Hu.
  - exact Hn.
  - apply Hb.
  - apply Hnum.
  - apply Hs.
  - apply Ha. induction items as [|item items IHitems]; constructor.
    + apply IH.
    + exact IHitems.
  - apply Ho. induction fields as [|[key child] fields IHfields]; constructor.
    + apply IH.
    + exact IHfields.
Qed.

Section ConfigPathFacts.

Variable inherited : jsstring -> bool.
Variable Number_toString : Z -> jsstring.

Local Abbreviation member' := (member inherited).
Local Abbreviation formatPath' := (formatPath Number_toString).
Local Abbreviation formatPath_part' := (formatPath_part Number_toString).
Local Abbreviation formatPath_suffix' := (formatPath_suffix Number_toString).
Local Abbreviation resolvePathTarget' := (resolvePathTarget inherited).
Local Abbreviation getValueAtPath' := (getValueAtPath inherited).
Local Abbreviation setValueAtPath' := (setValueAtPath inherited).

(** *** [formatPath] *)

Lemma str_root_nonempty : str "<root>" <> [].
Proof. discriminate. Qed.

Lemma str_bracket_nonempty s : str "[" ++ s <> [].
Proof. discriminate. Qed.

#[local] Opaque str.

Lemma formatPath_part_nonempty out part :
  out <> [] -> formatPath_part' out part <> [].
Proof.
  intros Hout. destruct part as [key|index]; cbn [formatPath_part].
  - by destruct out.
  - by destruct out.
Qed.

Lemma formatPath_foldl_nonempty parts out :
  out <> [] -> foldl formatPath_part' out parts <> [].
Proof.
  revert out. induction parts as [|part parts IH]; intros out Hout; simpl.
  - done.
  - by apply IH, formatPath_part_nonempty.
Qed.

Lemma formatPath_foldl_suffixes parts out :
  out <> [] ->
  foldl formatPath_part' out parts =
  out ++ concat (formatPath_suffix' <$> parts).
Proof.
  revert out. induction parts as [|part parts IH]; intros out Hout.
  - simpl. by rewrite app_nil_r.
  - cbn [foldl]. rewrite IH by by apply formatPath_part_nonempty.
    rewrite fmap_cons. cbn [concat].
    destruct part as [key|index]; cbn [formatPath_part formatPath_suffix].
    + destruct out; [done|]. by rewrite <- !app_assoc.
    + by rewrite <- !app_assoc.
Qed.

Lemma formatPath_foldl_empty_keys parts :
  Forall (fun part => part = PKey []) parts ->
  foldl formatPath_part' [] parts = [].
Proof.
  induction 1 as [|part parts -> _ IH]; [done|]. exact IH.
Qed.

(** X14. [formatPath] never returns the empty string; empty keys at the
    front of a path leave no trace, so a path of empty keys only is
    rendered like the empty path, as ["<root>"]. *)
Theorem formatPath_never_empty parts :
  formatPath Number_toString parts <> [] /\
  formatPath Number_toString (PKey [] :: parts) = formatPath Number_toString parts /\
  (Forall (fun part => part = PKey []) parts ->
   formatPath Number_toString parts = str "<root>").
Proof.
  split_and!.
  - destruct parts as [|part parts]; [apply str_root_nonempty|].
    unfold formatPath.
    destruct (foldl formatPath_part' [] (part :: parts)) eqn:Hout;
      [apply str_root_nonempty | done].
  - destruct parts as [|part parts]; [done|]. done.
  - intros Hparts. destruct parts as [|part parts]; [done|].
    unfold formatPath. by rewrite formatPath_foldl_empty_keys.
Qed.

(** What the first part of a path is rendered as. *)
Lemma formatPath_first first :
  first <> PKey [] -> formatPath_part' [] first <> [].
Proof.
  destruct first as [key|index]; cbn [formatPath_part].
  - intros Hkey ->. done.
  - intros _. rewrite app_nil_l. apply str_bracket_nonempty.
Qed.

(** X15. A path that does not start with the empty key is rendered part
    by part: the first key as it is, every later key behind a dot, every
    index in brackets. *)
Theorem formatPath_dotted first rest :
  first <> PKey [] ->
  formatPath Number_toString (first :: rest) =
  match first with
  | PKey key => key
  | PIndex index => str "[" ++ Number_toString index ++ str "]"
  end ++ concat (formatPath_suffix Number_toString <$> rest).
Proof.
  intros Hfirst. unfold formatPath. cbn [foldl].
  pose proof (formatPath_first first Hfirst) as Hout.
  rewrite formatPath_foldl_suffixes by done.
  assert (formatPath_part' [] first =
          match first with
          | PKey key => key
          | PIndex index => str "[" ++ Number_toString index ++ str "]"
          end) as Heq by by destruct first.
  rewrite Heq in *.
  destruct (_ ++ concat _) eqn:Happ; [|done].
  apply app_eq_nil in Happ as [Hnil _]. done.
Qed.

#[local] Transparent str.

(** *** The walks *)

Lemma out_of_range_insert part i v items :
  out_of_range part (<[i := v]> items) = out_of_range part items.
Proof. unfold out_of_range. by rewrite length_insert. Qed.

Lemma out_of_range_false part items :
  out_of_range part items = false ->
  0 <= part /\ (Z.to_nat part < length items)%nat.
Proof. unfold out_of_range. intros H. apply orb_false_iff in H. lia. Qed.

Lemma item_at_insert_eq part v items :
  out_of_range part items = false ->
  item_at part (<[Z.to_nat part := v]> items) = v.
Proof.
  intros [_ Hlt]%out_of_range_false. unfold item_at.
  apply nth_lookup_Some. by apply list_lookup_insert_eq.
Qed.

Lemma item_at_insert_ne part part' v items :
  part <> part' ->
  out_of_range part items = false -> out_of_range part' items = false ->
  item_at part' (<[Z.to_nat part := v]> items) = item_at part' items.
Proof.
  intros Hne [H0 _]%out_of_range_false [H0' Hlt]%out_of_range_false.
  unfold item_at. destruct (lookup_lt_is_Some_2 items _ Hlt) as [x Hx].
  rewrite (nth_lookup_Some _ _ _ _ Hx). apply nth_lookup_Some.
  rewrite list_lookup_insert_ne by lia. exact Hx.
Qed.

Lemma member_Own fields part v :
  member' fields part = Own v <-> Map_get part fields = Some v.
Proof.
  unfold member. destruct (Map_get part fields).
  - split; congruence.
  - destruct (inherited part); split; congruence.
Qed.

Lemma member_set_eq fields part v :
  member' (Map_set part v fields) part = Own v.
Proof. apply member_Own, Map_get_set_eq. Qed.

Lemma member_set_ne fields part part' v :
  part <> part' ->
  member' (Map_set part v fields) part' = member' fields part'.
Proof. intros Hne. unfold member. by rewrite Map_get_set_ne. Qed.

Lemma resolvePathTarget_failed path :
  resolvePathTarget' VNull path = Some VNull.
Proof. by destruct path as [|[key|index] rest]. Qed.

Lemma getValueAtPath_failed path :
  getValueAtPath' VUndefined path = Some VUndefined.
Proof. by destruct path as [|[key|index] rest]. Qed.



Lemma setValueAtPath_descend root part rest value :
  rest <> [] ->
  setValueAtPath' root (part :: rest) value =
  match part, root with
  | PIndex part, VArray items =>
      if out_of_range part items then not_set root
      else
        set_inside root
          (fun item => VArray (<[Z.to_nat part := item]> items))
          (setValueAtPath' (item_at part items) rest value)
  | PKey part, VObject fields =>
      match member' fields part with
      | Own v =>
          set_inside root
            (fun v' => VObject (Map_set part v' fields))
            (setValueAtPath' v rest value)
      | Inherited =>
          if decide (part = str "__proto__")
          then setValueAtPath_prototype inherited root rest
          else not_set root
      | Missing => not_set root
      end
  | _, _ => not_set root
  end.
Proof. by destruct rest. Qed.

Lemma setValueAtPath_leaf root part value :
  setValueAtPath' root [part] value =
  match part, root with
  | PIndex leaf, VArray items =>
      if out_of_range leaf items then not_set root
      else set_own (VArray (<[Z.to_nat leaf := VString value]> items))
  | PKey leaf, VObject fields =>
      match member' fields leaf with
      | Own _ => set_own (VObject (Map_set leaf (VString value) fields))
      | Inherited =>
          if decide (leaf = str "__proto__") then set_own root
          else set_own (VObject (Map_set leaf (VString value) fields))
      | Missing => not_set root
      end
  | _, _ => not_set root
  end.
Proof. done. Qed.

Lemma setValueAtPath_prototype_config root rest :
  set_config (setValueAtPath_prototype inherited root rest) = root.
Proof.
  destruct rest as [|[leaf|index] [|part rest]]; try done. simpl.
  destruct (inherited leaf); [|done]. by destruct (decide _).
Qed.

Lemma setValueAtPath_prototype_false root rest :
  set_returned (setValueAtPath_prototype inherited root rest) = false ->
  setValueAtPath_prototype inherited root rest = not_set root.
Proof.
  destruct rest as [|[leaf|index] [|part rest]]; try done. simpl.
  destruct (inherited leaf); [|done]. by destruct (decide _).
Qed.

Lemma set_inside_false root rebuild inner :
  set_returned (set_inside root rebuild inner) = false ->
  set_inside root rebuild inner = not_set root.
Proof. unfold set_inside. by destruct (set_returned inner). Qed.

Lemma setValueAtPath_false root path value :
  set_returned (setValueAtPath' root path value) = false ->
  setValueAtPath' root path value = not_set root.
Proof.
  destruct path as [|part rest]; [done|].
  destruct rest as [|part' rest'].
  - rewrite setValueAtPath_leaf.
    destruct part as [key|index], root as [| |b|n|s|items|fields];
      try done.
    + destruct (member' fields key); try done. by destruct (decide _).
    + by destruct (out_of_range index items).
  - rewrite setValueAtPath_descend by done.
    destruct part as [key|index], root as [| |b|n|s|items|fields]; try done.
    + destruct (member' fields key) as [child| |]; try done.
      * apply set_inside_false.
      * destruct (decide _); [apply setValueAtPath_prototype_false|done].
    + destruct (out_of_range index items); [done|]. apply set_inside_false.
Qed.

Lemma walk_index items index q :
  out_of_range index items = false ->
  getValueAtPath' (VArray items) (PIndex index :: q) =
    getValueAtPath' (item_at index items) q /\
  resolvePathTarget' (VArray items) (PIndex index :: q) =
    resolvePathTarget' (item_at index items) q.
Proof. intros Hr. simpl. by rewrite Hr. Qed.

Lemma walk_key fields key child q :
  Map_get key fields = Some child ->
  getValueAtPath' (VObject fields) (PKey key :: q) =
    getValueAtPath' child q /\
  resolvePathTarget' (VObject fields) (PKey key :: q) =
    resolvePathTarget' child q.
Proof. intros Hm. apply member_Own in Hm. simpl. by rewrite Hm. Qed.

Lemma Map_set_same {V} (k : jsstring) (v : V) (m : JsMap V) :
  Map_get k m = Some v -> Map_set k v m = m.
Proof.
  induction m as [|[k' v'] m IH]; [done|]. simpl.
  destruct (decide (k' = k)) as [->|Hne].
  - by intros [= ->].
  - intros Hget. by rewrite IH.
Qed.

Lemma insert_item_at index items :
  out_of_range index items = false ->
  <[Z.to_nat index := item_at index items]> items = items.
Proof.
  intros [_ Hlt]%out_of_range_false. apply list_insert_id.
  destruct (lookup_lt_is_Some_2 items _ Hlt) as [x Hx].
  unfold item_at. by rewrite (nth_lookup_Some _ _ _ _ Hx).
Qed.

(** Where a step into a child leaves the configuration: as it was, or
    with the child as the rest of the call left it. *)
Lemma setValueAtPath_descend_config root part rest value :
  rest <> [] ->
  set_config (setValueAtPath' root (part :: rest) value) = root \/
  (exists items index,
     part = PIndex index /\ root = VArray items /\
     out_of_range index items = false /\
     set_returned (setValueAtPath' (item_at index items) rest value) = true /\
     setValueAtPath' root (part :: rest) value =
       set_inside root
         (fun item => VArray (<[Z.to_nat index := item]> items))
         (setValueAtPath' (item_at index items) rest value)) \/
  (exists fields key child,
     part = PKey key /\ root = VObject fields /\
     Map_get key fields = Some child /\
     set_returned (setValueAtPath' child rest value) = true /\
     setValueAtPath' root (part :: rest) value =
       set_inside root (fun v' => VObject (Map_set key v' fields))
         (setValueAtPath' child rest value)).
Proof.
  intros Hrest. rewrite setValueAtPath_descend by done.
  destruct part as [key|index], root as [| |b|n|s|items|fields];
    try by left.
  - destruct (member' fields key) as [child| |] eqn:Hm; [| |by left].
    + destruct (set_returned (setValueAtPath' child rest value)) eqn:Hret.
      * right. right. apply member_Own in Hm. exists fields, key, child.
        by split_and!.
      * left. unfold set_inside. by rewrite Hret.
    + left. destruct (decide _); [apply setValueAtPath_prototype_config|done].
  - destruct (out_of_range index items) eqn:Hr; [by left|].
    destruct (set_returned (setValueAtPath' (item_at index items) rest value))
      eqn:Hret.
    + right. left. exists items, index. by split_and!.
    + left. unfold set_inside. by rewrite Hret.
Qed.

(** Where any call leaves the configuration: as it was, or with one slot
    of the root, an item in range or a field, holding something else. *)
Lemma setValueAtPath_config root part rest value :
  set_config (setValueAtPath' root (part :: rest) value) = root \/
  (exists items index x,
     part = PIndex index /\ root = VArray items /\
     out_of_range index items = false /\
     set_config (setValueAtPath' root (part :: rest) value) =
       VArray (<[Z.to_nat index := x]> items)) \/
  (exists fields key x,
     part = PKey key /\ root = VObject fields /\
     set_config (setValueAtPath' root (part :: rest) value) =
       VObject (Map_set key x fields)).
Proof.
  destruct rest as [|part' rest'].
  - rewrite setValueAtPath_leaf.
    destruct part as [key|index], root as [| |b|n|s|items|fields];
      try by left.
    + destruct (member' fields key); [| |by left].
      * right. right. by eexists _, _, _.
      * destruct (decide _); [by left|]. right. right. by eexists _, _, _.
    + destruct (out_of_range index items) eqn:Hr; [by left|].
      right. left. by eexists _, _, _.
  - destruct (setValueAtPath_descend_config root part (part' :: rest') value)
      as [Hsame|[(items & index & -> & -> & Hr & Hret & ->)
                |(fields & key & child & -> & -> & Hm & Hret & ->)]];
      [done|by left| |].
    + right. left. unfold set_inside. rewrite Hret. by eexists _, _, _.
    + right. right. unfold set_inside. rewrite Hret. by eexists _, _, _.
Qed.

Lemma setValueAtPath_frame root p value q :
  diverge p q ->
  getValueAtPath' (set_config (setValueAtPath' root p value)) q =
    getValueAtPath' root q /\
  resolvePathTarget' (set_config (setValueAtPath' root p value)) q =
    resolvePathTarget' root q.
Proof.
  intros (common & a & b & p' & q' & -> & -> & Hab).
  revert root. induction common as [|c common IH]; intros root.
  - cbn [app].
    destruct (setValueAtPath_config root a p' value)
      as [->|[(items & index & x & -> & -> & Hr & ->)
             |(fields & key & x & -> & -> & ->)]]; [done| |].
    + destruct b as [key'|index']; [done|].
      simpl. rewrite out_of_range_insert.
      destruct (out_of_range index' items) eqn:Hr'; [done|].
      rewrite item_at_insert_ne; [done|congruence|done..].
    + destruct b as [key'|index']; [|done].
      simpl. rewrite member_set_ne by congruence. done.
  - cbn [app].
    destruct (setValueAtPath_descend_config root c (common ++ a :: p') value)
      as [->|[(items & index & -> & -> & Hr & Hret & ->)
             |(fields & key & child & -> & -> & Hm & Hret & ->)]];
      [by destruct common|done| |].
    + unfold set_inside. rewrite Hret. cbn [set_config].
      destruct (walk_index (<[Z.to_nat index :=
                    set_config (setValueAtPath' (item_at index items)
                                  (common ++ a :: p') value)]> items) index
                  (common ++ b :: q')) as [-> ->];
        [by rewrite out_of_range_insert|].
      destruct (walk_index items index (common ++ b :: q')) as [-> ->];
        [done|].
      rewrite item_at_insert_eq by done. apply IH.
    + unfold set_inside. rewrite Hret. cbn [set_config].
      destruct (walk_key (Map_set key
                    (set_config (setValueAtPath' child (common ++ a :: p')
                                   value)) fields) key
                  (set_config (setValueAtPath' child (common ++ a :: p') value))
                  (common ++ b :: q')) as [-> ->]; [apply Map_get_set_eq|].
      destruct (walk_key fields key child (common ++ b :: q')) as [-> ->];
        [done|].
      apply IH.
Qed.

(** Where a walk finds a string, [setValueAtPath] writes, inside the
    configuration, and the walk finds what it wrote. *)
Lemma setValueAtPath_found root p s value :
  p <> [] ->
  getValueAtPath' root p = Some (VString s) ->
  exists root',
    setValueAtPath' root p value = set_own root' /\
    getValueAtPath' root' p = Some (VString value) /\
    resolvePathTarget' root' p = Some (VString value).
Proof.
  revert root. induction p as [|part rest IH]; intros root Hp Hget; [done|].
  destruct rest as [|part' rest'].
  - destruct part as [key|index], root as [| |b|n|s'|items|fields];
      try done; simpl in *.
    + destruct (member' fields key) as [child| |]; try done.
      eexists. split; [done|]. simpl. by rewrite member_set_eq.
    + destruct (out_of_range index items) eqn:Hr; [done|].
      eexists. split; [done|]. simpl.
      by rewrite out_of_range_insert, Hr, item_at_insert_eq.
  - rewrite setValueAtPath_descend by done.
    destruct part as [key|index], root as [| |b|n|s'|items|fields];
      try done; cbn [getValueAtPath isRecord] in Hget.
    + destruct (member' fields key) as [child| |] eqn:Hm; try done.
      destruct (IH child) as (x & -> & Hx & Hx'); [done..|].
      exists (VObject (Map_set key x fields)). split; [done|].
      destruct (walk_key (Map_set key x fields) key x (part' :: rest'))
        as [-> ->]; [apply Map_get_set_eq|]. done.
    + destruct (out_of_range index items) eqn:Hr; [done|].
      destruct (IH (item_at index items)) as (x & -> & Hx & Hx'); [done..|].
      exists (VArray (<[Z.to_nat index := x]> items)). split; [done|].
      destruct (walk_index (<[Z.to_nat index := x]> items) index
                  (part' :: rest')) as [-> ->];
        [by rewrite out_of_range_insert|].
      by rewrite item_at_insert_eq.
Qed.

(** What a call that returned [true] did: it wrote the string where the
    walks find it, or it went by an inherited [__proto__] and left the
    configuration as it was. *)
Lemma setValueAtPath_true root path value :
  set_returned (setValueAtPath' root path value) = true ->
  path <> [] /\
  (getValueAtPath' (set_config (setValueAtPath' root path value)) path =
     Some (VString value) /\
   resolvePathTarget' (set_config (setValueAtPath' root path value)) path =
     Some (VString value) /\
   set_prototype (setValueAtPath' root path value) = None \/
   PKey (str "__proto__") ∈ path /\
   set_config (setValueAtPath' root path value) = root).
Proof.
  revert root. induction path as [|part rest IH]; intros root Hret; [done|].
  split; [done|].
  destruct rest as [|part' rest'].
  - rewrite setValueAtPath_leaf in *.
    destruct part as [key|index], root as [| |b|n|s|items|fields];
      try done.
    + destruct (member' fields key) as [child| |]; try done.
      * left. cbn [set_own set_config set_prototype].
        destruct (walk_key (Map_set key (VString value) fields) key
                    (VString value) []) as [-> ->]; [apply Map_get_set_eq|].
        done.
      * destruct (decide (key = str "__proto__")) as [->|Hne].
        -- right. split; [apply list_elem_of_here|done].
        -- left. cbn [set_own set_config set_prototype].
           destruct (walk_key (Map_set key (VString value) fields) key
                       (VString value) []) as [-> ->];
             [apply Map_get_set_eq|].
           done.
    + destruct (out_of_range index items) eqn:Hr; [done|].
      left. cbn [set_own set_config set_prototype].
      destruct (walk_index (<[Z.to_nat index := VString value]> items) index
                  []) as [-> ->]; [by rewrite out_of_range_insert|].
      by rewrite item_at_insert_eq.
  - rewrite setValueAtPath_descend in * by done.
    destruct part as [key|index], root as [| |b|n|s|items|fields];
      try done.
    + destruct (member' fields key) as [child| |] eqn:Hm; try done.
      * unfold set_inside in *.
        destruct (set_returned (setValueAtPath' child (part' :: rest') value))
          eqn:Hinner; [|done].
        cbn [set_config set_prototype]. apply member_Own in Hm.
        destruct (IH child Hinner) as [_ [(Hg & Hr & Hp)|[Hin Hsame]]].
        -- left.
           destruct (walk_key (Map_set key
                        (set_config (setValueAtPath' child (part' :: rest')
                                       value)) fields) key
                       (set_config (setValueAtPath' child (part' :: rest')
                                      value)) (part' :: rest'))
             as [-> ->]; [apply Map_get_set_eq|]. done.
        -- right. split; [by apply list_elem_of_further|].
           by rewrite Hsame, Map_set_same.
      * destruct (decide (key = str "__proto__")) as [->|Hne]; [|done].
        right. split; [apply list_elem_of_here|].
        apply setValueAtPath_prototype_config.
    + destruct (out_of_range index items) eqn:Hr; [done|].
      unfold set_inside in *.
      destruct (set_returned (setValueAtPath' (item_at index items)
                                (part' :: rest') value)) eqn:Hinner; [|done].
      cbn [set_config set_prototype].
      destruct (IH (item_at index items) Hinner)
        as [_ [(Hg & Hr' & Hp)|[Hin Hsame]]].
      * left.
        destruct (walk_index (<[Z.to_nat index :=
                      set_config (setValueAtPath' (item_at index items)
                                    (part' :: rest') value)]> items) index
                    (part' :: rest')) as [-> ->];
          [by rewrite out_of_range_insert|].
        by rewrite item_at_insert_eq.
      * right. split; [by apply list_elem_of_further|].
        by rewrite Hsame, insert_item_at.
Qed.

(** X18. [setValueAtPath] writes where the walks read.  When it returns
    [true] the path is not empty, and either both walks find the new
    string at it, or the path names [__proto__] and the configuration is
    as it was: an inherited [__proto__] is the one key under which the
    string is not found afterwards.  When it returns [false] nothing
    was assigned. *)
Theorem setValueAtPath_then_get root path value :
  let result := setValueAtPath inherited root path value in
  if set_returned result then
    path <> [] /\
    (getValueAtPath inherited (set_config result) path =
       Some (VString value) /\
     resolvePathTarget inherited (set_config result) path =
       Some (VString value) /\
     set_prototype result = None \/
     PKey (str "__proto__") ∈ path /\ set_config result = root)
  else result = not_set root.
Proof.
  intros result.
  destruct (set_returned result) eqn:Hret.
  - by apply setValueAtPath_true.
  - by apply setValueAtPath_false.
Qed.

(** X19. [setValueAtPath] writes nowhere else in the configuration: as
    long as the call does not assign to a member of [Object.prototype]
    itself, both walks find, at every path that parts ways with the one
    written to, what they found before the call. *)
Theorem setValueAtPath_elsewhere root p value q :
  let result := setValueAtPath inherited root p value in
  set_prototype result = None ->
  diverge p q ->
  getValueAtPath inherited (set_config result) q =
    getValueAtPath inherited root q /\
  resolvePathTarget inherited (set_config result) q =
    resolvePathTarget inherited root q.
Proof. intros result _ Hd. by apply setValueAtPath_frame. Qed.

End ConfigPathFacts.

(** ** Templates of environment variables *)

Lemma Map_get_app_notin {V} (k : jsstring) (m1 m2 : JsMap V) :
  k ∉ Map_keys m1 -> Map_get k (m1 ++ m2) = Map_get k m2.
Proof.
  induction m1 as [|[k' v'] m1 IH]; [done|]. simpl.
  intros [Hne Hnotin]%not_elem_of_cons.
  destruct (decide (k' = k)); [congruence|]. by apply IH.
Qed.

Lemma Map_set_app_notin {V} (k : jsstring) (v : V) (m1 m2 : JsMap V) :
  k ∉ Map_keys m1 -> Map_set k v (m1 ++ m2) = m1 ++ Map_set k v m2.
Proof.
  induction m1 as [|[k' v'] m1 IH]; [done|]. simpl.
  intros [Hne Hnotin]%not_elem_of_cons.
  destruct (decide (k' = k)); [congruence|]. by rewrite IH.
Qed.

Lemma keys_distinct_array items :
  keys_distinct (VArray items) = true <->
  Forall (fun item => keys_distinct item = true) items.
Proof.
  cbn [keys_distinct]. induction items as [|item items IH]; simpl.
  - split; [constructor|done].
  - rewrite andb_true_iff, IH, Forall_cons. done.
Qed.

Lemma keys_distinct_object fields :
  keys_distinct (VObject fields) = true <->
  NoDup (Map_keys fields) /\
  Forall (fun field => keys_distinct field.2 = true) fields.
Proof.
  cbn [keys_distinct]. rewrite andb_true_iff, bool_decide_eq_true.
  apply and_iff_compat_l.
  induction fields as [|field fields IH]; simpl.
  - split; [constructor|done].
  - rewrite andb_true_iff, IH, Forall_cons. done.
Qed.

Section RestoreFacts.

Variable inherited : jsstring -> bool.
Variable resolveConfigEnvVars : jsstring -> option jsstring.

Local Abbreviation getValueAtPath' := (getValueAtPath inherited).
Local Abbreviation setValueAtPath' := (setValueAtPath inherited).
Local Abbreviation collect' := (collectEnvTemplateEntries resolveConfigEnvVars).
Local Abbreviation collect_items' := (collect_items resolveConfigEnvVars).
Local Abbreviation collect_fields' := (collect_fields resolveConfigEnvVars).
Local Abbreviation substituted' := (substituted resolveConfigEnvVars).
Local Abbreviation restore_entry' := (restore_entry inherited).
Local Abbreviation restore_entries' := (restore_entries inherited).
Local Abbreviation restoreConfigEnvTemplates' :=
  (restoreConfigEnvTemplates inherited resolveConfigEnvVars).
Local Abbreviation hole_at' := (hole_at inherited).

(** *** What is collected *)

Lemma collect_array items path out :
  collect' (VArray items) path out = collect_items' items path 0 out.
Proof.
  cbn [collectEnvTemplateEntries]. generalize 0. revert out.
  induction items as [|item items IH]; intros out index; [done|].
  cbn [collect_items]. apply IH.
Qed.

Lemma collect_object fields path out :
  collect' (VObject fields) path out = collect_fields' fields path out.
Proof.
  cbn [collectEnvTemplateEntries]. revert out.
  induction fields as [|[key child] fields IH]; intros out; [done|].
  cbn [collect_fields]. apply IH.
Qed.

Lemma collect_out value :
  forall path out, collect' value path out = out ++ collect' value path [].
Proof.
  induction value as [| |b|n|s|items IH|fields IH] using Value_nested_ind;
    intros path out; try by rewrite app_nil_r.
  - simpl. destruct (resolveConfigEnvVars s) as [resolved|];
      [|by rewrite app_nil_r].
    destruct (decide (resolved = s)); [by rewrite app_nil_r|done].
  - rewrite !collect_array. generalize 0. revert out.
    induction IH as [|item items Hitem _ IHitems]; intros out index.
    + simpl. by rewrite app_nil_r.
    + cbn [collect_items]. rewrite IHitems.
      rewrite (IHitems (collect' item _ [])), (Hitem _ out).
      by rewrite app_assoc.
  - rewrite !collect_object. revert out.
    induction IH as [|[key child] fields Hchild _ IHfields]; intros out.
    + simpl. by rewrite app_nil_r.
    + cbn [collect_fields]. rewrite IHfields.
      rewrite (IHfields (collect' child _ [])), (Hchild _ out).
      by rewrite app_assoc.
Qed.

Lemma collect_items_out items path index out :
  collect_items' items path index out =
  out ++ collect_items' items path index [].
Proof.
  revert index out. induction items as [|item items IH]; intros index out;
    cbn [collect_items]; [by rewrite app_nil_r|].
  rewrite IH, (IH _ (collect' item _ [])), (collect_out item _ out).
  by rewrite app_assoc.
Qed.

Lemma collect_fields_out fields path out :
  collect_fields' fields path out = out ++ collect_fields' fields path [].
Proof.
  revert out. induction fields as [|[key child] fields IH]; intros out;
    cbn [collect_fields]; [by rewrite app_nil_r|].
  rewrite IH, (IH (collect' child _ [])), (collect_out child _ out).
  by rewrite app_assoc.
Qed.

Lemma collect_items_cons item items path index :
  collect_items' (item :: items) path index [] =
  collect' item (path ++ [PIndex index]) [] ++
  collect_items' items path (index + 1) [].
Proof. cbn [collect_items]. apply collect_items_out. Qed.

Lemma collect_fields_cons key child fields path :
  collect_fields' ((key, child) :: fields) path [] =
  collect' child (path ++ [PKey key]) [] ++ collect_fields' fields path [].
Proof. cbn [collect_fields]. apply collect_fields_out. Qed.

Lemma elem_of_collect_items entry items path index :
  entry ∈ collect_items' items path index [] <->
  exists i item,
    items !! i = Some item /\
    entry ∈ collect' item (path ++ [PIndex (index + Z.of_nat i)]) [].
Proof.
  revert index. induction items as [|item items IH]; intros index.
  - simpl. split; [by intros ?%elem_of_nil|by intros (i & ? & ? & _)].
  - rewrite collect_items_cons, elem_of_app, IH. split.
    + intros [Hin|(i & item' & Hi & Hin)].
      * exists 0%nat, item. by rewrite Z.add_0_r.
      * exists (S i), item'. split; [done|].
        by replace (index + Z.of_nat (S i)) with (index + 1 + Z.of_nat i) by lia.
    + intros ([|i] & item' & Hi & Hin).
      * left. injection Hi as <-. by rewrite Z.add_0_r in Hin.
      * right. exists i, item'. split; [done|].
        by replace (index + 1 + Z.of_nat i) with (index + Z.of_nat (S i)) by lia.
Qed.

Lemma elem_of_collect_fields entry fields path :
  entry ∈ collect_fields' fields path [] <->
  exists key child,
    (key, child) ∈ fields /\ entry ∈ collect' child (path ++ [PKey key]) [].
Proof.
  induction fields as [|[key child] fields IH].
  - simpl. split; [by intros ?%elem_of_nil|].
    by intros (? & ? & ?%elem_of_nil & _).
  - rewrite collect_fields_cons, elem_of_app, IH. split.
    + intros [Hin|(key' & child' & Hin' & Hin)].
      * exists key, child. split; [by left|done].
      * exists key', child'. split; [by right|done].
    + intros (key' & child' & Hin' & Hin).
      apply elem_of_cons in Hin' as [[= -> ->]|Hin'].
      * by left.
      * right. by exists key', child'.
Qed.

(** An entry as [collectEnvTemplateEntries] makes them: a string of the
    raw configuration that substitution changes. *)
Local Abbreviation template_at value q entry :=
  (getValueAtPath' value q = Some (VString (entry_template entry)) /\
   resolveConfigEnvVars (entry_template entry) = Some (entry_resolved entry) /\
   entry_resolved entry <> entry_template entry).

Lemma collect_elem_of entry value :
  keys_distinct value = true ->
  forall path,
    entry ∈ collect' value path [] <->
    exists q, entry_path entry = path ++ q /\ template_at value q entry.
Proof.
  induction value as [| |b|n|s|items IH|fields IH] using Value_nested_ind;
    intros Hkeys path;
    try (split; [by intros ?%elem_of_nil
                |by intros ([|[key|index] q] & _ & ? & _)]).
  - simpl. split.
    + destruct (resolveConfigEnvVars s) as [resolved|] eqn:Hres;
        [|by intros ?%elem_of_nil].
      destruct (decide (resolved = s)) as [->|Hne];
        [by intros ?%elem_of_nil|].
      intros ->%list_elem_of_singleton. exists []. by rewrite app_nil_r.
    + intros ([|[key|index] q] & Hpath & Hget & Hres & Hne); try done.
      injection Hget as Hs. rewrite app_nil_r in Hpath.
      rewrite <- Hs in Hres. rewrite Hres.
      rewrite decide_False by congruence.
      apply list_elem_of_singleton. destruct entry. simpl in *. congruence.
  - rewrite collect_array, elem_of_collect_items.
    apply keys_distinct_array in Hkeys.
    split.
    + intros (i & item & Hi & Hin).
      apply (proj1 (Forall_lookup _ _) IH i item Hi) in Hin
        as (q & Hpath & Hget & Hrest);
        [|by apply (proj1 (Forall_lookup _ _) Hkeys i item Hi)].
      exists (PIndex (Z.of_nat i) :: q).
      rewrite <- app_assoc in Hpath. split; [done|]. split; [|done].
      assert (out_of_range (Z.of_nat i) items = false) as Hr.
      { apply lookup_lt_Some in Hi. unfold out_of_range.
        apply orb_false_iff. split; [apply Z.ltb_ge|apply Z.leb_gt]; lia. }
      destruct (walk_index inherited items (Z.of_nat i) q Hr) as [-> _].
      unfold item_at. rewrite Nat2Z.id.
      by rewrite (nth_lookup_Some _ _ _ _ Hi).
    + intros ([|[key|index] q] & Hpath & Hget & Hrest); try done.
      simpl in Hget. destruct (out_of_range index items) eqn:Hr; [done|].
      apply out_of_range_false in Hr as [H0 Hlt].
      destruct (lookup_lt_is_Some_2 items _ Hlt) as [item Hi].
      unfold item_at in Hget. rewrite (nth_lookup_Some _ _ _ _ Hi) in Hget.
      exists (Z.to_nat index), item. split; [done|].
      apply (proj1 (Forall_lookup _ _) IH _ item Hi);
        [by apply (proj1 (Forall_lookup _ _) Hkeys _ item Hi)|].
      exists q. rewrite Z2Nat.id by done. rewrite <- app_assoc. done.
  - rewrite collect_object, elem_of_collect_fields.
    apply keys_distinct_object in Hkeys as [Hnd Hkeys].
    split.
    + intros (key & child & Hfield & Hin).
      apply (proj1 (Forall_forall _ _) IH _ Hfield) in Hin
        as (q & Hpath & Hget & Hrest);
        [|by apply (proj1 (Forall_forall _ _) Hkeys _ Hfield)].
      exists (PKey key :: q).
      rewrite <- app_assoc in Hpath. split; [done|]. split; [|done].
      by destruct (walk_key inherited fields key child q
                     (Map_elem_of_get _ _ _ Hnd Hfield)) as [-> _].
    + intros ([|[key|index] q] & Hpath & Hget & Hrest); try done.
      simpl in Hget.
      destruct (member inherited fields key) as [child| |] eqn:Hm; try done.
      apply member_Own, Map_get_elem_of in Hm.
      exists key, child. split; [done|].
      apply (proj1 (Forall_forall _ _) IH _ Hm);
        [by apply (proj1 (Forall_forall _ _) Hkeys _ Hm)|].
      exists q. rewrite <- app_assoc. done.
Qed.

(** X20. What [collectEnvTemplateEntries] collects from a raw
    configuration: exactly the strings in it that substitution changes,
    each with the path at which [getValueAtPath] finds it and with what
    it is changed to. *)
Theorem collectEnvTemplateEntries_exact rawConfig entry :
  keys_distinct rawConfig = true ->
  entry ∈ collectEnvTemplateEntries resolveConfigEnvVars rawConfig [] [] <->
  getValueAtPath inherited rawConfig (entry_path entry) =
    Some (VString (entry_template entry)) /\
  resolveConfigEnvVars (entry_template entry) = Some (entry_resolved entry) /\
  entry_resolved entry <> entry_template entry.
Proof.
  intros Hkeys. rewrite (collect_elem_of entry rawConfig Hkeys []). split.
  - by intros (q & -> & H).
  - intros H. by exists (entry_path entry).
Qed.

(** *** Restoring into a configuration as substitution left it *)

Lemma restore_entries_app next entries entries' :
  restore_entries' next (entries ++ entries') =
  restore_entries' next entries ≫= (fun next' => restore_entries' next' entries').
Proof.
  revert next. induction entries as [|entry entries IH]; intros next; [done|].
  simpl. destruct (restore_entry' next entry) as [next'|]; [apply IH|done].
Qed.

Lemma hole_at_root : hole_at' id [].
Proof.
  split_and!; [done| |done].
  intros v q s _. cbn [app]. unfold set_inside, id.
  destruct (set_returned (setValueAtPath' v q s)) eqn:Hret.
  - destruct (setValueAtPath' v q s). simpl in Hret. by subst.
  - by apply setValueAtPath_false.
Qed.

Lemma hole_at_index C p done rest :
  hole_at' C p ->
  hole_at' (fun v => C (VArray (done ++ v :: rest)))
           (p ++ [PIndex (Z.of_nat (length done))]).
Proof.
  intros (Hget & Hset & _).
  assert (forall v, out_of_range (Z.of_nat (length done)) (done ++ v :: rest)
                    = false) as Hr.
  { intros v. unfold out_of_range. rewrite length_app. simpl.
    apply orb_false_iff. split; [apply Z.ltb_ge|apply Z.leb_gt]; lia. }
  assert (forall v, item_at (Z.of_nat (length done)) (done ++ v :: rest) = v)
    as Hitem.
  { intros v. unfold item_at. rewrite Nat2Z.id. apply nth_middle. }
  assert (forall v v', <[Z.to_nat (Z.of_nat (length done)) := v']>
                         (done ++ v :: rest) = done ++ v' :: rest) as Hins.
  { intros v v'. rewrite Nat2Z.id.
    rewrite <- (Nat.add_0_r (length done)). by rewrite insert_app_r. }
  split_and!.
  - intros v q. rewrite <- app_assoc. cbn [app]. rewrite Hget.
    simpl. by rewrite Hr, Hitem.
  - intros v q s Hq. rewrite <- app_assoc. cbn [app].
    rewrite Hset by done. rewrite setValueAtPath_descend by done.
    rewrite Hr, Hitem. unfold set_inside.
    destruct (set_returned (setValueAtPath' v q s)); [|done].
    cbn [set_returned set_config set_prototype]. by rewrite Hins.
  - intros _ v s. rewrite Hset by done. rewrite setValueAtPath_leaf.
    rewrite Hr. unfold set_inside, set_own. cbn [set_returned set_config].
    by rewrite Hins.
Qed.

Lemma hole_at_key C p done key rest :
  key ∉ Map_keys done ->
  hole_at' C p ->
  hole_at' (fun v => C (VObject (done ++ (key, v) :: rest)))
           (p ++ [PKey key]).
Proof.
  intros Hkey (Hget & Hset & _).
  assert (forall v, member inherited (done ++ (key, v) :: rest) key = Own v)
    as Hm.
  { intros v. apply member_Own. rewrite Map_get_app_notin by done.
    simpl. by rewrite decide_True. }
  assert (forall v v', Map_set key v' (done ++ (key, v) :: rest) =
                       done ++ (key, v') :: rest) as Hins.
  { intros v v'. rewrite Map_set_app_notin by done. simpl.
    by rewrite decide_True. }
  split_and!.
  - intros v q. rewrite <- app_assoc. cbn [app]. rewrite Hget.
    simpl. by rewrite Hm.
  - intros v q s Hq. rewrite <- app_assoc. cbn [app].
    rewrite Hset by done. rewrite setValueAtPath_descend by done.
    rewrite Hm. unfold set_inside.
    destruct (set_returned (setValueAtPath' v q s)); [|done].
    cbn [set_returned set_config set_prototype]. by rewrite Hins.
  - intros _ v s. rewrite Hset by done. rewrite setValueAtPath_leaf.
    rewrite Hm. unfold set_inside, set_own. cbn [set_returned set_config].
    by rewrite Hins.
Qed.

(** What the induction on a raw configuration shows of each part. *)
Local Abbreviation restored raw :=
  (forall C p, hole_at' C p -> (p = [] -> forall s, raw <> VString s) ->
     restore_entries' (C (substituted' raw)) (collect' raw p []) =
     Some (C raw)).

Lemma restore_items C p todo :
  hole_at' C p ->
  Forall (fun item => keys_distinct item = true -> restored item) todo ->
  Forall (fun item => keys_distinct item = true) todo ->
  forall done,
    restore_entries' (C (VArray (done ++ (substituted' <$> todo))))
      (collect_items' todo p (Z.of_nat (length done)) []) =
    Some (C (VArray (done ++ todo))).
Proof.
  intros Hole IH Hkeys. induction IH as [|item todo Hitem _ IHtodo];
    intros done.
  - done.
  - apply Forall_cons in Hkeys as [Hk Hkeys].
    rewrite collect_items_cons, restore_entries_app, fmap_cons.
    rewrite (Hitem Hk (fun v => C (VArray (done ++ v :: (substituted' <$> todo))))
               (p ++ [PIndex (Z.of_nat (length done))]));
      [|by apply hole_at_index|by intros [_ ?]%app_eq_nil].
    cbn [mbind option_bind].
    specialize (IHtodo Hkeys (done ++ [item])).
    rewrite length_app, Nat2Z.inj_add, <- !app_assoc in IHtodo. exact IHtodo.
Qed.

Lemma restore_fields C p todo :
  hole_at' C p ->
  Forall (fun field => keys_distinct field.2 = true -> restored field.2) todo ->
  Forall (fun field => keys_distinct field.2 = true) todo ->
  forall done,
    NoDup (Map_keys (done ++ todo)) ->
    restore_entries'
      (C (VObject (done ++
                   ((fun field => (field.1, substituted' field.2)) <$> todo))))
      (collect_fields' todo p []) =
    Some (C (VObject (done ++ todo))).
Proof.
  intros Hole IH Hkeys. induction IH as [|[key child] todo Hchild _ IHtodo];
    intros done Hnodup.
  - done.
  - apply Forall_cons in Hkeys as [Hk Hkeys].
    rewrite collect_fields_cons, restore_entries_app, fmap_cons.
    cbn [fst snd] in *.
    assert (key ∉ Map_keys done) as Hkey.
    { unfold Map_keys in *. rewrite fmap_app in Hnodup.
      apply NoDup_app in Hnodup as (_ & Hnot & _).
      intros Hin. apply (Hnot key Hin). simpl. by left. }
    rewrite (Hchild Hk
               (fun v => C (VObject (done ++ (key, v) ::
                  ((fun field => (field.1, substituted' field.2)) <$> todo))))
               (p ++ [PKey key]));
      [|by apply hole_at_key|by intros [_ ?]%app_eq_nil].
    cbn [mbind option_bind].
    specialize (IHtodo Hkeys (done ++ [(key, child)])).
    rewrite <- !app_assoc in IHtodo. by apply IHtodo.
Qed.

Lemma restore_entries_hole raw : keys_distinct raw = true -> restored raw.
Proof.
  induction raw as [| |b|n|s|items IH|fields IH] using Value_nested_ind;
    intros Hkeys C p Hole Hroot; try done.
  - simpl. destruct (resolveConfigEnvVars s) as [resolved|] eqn:Hres;
      [|done].
    destruct (decide (resolved = s)) as [->|Hne]; [done|].
    cbn [default from_option app restore_entries restore_entry entry_path
         entry_resolved entry_template].
    destruct Hole as (Hget & _ & Hset).
    assert (p <> []) as Hp by (intros ->; by eapply Hroot).
    specialize (Hget (VString resolved) []). rewrite app_nil_r in Hget.
    unfold restore_entry, id. cbn [entry_path entry_resolved entry_template].
    rewrite Hget. cbn [getValueAtPath]. rewrite decide_True by done.
    by rewrite (Hset Hp).
  - rewrite collect_array. apply keys_distinct_array in Hkeys.
    apply (restore_items C p items Hole IH Hkeys []).
  - rewrite collect_object. apply keys_distinct_object in Hkeys as [Hnd Hkeys].
    apply (restore_fields C p fields Hole IH Hkeys [] Hnd).
Qed.

(** X21. Restoring undoes substitution: from a raw configuration that
    is not a bare string and the configuration substitution made of it,
    [restoreConfigEnvTemplates] gives the raw configuration back. *)
Theorem restoreConfigEnvTemplates_round_trip rawConfig :
  keys_distinct rawConfig = true ->
  (forall s, rawConfig <> VString s) ->
  restoreConfigEnvTemplates inherited resolveConfigEnvVars rawConfig (substituted resolveConfigEnvVars rawConfig) =
  Some rawConfig.
Proof.
  intros Hkeys Hroot.
  pose proof (restore_entries_hole rawConfig Hkeys id [] hole_at_root
                (fun _ => Hroot)) as H.
  unfold restoreConfigEnvTemplates, structuredClone.
  by destruct (collect' rawConfig [] []).
Qed.

(** A bare string is the one raw configuration that is not restored:
    [setValueAtPath] does not write at the empty path. *)
Lemma restoreConfigEnvTemplates_bare_string template resolved :
  resolveConfigEnvVars template = Some resolved -> resolved <> template ->
  restoreConfigEnvTemplates' (VString template) (VString resolved) =
  Some (VString resolved).
Proof.
  intros Hres Hne. unfold restoreConfigEnvTemplates. simpl. rewrite Hres.
  rewrite decide_False by done. simpl. unfold restore_entry. simpl.
  by rewrite decide_True.
Qed.

(** *** Restoring into a configuration that has changed *)

Lemma diverge_cons part p q : diverge p q -> diverge (part :: p) (part :: q).
Proof.
  intros (common & a & b & p' & q' & -> & -> & Hab).
  by exists (part :: common), a, b, p', q'.
Qed.

(** Two strings of one configuration sit at the same path or at paths
    that part ways: no string lies below another. *)
Lemma strings_diverge root p p' t t' :
  getValueAtPath' root p = Some (VString t) ->
  getValueAtPath' root p' = Some (VString t') ->
  p = p' \/ diverge p p'.
Proof.
  revert root p'. induction p as [|a p IH]; intros root p' Hp Hp'.
  - injection Hp as ->. destruct p' as [|[key|index] p']; [by left|done..].
  - destruct p' as [|b p'].
    + injection Hp' as ->. by destruct a.
    + destruct (decide (a = b)) as [<-|Hab];
        [|right; by exists [], a, b, p, p'].
      assert (exists child, getValueAtPath' child p = Some (VString t) /\
                            getValueAtPath' child p' = Some (VString t'))
        as (child & Hc & Hc').
      { destruct a as [key|index], root as [| |b|n|s|items|fields];
          try done; simpl in Hp, Hp'.
        - destruct (member inherited fields key) as [child| |]; try done.
          by exists child.
        - destruct (out_of_range index items); [done|].
          by exists (item_at index items). }
      destruct (IH child p' Hc Hc') as [->|Hd]; [by left|].
      right. by apply diverge_cons.
Qed.

Lemma restore_entry_elsewhere next entry next' q :
  restore_entry' next entry = Some next' ->
  diverge (entry_path entry) q ->
  getValueAtPath' next' q = getValueAtPath' next q.
Proof.
  unfold restore_entry. intros Hstep Hd.
  destruct (getValueAtPath' next (entry_path entry)) as [[| |b|n|s|items|fields]|];
    try by injection Hstep as <-.
  - destruct (decide (s = entry_resolved entry)); [|by injection Hstep as <-].
    injection Hstep as <-.
    by destruct (setValueAtPath_frame inherited next (entry_path entry)
                   (entry_template entry) q Hd).
  - done.
Qed.

Lemma restore_entries_elsewhere next entries result q :
  restore_entries' next entries = Some result ->
  Forall (fun entry => diverge (entry_path entry) q) entries ->
  getValueAtPath' result q = getValueAtPath' next q.
Proof.
  revert next. induction entries as [|entry entries IH]; intros next Hrun Hd.
  - by injection Hrun as <-.
  - simpl in Hrun. apply Forall_cons in Hd as [Hd Hds].
    destruct (restore_entry' next entry) as [next'|] eqn:Hstep; [|done].
    rewrite (IH next' Hrun Hds). by eapply restore_entry_elsewhere.
Qed.


(** Entries that are the one looked at or lie elsewhere. *)
Local Abbreviation around entry entries :=
  (Forall (fun entry' => entry' = entry \/
                         diverge (entry_path entry') (entry_path entry))
          entries).

Lemma restore_entries_kept next entries result entry :
  restore_entries' next entries = Some result ->
  around entry entries ->
  getValueAtPath' next (entry_path entry) <>
    Some (VString (entry_resolved entry)) ->
  getValueAtPath' result (entry_path entry) =
  getValueAtPath' next (entry_path entry).
Proof.
  revert next. induction entries as [|entry' entries IH];
    intros next Hrun Haround Hne.
  - by injection Hrun as <-.
  - simpl in Hrun. apply Forall_cons in Haround as [Hfirst Haround].
    destruct (restore_entry' next entry') as [next'|] eqn:Hstep; [|done].
    assert (getValueAtPath' next' (entry_path entry) =
            getValueAtPath' next (entry_path entry)) as Hsame.
    { destruct Hfirst as [->|Hd]; [|by eapply restore_entry_elsewhere].
      unfold restore_entry in Hstep.
      destruct (getValueAtPath' next (entry_path entry))
        as [[| |b|n|s|items|fields]|] eqn:Hget;
        try (injection Hstep as <-; exact Hget); [|done].
      destruct (decide (s = entry_resolved entry)) as [->|];
        [congruence|]. injection Hstep as <-. exact Hget. }
    rewrite <- Hsame. apply IH; [done..|]. by rewrite Hsame.
Qed.

Lemma restore_entries_written next entries result entry :
  restore_entries' next entries = Some result ->
  around entry entries ->
  entry ∈ entries ->
  entry_path entry <> [] ->
  entry_resolved entry <> entry_template entry ->
  getValueAtPath' next (entry_path entry) =
    Some (VString (entry_resolved entry)) ->
  getValueAtPath' result (entry_path entry) =
  Some (VString (entry_template entry)).
Proof.
  revert next. induction entries as [|entry' entries IH];
    intros next Hrun Haround Hin Hpath Hne Hget.
  - by apply elem_of_nil in Hin.
  - simpl in Hrun. apply Forall_cons in Haround as [Hfirst Haround].
    destruct (restore_entry' next entry') as [next'|] eqn:Hstep; [|done].
    assert (entry' = entry \/
            entry ∈ entries /\
            diverge (entry_path entry') (entry_path entry)) as [->|[Hin' Hd]].
    { destruct Hfirst as [->|Hd]; [by left|].
      apply elem_of_cons in Hin as [->|Hin]; [by left|by right]. }
    + unfold restore_entry in Hstep. rewrite Hget in Hstep.
      rewrite decide_True in Hstep by done.
      destruct (setValueAtPath_found inherited next (entry_path entry)
                  (entry_resolved entry) (entry_template entry) Hpath Hget)
        as (x & Hset & Hx & _).
      rewrite Hset in Hstep. injection Hstep as <-.
      rewrite (restore_entries_kept x entries result entry Hrun Haround);
        [done|]. rewrite Hx. congruence.
    + apply (IH next'); try done.
      by rewrite (restore_entry_elsewhere next entry' next' _ Hstep Hd).
Qed.

Lemma collected_around rawConfig entry :
  keys_distinct rawConfig = true ->
  entry ∈ collect' rawConfig [] [] ->
  around entry (collect' rawConfig [] []).
Proof.
  intros Hkeys Hin. apply Forall_forall. intros entry' Hin'.
  apply (collect_elem_of _ _ Hkeys []) in Hin
    as (q & Hq & Hget & Hres & _).
  apply (collect_elem_of _ _ Hkeys []) in Hin'
    as (q' & Hq' & Hget' & Hres' & _).
  cbn [app] in Hq, Hq'. subst q q'.
  destruct (strings_diverge _ _ _ _ _ Hget' Hget) as [Hsame|Hd]; [|by right].
  left. rewrite Hsame, Hget in Hget'. injection Hget' as Ht.
  rewrite <- Ht, Hres in Hres'. injection Hres' as Hr.
  destruct entry, entry'. simpl in *. congruence.
Qed.


End RestoreFacts.

(** ** Unknown keys *)

Lemma pruned_items_trans la lb lc :
  Forall (fun a => forall b c, pruned a b -> pruned b c -> pruned a c) la ->
  Forall2 pruned la lb -> Forall2 pruned lb lc -> Forall2 pruned la lc.
Proof.
  intros IH Hab. revert lc.
  induction Hab as [|a b la lb Hab _ IHab]; intros lc Hbc.
  - by apply Forall2_nil_inv_l in Hbc as ->.
  - apply Forall2_cons_inv_l in Hbc as (c & lc' & Hbc & Hbc' & ->).
    apply Forall_cons in IH as [IHa IH].
    constructor; [by eapply IHa|by apply IHab].
Qed.

Lemma pruned_trans a : forall b c, pruned a b -> pruned b c -> pruned a c.
Proof.
  induction a as [| |x|n|s|items IH|fields IH] using Value_nested_ind;
    intros b c Hab Hbc; try by inversion Hab; subst.
  - inversion Hab as [|items' items_b Hitems|]; subst; [done|].
    inversion Hbc as [|items' items_c Hitems'|]; subst; [done|].
    apply pruned_array. by eapply pruned_items_trans.
  - inversion Hab as [| |fields' fields_b Hfields]; subst; [done|].
    inversion Hbc as [| |fields' fields_c Hfields']; subst; [done|].
    apply pruned_object. intros key child_a Hget.
    destruct (Hfields key child_a Hget) as (child_b & Hget_b & Hpruned).
    destruct (Hfields' key child_b Hget_b) as (child_c & Hget_c & Hpruned').
    exists child_c. split; [done|].
    apply Map_get_elem_of in Hget.
    by apply (proj1 (Forall_forall _ _) IH _ Hget child_b child_c).
Qed.

Section StripFacts.

Variable inherited : jsstring -> bool.
Variable Number_toString : Z -> jsstring.
Variable safeParse : Value -> option (list ZodIssue).

Local Abbreviation member' := (member inherited).
Local Abbreviation formatPath' := (formatPath Number_toString).
Local Abbreviation resolvePathTarget' := (resolvePathTarget inherited).
Local Abbreviation delete_keys' := (delete_keys inherited Number_toString).
Local Abbreviation strip_issue' := (strip_issue inherited Number_toString).
Local Abbreviation strip_issues' := (strip_issues inherited Number_toString).
Local Abbreviation stripUnknownConfigKeys' :=
  (stripUnknownConfigKeys inherited Number_toString safeParse).

(** *** The object an issue points at *)

Lemma replace_at_same next path v :
  resolvePathTarget' next path = Some v -> replace_at next path v = next.
Proof.
  revert next. induction path as [|part rest IH]; intros next Hres.
  - by injection Hres as ->.
  - destruct part as [key|index], next as [| |b|n|s|items|fields]; try done;
      simpl in *.
    + unfold member in Hres. destruct (Map_get key fields) as [child|] eqn:Hm;
        [|done].
      by rewrite (IH child Hres), Map_set_same.
    + destruct (out_of_range index items) eqn:Hr; [done|].
      rewrite (IH _ Hres). f_equal. apply list_insert_id.
      apply out_of_range_false in Hr as [_ Hlt].
      destruct (lookup_lt_is_Some_2 items _ Hlt) as [x Hx].
      unfold item_at. by rewrite (nth_lookup_Some _ _ _ _ Hx).
Qed.

Lemma resolve_replace_at next path record v :
  resolvePathTarget' next path = Some (VObject record) ->
  resolvePathTarget' (replace_at next path v) path = Some v.
Proof.
  revert next. induction path as [|part rest IH]; intros next Hres; [done|].
  destruct part as [key|index], next as [| |b|n|s|items|fields]; try done;
    simpl in *.
  - unfold member in *. destruct (Map_get key fields) as [child|] eqn:Hm.
    + simpl. unfold member. rewrite Map_get_set_eq. by apply IH.
    + by destruct (inherited key).
  - destruct (out_of_range index items) eqn:Hr; [done|].
    simpl. rewrite out_of_range_insert, Hr, item_at_insert_eq by done.
    by apply IH.
Qed.

Lemma pruned_replace_at next path v v' :
  resolvePathTarget' next path = Some v ->
  pruned v' v ->
  pruned (replace_at next path v') next.
Proof.
  revert next. induction path as [|part rest IH]; intros next Hres Hpruned.
  - by injection Hres as ->.
  - destruct part as [key|index], next as [| |b|n|s|items|fields];
      try apply pruned_same; simpl in *.
    + unfold member in Hres. destruct (Map_get key fields) as [child|] eqn:Hm;
        [|apply pruned_same].
      apply pruned_object. intros key' child' Hget.
      destruct (decide (key = key')) as [<-|Hne].
      * rewrite Map_get_set_eq in Hget. injection Hget as <-.
        exists child. split; [done|]. by apply IH.
      * rewrite Map_get_set_ne in Hget by done.
        exists child'. split; [done|apply pruned_same].
    + destruct (out_of_range index items) eqn:Hr; [apply pruned_same|].
      apply pruned_array.
      apply out_of_range_false in Hr as [_ Hlt].
      destruct (lookup_lt_is_Some_2 items _ Hlt) as [x Hx].
      unfold item_at in *. rewrite (nth_lookup_Some _ _ _ _ Hx) in *.
      rewrite <- (list_insert_id items (Z.to_nat index) x) at 2 by done.
      apply Forall2_insert; [|by apply IH].
      apply Forall_Forall2_diag, Forall_forall. intros. apply pruned_same.
Qed.

Lemma pruned_resolve path :
  forall v' v fields',
    pruned v' v ->
    resolvePathTarget' v' path = Some (VObject fields') ->
    exists fields,
      resolvePathTarget' v path = Some (VObject fields) /\
      forall key child', Map_get key fields' = Some child' ->
                         exists child, Map_get key fields = Some child.
Proof.
  induction path as [|part rest IH]; intros v' v fields' Hpruned Hres.
  - injection Hres as ->.
    inversion Hpruned as [| |f' fields Hfields]; subst.
    + exists fields'. split; [done|]. by eauto.
    + exists fields. split; [done|]. intros key child' Hget.
      destruct (Hfields key child' Hget) as (child & ? & _). by eauto.
  - destruct part as [key|index], v' as [| |b|n|s|items'|fields0]; try done;
      simpl in Hres.
    + destruct (member' fields0 key) as [child'| |] eqn:Hm; try done.
      apply member_Own in Hm.
      inversion Hpruned as [| |f' fields Hfields]; subst.
      * apply (IH child' child' fields' (pruned_same _)) in Hres
          as (fields & Hres & Hsub).
        exists fields. split; [|done]. simpl.
        by rewrite (proj2 (member_Own inherited _ _ _) Hm).
      * destruct (Hfields key child' Hm) as (child & Hget & Hchild).
        apply (IH child' child fields' Hchild) in Hres
          as (fields1 & Hres & Hsub).
        exists fields1. split; [|done]. simpl.
        by rewrite (proj2 (member_Own inherited _ _ _) Hget).
    + destruct (out_of_range index items') eqn:Hr; [done|].
      inversion Hpruned as [|i' items Hitems|]; subst.
      * apply (IH _ _ fields' (pruned_same _)) in Hres
          as (fields & Hres & Hsub).
        exists fields. split; [|done]. simpl. by rewrite Hr.
      * assert (out_of_range index items = false) as Hr'.
        { unfold out_of_range in *.
          by rewrite <- (Forall2_length _ _ _ Hitems). }
        apply out_of_range_false in Hr as [_ Hlt].
        destruct (lookup_lt_is_Some_2 items' _ Hlt) as [x' Hx'].
        destruct (Forall2_lookup_l _ _ _ _ _ Hitems Hx') as (x & Hx & Hxx).
        unfold item_at in Hres. rewrite (nth_lookup_Some _ _ _ _ Hx') in Hres.
        apply (IH x' x fields' Hxx) in Hres as (fields & Hres & Hsub).
        exists fields. split; [|done]. simpl. rewrite Hr'.
        unfold item_at. by rewrite (nth_lookup_Some _ _ _ _ Hx).
Qed.

(** *** The loops *)

Lemma delete_keys_spec path keys :
  forall record removed record' removed',
    delete_keys' path keys record removed = (record', removed') ->
    exists extra,
      removed' = removed ++ extra /\
      (extra = [] -> record' = record) /\
      (forall key child, Map_get key record' = Some child ->
                         Map_get key record = Some child) /\
      (forall key, KeyString key ∈ keys -> Map_get key record' = None) /\
      Forall (fun reported =>
                exists key, KeyString key ∈ keys /\
                            reported = formatPath' (path ++ [PKey key])) extra.
Proof.
  induction keys as [|[key|index|description] keys IH];
    intros record removed record' removed' Hrun.
  - injection Hrun as <- <-. exists []. rewrite app_nil_r.
    split_and!; try done. by intros key ?%elem_of_nil.
  - cbn [delete_keys] in Hrun.
    destruct (member' record key) as [v| |] eqn:Hm.
    1,2: apply IH in Hrun as (extra & -> & _ & Hsub & Hgone & Hnamed);
      exists (formatPath' (path ++ [PKey key]) :: extra);
      rewrite <- app_assoc; split_and!; try done;
      [ intros key' child Hget; apply Hsub in Hget;
        by apply Map_get_delete_Some in Hget as [_ ?]
      | intros key' [[= ->]|Hin]%elem_of_cons;
        [ destruct (Map_get key record') as [child|] eqn:Hget; [|done];
          apply Hsub in Hget; by rewrite Map_get_delete_eq in Hget
        | by apply Hgone ]
      | constructor;
        [ exists key; split; [by left|done]
        | eapply Forall_impl; [exact Hnamed|];
          intros reported (key' & Hin & ->); exists key';
          split; [by right|done] ] ].
    apply IH in Hrun as (extra & -> & Hsame & Hsub & Hgone & Hnamed).
    exists extra. split_and!; try done.
    + intros key' [[= ->]|Hin]%elem_of_cons; [|by apply Hgone].
      destruct (Map_get key record') as [child|] eqn:Hget; [|done].
      apply Hsub in Hget. unfold member in Hm. by rewrite Hget in Hm.
    + eapply Forall_impl; [exact Hnamed|].
      intros reported (key' & Hin & ->). exists key'. split; [by right|done].
  - cbn [delete_keys] in Hrun.
    apply IH in Hrun as (extra & -> & Hsame & Hsub & Hgone & Hnamed).
    exists extra. split_and!; try done.
    + intros key' [[=]|Hin]%elem_of_cons. by apply Hgone.
    + eapply Forall_impl; [exact Hnamed|].
      intros reported (key' & Hin & ->). exists key'. split; [by right|done].
  - cbn [delete_keys] in Hrun.
    apply IH in Hrun as (extra & -> & Hsame & Hsub & Hgone & Hnamed).
    exists extra. split_and!; try done.
    + intros key' [[=]|Hin]%elem_of_cons. by apply Hgone.
    + eapply Forall_impl; [exact Hnamed|].
      intros reported (key' & Hin & ->). exists key'. split; [by right|done].
Qed.

(** What one round does for its issue. *)
Local Abbreviation issue_named issue reported :=
  (exists key, isUnrecognizedKeysIssue issue = true /\
               KeyString key ∈ issue_keys issue /\
               reported = formatPath' (normalizeIssuePath (issue_path issue)
                                         ++ [PKey key])).

Local Abbreviation issue_done issue next :=
  (isUnrecognizedKeysIssue issue = true ->
   forall fields key,
     resolvePathTarget' next (normalizeIssuePath (issue_path issue)) =
       Some (VObject fields) ->
     KeyString key ∈ issue_keys issue -> Map_get key fields = None).

Lemma strip_issue_spec next removed issue next' removed' :
  strip_issue' (next, removed) issue = Some (next', removed') ->
  pruned next' next /\
  issue_done issue next' /\
  exists extra,
    removed' = removed ++ extra /\ (extra = [] -> next' = next) /\
    Forall (fun reported => issue_named issue reported) extra.
Proof.
  unfold strip_issue. intros Hstep.
  destruct (isUnrecognizedKeysIssue issue) eqn:Hcode.
  2: { injection Hstep as <- <-. split; [apply pruned_same|].
       split; [done|]. exists []. by rewrite app_nil_r. }
  set (path := normalizeIssuePath (issue_path issue)) in *.
  destruct (resolvePathTarget' next path) as [[| |b|n|s|items|record]|]
    eqn:Hres; try done.
  1-6: injection Hstep as <- <-; (split; [apply pruned_same|]);
    (split; [intros _ fields key Hres'; by rewrite Hres in Hres'|]);
    exists []; by rewrite app_nil_r.
  destruct (delete_keys' path (issue_keys issue) record removed)
    as [record' removed1] eqn:Hdel.
  injection Hstep as <- <-.
  apply delete_keys_spec in Hdel as (extra & -> & Hsame & Hsub & Hgone & Hnamed).
  split_and!.
  - apply (pruned_replace_at next path (VObject record)); [done|].
    apply pruned_object. intros key child' Hget.
    exists child'. split; [by apply Hsub|apply pruned_same].
  - intros _ fields key Hres' Hin.
    rewrite (resolve_replace_at next path record) in Hres' by done.
    injection Hres' as <-. by apply Hgone.
  - exists extra. split_and!; [done| |].
    + intros Hnil. rewrite (Hsame Hnil). by apply replace_at_same.
    + eapply Forall_impl; [exact Hnamed|].
      intros reported (key & Hin & ->). by exists key.
Qed.

Lemma strip_issues_spec issues :
  forall next removed next' removed',
    strip_issues' (next, removed) issues = Some (next', removed') ->
    pruned next' next /\
    (forall issue, issue ∈ issues -> issue_done issue next') /\
    exists extra,
      removed' = removed ++ extra /\ (extra = [] -> next' = next) /\
      Forall (fun reported =>
                exists issue, issue ∈ issues /\ issue_named issue reported)
             extra.
Proof.
  induction issues as [|issue issues IH];
    intros next removed next' removed' Hrun.
  - injection Hrun as <- <-. split; [apply pruned_same|].
    split; [by intros issue ?%elem_of_nil|].
    exists []. by rewrite app_nil_r.
  - cbn [strip_issues] in Hrun.
    destruct (strip_issue' (next, removed) issue) as [[next1 removed1]|]
      eqn:Hstep; [|done].
    apply strip_issue_spec in Hstep
      as (Hpruned1 & Hdone1 & extra1 & -> & Hsame1 & Hnamed1).
    apply IH in Hrun as (Hpruned & Hdone & extra & -> & Hsame & Hnamed).
    split_and!.
    + by apply (pruned_trans next' next1 next).
    + intros issue' [->|Hin]%elem_of_cons; [|by apply Hdone].
      intros Hcode fields key Hres Hkey.
      destruct (pruned_resolve _ _ _ _ Hpruned Hres) as (fields1 & Hres1 & Hsub).
      destruct (Map_get key fields) as [child|] eqn:Hget; [|done].
      destruct (Hsub key child Hget) as (child1 & Hget1).
      by rewrite (Hdone1 Hcode fields1 key Hres1 Hkey) in Hget1.
    + exists (extra1 ++ extra). rewrite app_assoc. split_and!; [done| |].
      * intros [-> ->]%app_eq_nil. by rewrite Hsame, Hsame1.
      * apply Forall_app. split.
        -- eapply Forall_impl; [exact Hnamed1|].
           intros reported Hr. exists issue. split; [by left|done].
        -- eapply Forall_impl; [exact Hnamed|].
           intros reported (issue' & Hin & Hr). exists issue'.
           split; [by right|done].
Qed.



End StripFacts.

(** *** Examples *)

Lemma formatPath_dotted_witness :
  formatPath Number_toString_integer
    [PKey (str "agents"); PKey (str "list"); PIndex 0; PKey (str "tools")] =
  str "agents.list[0].tools".
Proof.
  exact (formatPath_dotted Number_toString_integer (PKey (str "agents"))
           [PKey (str "list"); PIndex 0; PKey (str "tools")]
           ltac:(discriminate)).
Defined.

(** The members a plain object inherits: a method assigned to becomes a
    property of the object, [__proto__] takes no string, and by
    [__proto__] the call reaches [Object.prototype] itself. *)
Lemma setValueAtPath_inherited_members :
  setValueAtPath inherited_names (VObject []) [PKey (str "constructor")]
    (str "x") =
    set_own (VObject [(str "constructor", VString (str "x"))]) /\
  setValueAtPath inherited_names sample_config [PKey (str "__proto__")]
    (str "x") = set_own sample_config /\
  getValueAtPath inherited_names sample_config [PKey (str "__proto__")] =
    None /\
  setValueAtPath inherited_names sample_config
    [PKey (str "__proto__"); PKey (str "toString")] (str "x") =
    {| set_returned := true; set_config := sample_config;
       set_prototype := Some (str "toString") |} /\
  setValueAtPath inherited_names sample_config
    [PKey (str "toString"); PKey (str "name")] (str "x") =
    not_set sample_config.
Proof. by split_and!. Qed.

Lemma sample_paths_diverge : diverge sample_token_path sample_workspace_path.
Proof.
  exists [], (PKey (str "gateway")), (PKey (str "agents")),
    [PKey (str "token")], [PIndex 1; PKey (str "workspace")].
  split_and!; [done..|discriminate].
Qed.

Lemma setValueAtPath_elsewhere_witness :
  set_returned (setValueAtPath inherited_names sample_config
                  sample_token_path (str "${TOKEN}")) = true /\
  getValueAtPath inherited_names
    (set_config (setValueAtPath inherited_names sample_config
                   sample_token_path (str "${TOKEN}")))
    sample_workspace_path =
  getValueAtPath inherited_names sample_config sample_workspace_path.
Proof.
  split; [reflexivity|].
  exact (proj1
    (setValueAtPath_elsewhere inherited_names sample_config sample_token_path
       (str "${TOKEN}") sample_workspace_path eq_refl sample_paths_diverge)).
Defined.

Lemma collectEnvTemplateEntries_exact_witness :
  keys_distinct sample_raw_config = true /\
  sample_token_entry ∈
    collectEnvTemplateEntries sample_resolveConfigEnvVars sample_raw_config
      [] [].
Proof.
  split; [reflexivity|].
  apply (collectEnvTemplateEntries_exact inherited_names
           sample_resolveConfigEnvVars sample_raw_config sample_token_entry
           eq_refl).
  split_and!; [reflexivity..|discriminate].
Defined.

Lemma sample_entries :
  collectEnvTemplateEntries sample_resolveConfigEnvVars sample_raw_config
    [] [] = [sample_token_entry; sample_workspace_entry].
Proof. reflexivity. Qed.



Lemma restoreConfigEnvTemplates_round_trip_witness :
  sample_config <> sample_raw_config /\
  restoreConfigEnvTemplates inherited_names sample_resolveConfigEnvVars
    sample_raw_config sample_config = Some sample_raw_config.
Proof.
  split; [discriminate|].
  exact (restoreConfigEnvTemplates_round_trip inherited_names
           sample_resolveConfigEnvVars sample_raw_config eq_refl
           ltac:(discriminate)).
Defined.


